(** * qbx_minigames: the minigame engines, embedded and verified

    A shallow embedding of the TypeScript/Svelte sources under [web/src]:
    the shared utilities ([utils.ts]), and the puzzle state machines of
    Circuit Solver, Code Cracker, Safe Cracker, Memory Sequence and
    Thermite.  Component-level variables become record fields, handlers
    become functions on those records, [Math.random] is an explicit
    stream of draws, and [setInterval]/[setTimeout] are explicit tables
    of live handles and scheduled calls.  Whole numbers are integers; the
    dial angles of Safe Cracker, which the code adds, subtracts and
    reduces modulo 360, are binary64 floats.  Sound playback and the DOM class
    changes made for display do not touch that state and are left out.
    The Lua script of the resource's client side ([client/main.lua]) is
    embedded too: its three locals become a record, the natives it calls
    and the callback it invokes a list of effects.

    The first part holds the embedding, one module per source file; the
    second part, from [CountdownFacts] on, the properties proved of it. *)

From Stdlib Require Import ZArith Lia String Sorted.
From Stdlib Require PrimFloat FloatOps SpecFloat FloatAxioms.
From stdpp Require Import gmultiset base tactics option list numbers strings gmap.

Local Open Scope Z_scope.

(* ===================================================================== *)
(** ** utils.ts *)
(* ===================================================================== *)

Module Utils.

(** *** Randomness

    [Math.random()] returns a double in [0,1).  A draw is modelled by its
    53-bit numerator [k], standing for the number [k / 2^53]; whatever
    integer the environment supplies is reduced into that range, so every
    draw is a legal result of [Math.random].  A computation that needs more
    draws than the supplied list holds yields [None]. *)

Definition Rand (A : Type) : Type := list Z → option (A * list Z).

Definition ret {A} (a : A) : Rand A := λ ds, Some (a, ds).

Definition bind {A B} (m : Rand A) (k : A → Rand B) : Rand B :=
  λ ds, match m ds with
        | Some (a, ds') => k a ds'
        | None => None
        end.

Notation "'let*' x ':=' m 'in' k" := (bind m (λ x, k))
  (at level 10, x pattern, m at level 100, k at level 200).

Definition resolution : Z := 2 ^ 53.

Definition Math_random : Rand Z :=
  λ ds, match ds with
        | k :: ds' => Some (k `mod` resolution, ds')
        | [] => None
        end.

(** [Math.floor(Math.random() * (max - min + 1)) + min], the product taken
    exactly; [Math.ceil(min)] and [Math.floor(max)] are the identity on the
    integers passed here. *)
Definition getRandomInt (min max : Z) : Rand Z :=
  let* k := Math_random in
  ret ((k * (max - min + 1)) `div` resolution + min).

(** [Math.random() < 0.5] *)
Definition randomBelowHalf : Rand bool :=
  let* k := Math_random in
  ret (k <? resolution `div` 2).

(** [createGrid(rows, cols, defaultValue)] *)
Definition createGrid {T} (rows cols : nat) (defaultValue : T) : list (list T) :=
  replicate rows (replicate cols defaultValue).

(** *** CountdownTimer

    The browser keeps a table of live interval handles; handles are
    positive numbers, hence truthy in [if (this.timerInterval)]. *)

Record Host := mkHost { live : gset positive; nextHandle : positive }.

Definition setInterval (host : Host) : positive * Host :=
  (nextHandle host,
   mkHost ({[nextHandle host]} ∪ live host) (nextHandle host + 1)%positive).

Definition clearInterval (h : positive) (host : Host) : Host :=
  mkHost (live host ∖ {[h]}) (nextHandle host).

Record CountdownTimer := mkTimer {
  startTime : Z;
  duration : Z;
  timerInterval : option positive
}.

(** What the timer calls back into its owner. *)
Inductive Callback :=
| onUpdate (timeLeft : Z)
| onComplete.

Definition new (now dur : Z) : CountdownTimer := mkTimer now dur None.

Definition stop (s : CountdownTimer * Host) : CountdownTimer * Host :=
  let '(t, host) := s in
  match timerInterval t with
  | Some h => (mkTimer (startTime t) (duration t) None, clearInterval h host)
  | None => (t, host)
  end.

Definition start (now : Z) (s : CountdownTimer * Host) : CountdownTimer * Host :=
  let '(t, host) := s in
  let '(h, host') := setInterval host in
  (mkTimer now (duration t) (Some h), host').

Definition reset (now : Z) (s : CountdownTimer * Host) : CountdownTimer * Host :=
  let '(t, host) := stop s in
  (mkTimer now (duration t) (timerInterval t), host).

Definition isRunning (t : CountdownTimer) : bool :=
  match timerInterval t with Some _ => true | None => false end.

(** The closure installed by [start()], fired by the browser for handle
    [h] at clock reading [now]; a cleared handle never fires. *)
Definition tick (h : positive) (now : Z) (s : CountdownTimer * Host)
  : list Callback * (CountdownTimer * Host) :=
  if decide (h ∈ live (snd s)) then
    let elapsed := now - startTime (fst s) in
    let remaining := Z.max 0 (duration (fst s) - elapsed) in
    if remaining <=? 0
    then ([onUpdate remaining; onComplete], stop s)
    else ([onUpdate remaining], s)
  else ([], s).

(** The browser firing handle [h] at each reading of [clock], in order. *)
Fixpoint ticks (h : positive) (clock : list Z) (s : CountdownTimer * Host)
  : list Callback * (CountdownTimer * Host) :=
  match clock with
  | [] => ([], s)
  | now :: clock' =>
      let '(out, s') := tick h now s in
      let '(out', s'') := ticks h clock' s' in
      (out ++ out', s'')
  end.

(** The [remaining] values reported through the update callback. *)
Definition reported (trace : list Callback) : list Z :=
  omap (λ c, match c with onUpdate r => Some r | onComplete => None end) trace.

Definition completions (trace : list Callback) : nat :=
  length (omap (λ c, match c with onComplete => Some () | onUpdate _ => None end) trace).

(** *** Numbers that are not whole

    The dial angles of Safe Cracker are doubles, computed with [+], [-]
    and [%]; they are kept as the kernel's binary64 floats. *)

Abbreviation double := PrimFloat.float.

(** The double that holds the integer [z]; exact for every integer below
    2^53 in size, as the zone bounds are. *)
Definition ofZ (z : Z) : double :=
  FloatOps.SF2Prim (SpecFloat.binary_normalize FloatOps.prec FloatOps.emax z 0 false).

(** [x % y] on numbers: the remainder of the truncated division, with the
    sign of [x]; it is a double and is computed without rounding.  With
    [x] = (-1)^sx mx 2^ex and [y] = my 2^ey, both scaled to the smaller
    exponent, it is the integer remainder.  A remainder by zero, or of an
    infinity or [NaN], is [NaN]; a finite [x] and an infinite [y] give
    [x]. *)
Definition fmod (x y : double) : double :=
  match FloatOps.Prim2SF x, FloatOps.Prim2SF y with
  | SpecFloat.S754_finite sx mx ex, SpecFloat.S754_finite _ my ey =>
      let e := Z.min ex ey in
      let r := (Z.pos mx * 2 ^ (ex - e)) `mod` (Z.pos my * 2 ^ (ey - e)) in
      FloatOps.SF2Prim
        (SpecFloat.binary_normalize FloatOps.prec FloatOps.emax
           (if sx then - r else r) e sx)
  | SpecFloat.S754_zero _, SpecFloat.S754_finite _ _ _ => x
  | SpecFloat.S754_finite _ _ _, SpecFloat.S754_infinity _ => x
  | SpecFloat.S754_zero _, SpecFloat.S754_infinity _ => x
  | _, _ => PrimFloat.nan
  end.

(** *** shuffleArray *)

(** [Math.floor(Math.random() * n)], the product taken exactly. *)
Definition floorRandom (n : Z) : Rand Z :=
  let* k := Math_random in
  ret ((k * n) `div` resolution).

(** [[newArray[i], newArray[j]] = [newArray[j], newArray[i]]]: both
    elements are read, then written crosswise.  The shuffle only calls it
    with both indices inside the array. *)
Definition swap {T} (newArray : list T) (i j : nat) : list T :=
  match newArray !! j, newArray !! i with
  | Some aj, Some ai => <[j := ai]> (<[i := aj]> newArray)
  | _, _ => newArray
  end.

(** The loop of [shuffleArray], entered with its counter at [i]; it runs
    while [i > 0]. *)
Fixpoint shuffleFrom {T} (i : nat) (newArray : list T) : Rand (list T) :=
  match i with
  | O => ret newArray
  | S i' =>
      let* j := floorRandom (Z.of_nat i + 1) in
      shuffleFrom i' (swap newArray i (Z.to_nat j))
  end.

Definition shuffleArray {T} (array : list T) : Rand (list T) :=
  shuffleFrom (length array - 1) array.

End Utils.

(* ===================================================================== *)
(** ** The [complete] event every minigame dispatches *)
(* ===================================================================== *)

Module Events.

(** The values found in the [data] object of a [complete] event. *)
Inductive Value :=
| VNum (n : Z)
| VNums (l : list Z)
| VColors (l : list string).

(** [{ success, data: { ... } }], the fields of [data] by name, in the
    order of the object literal. *)
Record Complete := mkComplete {
  success : bool;
  data : list (string * Value)
}.

Fixpoint field (name : string) (d : list (string * Value)) : option Value :=
  match d with
  | [] => None
  | (k, v) :: d' => if String.eqb k name then Some v else field name d'
  end.

(** What a component hands to the page that mounted it:
    [dispatch('complete', ...)] or [dispatch('exit')]. *)
Inductive Dispatch :=
| DispatchComplete (c : Complete)
| DispatchExit.

End Events.

(* ===================================================================== *)
(** ** minigames/CircuitSolver.svelte *)
(* ===================================================================== *)

Module CircuitSolver.
Import Utils.

Inductive PieceType :=
| straight | corner | three_way | four_way | empty | source | destination.

Record Connections := mkConnections {
  top : bool; right : bool; bottom : bool; left : bool
}.

Record CircuitPiece := mkPiece {
  type : PieceType;
  rotation : Z;
  connections : Connections;
  powered : bool;
  fixed : bool
}.

Inductive GameState := idle | playing | success | failure.

(** A cell of [grid] is [null] until generation has filled it. *)
Abbreviation Grid := (list (list (option CircuitPiece))).

Abbreviation Position := (nat * nat)%type.

Definition pieceDefs (t : PieceType) : Connections :=
  match t with
  | straight    => mkConnections true  false true  false
  | corner      => mkConnections true  true  false false
  | three_way   => mkConnections true  true  true  false
  | four_way    => mkConnections true  true  true  true
  | empty       => mkConnections false false false false
  | source      => mkConnections false true  false false
  | destination => mkConnections false false false true
  end.

(** One pass of the loop body of [rotateConnections]. *)
Definition rotateOnce (result : Connections) : Connections :=
  let temp := top result in
  mkConnections (left result) temp (right result) (bottom result).

(** [for (let i = 0; i < rotation / 90; i++)]: the body runs once for
    every integer below the quotient, that is ceil(rotation / 90) times
    (none for a non-positive rotation). *)
Definition rotateConnections (c : Connections) (rotation : Z) : Connections :=
  Nat.iter (Z.to_nat ((rotation + 89) `div` 90)) rotateOnce c.

Definition isSource (t : PieceType) : bool :=
  match t with source => true | _ => false end.

Definition isEndpoint (t : PieceType) : bool :=
  match t with source | destination => true | _ => false end.

Definition createPiece (t : PieceType) (rotation : Z) : CircuitPiece :=
  mkPiece t rotation (rotateConnections (pieceDefs t) rotation)
          (isSource t) (isEndpoint t).

(** [grid[row][col]]; an index outside the array reads [undefined], which
    the code treats like [null] (every read is guarded by [!piece]). *)
Definition getCell (g : Grid) (row col : nat) : option CircuitPiece :=
  match g !! row with
  | Some r => match r !! col with Some cell => cell | None => None end
  | None => None
  end.

(** [grid[row][col] = piece], for indices inside the grid. *)
Definition setCell (g : Grid) (row col : nat) (p : CircuitPiece) : Grid :=
  alter (λ r, <[col := Some p]> r) row g.

(** [grid.length] and [grid[0].length] *)
Definition rows (g : Grid) : nat := length g.
Definition cols (g : Grid) : nat :=
  match g with r :: _ => length r | [] => 0%nat end.

Record Game := mkGame {
  gameState : GameState;
  timeLeft : Z;
  grid : Grid;
  timer : CountdownTimer * Host;
  sourcePosition : Position;
  destinationPosition : Position;
  (** the calls scheduled by [setTimeout] in [handleGameOver]: the delay in
      milliseconds and the captured [success] of each *)
  scheduled : list (Z * bool)
}.

(** *** Generation *)

Definition placeSourceAndDestination (size : nat) (g : Grid)
  : Rand (Grid * Position * Position) :=
  let* isHorizontal := randomBelowHalf in
  if isHorizontal then
    let* r := getRandomInt 0 (Z.of_nat size - 1) in
    let row := Z.to_nat r in
    let g1 := setCell g row 0 (createPiece source 0) in
    let g2 := setCell g1 row (size - 1) (createPiece destination 0) in
    ret (g2, (row, 0%nat), (row, (size - 1)%nat))
  else
    let* c := getRandomInt 0 (Z.of_nat size - 1) in
    let col := Z.to_nat c in
    let g1 := setCell g 0 col (createPiece source 90) in
    let g2 := setCell g1 (size - 1) col (createPiece destination 270) in
    ret (g2, (0%nat, col), ((size - 1)%nat, col)).

Inductive Dir := down | up | dright | dleft.

Definition visitedAt (v : list (list bool)) (row col : nat) : bool :=
  match v !! row with
  | Some r => default false (r !! col)
  | None => false
  end.

Definition markVisited (v : list (list bool)) (row col : nat) : list (list bool) :=
  alter (λ r, <[col := true]> r) row v.

(** The moves that bring [current] closer to [target]. *)
Definition movesToward (v : list (list bool)) (current target : Position)
  : list (Position * Dir) :=
  let '(cr, cc) := current in
  let '(tr, tc) := target in
  (if (cr <? tr)%nat && negb (visitedAt v (cr + 1) cc) then [((cr + 1, cc)%nat, down)] else []) ++
  (if (tr <? cr)%nat && negb (visitedAt v (cr - 1) cc) then [((cr - 1, cc)%nat, up)] else []) ++
  (if (cc <? tc)%nat && negb (visitedAt v cr (cc + 1)) then [((cr, cc + 1)%nat, dright)] else []) ++
  (if (tc <? cc)%nat && negb (visitedAt v cr (cc - 1)) then [((cr, cc - 1)%nat, dleft)] else []).

(** Any unvisited neighbour inside the grid. *)
Definition movesAny (g : Grid) (v : list (list bool)) (current : Position)
  : list (Position * Dir) :=
  let '(cr, cc) := current in
  (if (cr <? rows g - 1)%nat && negb (visitedAt v (cr + 1) cc) then [((cr + 1, cc)%nat, down)] else []) ++
  (if (0 <? cr)%nat && negb (visitedAt v (cr - 1) cc) then [((cr - 1, cc)%nat, up)] else []) ++
  (if (cc <? cols g - 1)%nat && negb (visitedAt v cr (cc + 1)) then [((cr, cc + 1)%nat, dright)] else []) ++
  (if (0 <? cc)%nat && negb (visitedAt v cr (cc - 1)) then [((cr, cc - 1)%nat, dleft)] else []).

Definition pathPiece (d : Dir) : CircuitPiece :=
  match d with
  | dright | dleft => createPiece straight 90
  | up | down => createPiece straight 0
  end.

Definition isFixedCell (g : Grid) (p : Position) : bool :=
  match getCell g (fst p) (snd p) with
  | Some piece => fixed piece
  | None => false
  end.

(** The [while] loop of [createValidPath]; every pass marks a fresh cell
    visited, so [fuel] = number of cells is never exhausted. *)
Fixpoint carve (fuel : nat) (g : Grid) (v : list (list bool))
         (current target : Position) : Rand Grid :=
  if bool_decide (current = target) then ret g else
  match fuel with
  | O => λ _, None
  | S fuel' =>
      let toward := movesToward v current target in
      let moves := if bool_decide (toward = []) then movesAny g v current else toward in
      match moves with
      | [] => ret g
      | m0 :: _ =>
          let* i := getRandomInt 0 (Z.of_nat (length moves) - 1) in
          let '(next, d) := default m0 (moves !! Z.to_nat i) in
          let g' := if isFixedCell g current then g
                    else setCell g (fst current) (snd current) (pathPiece d) in
          carve fuel' g' (markVisited v (fst next) (snd next)) next target
      end
  end.

Definition createValidPath (g : Grid) (src dst : Position) : Rand Grid :=
  let visited := createGrid (rows g) (cols g) false in
  carve (rows g * cols g) g (markVisited visited (fst src) (snd src)) src dst.

Fixpoint mapM {A B} (f : A → Rand B) (l : list A) : Rand (list B) :=
  match l with
  | [] => ret []
  | a :: l' => let* b := f a in let* bs := mapM f l' in ret (b :: bs)
  end.

Definition pieceTypes : list PieceType :=
  [straight; corner; three_way; four_way; empty].

Definition fillCell (cell : option CircuitPiece) : Rand (option CircuitPiece) :=
  match cell with
  | Some p => ret (Some p)
  | None =>
      let* i := getRandomInt 0 (Z.of_nat (length pieceTypes) - 1) in
      ret (Some (createPiece (default empty (pieceTypes !! Z.to_nat i)) 0))
  end.

Definition fillGrid (g : Grid) (src dst : Position) : Rand Grid :=
  let* g' := createValidPath g src dst in
  mapM (mapM fillCell) g'.

Definition rotations : list Z := [0; 90; 180; 270].

Definition randomizeCell (cell : option CircuitPiece) : Rand (option CircuitPiece) :=
  match cell with
  | Some piece =>
      if fixed piece then ret (Some piece) else
      let* i := getRandomInt 0 3 in
      let randomRotation := default 0 (rotations !! Z.to_nat i) in
      ret (Some (mkPiece (type piece) randomRotation
                   (rotateConnections (pieceDefs (type piece)) randomRotation)
                   (powered piece) (fixed piece)))
  | None => ret None
  end.

Definition randomizeRotations (g : Grid) : Rand Grid :=
  mapM (mapM randomizeCell) g.

(** [initializeGame]; with [gridSize = 0] the first write hits
    [grid[0]] = [undefined] and throws, modelled as [None]. *)
Definition initializeGame (size : nat) : Rand (Grid * Position * Position) :=
  if (size =? 0)%nat then λ _, None else
  let g0 := createGrid size size None in
  let* (g1, src, dst) := placeSourceAndDestination size g0 in
  let* g2 := fillGrid g1 src dst in
  let* g3 := randomizeRotations g2 in
  ret (g3, src, dst).

(** *** Power flow *)

Definition setPowered (b : bool) (p : CircuitPiece) : CircuitPiece :=
  mkPiece (type p) (rotation p) (connections p) b (fixed p).

(** [neighbour.powered = true] on the piece object stored in the grid *)
Definition powerOn (g : Grid) (row col : nat) : Grid :=
  alter (alter (fmap (setPowered true)) col) row g.

(** The reset loop of [updatePowerFlow]. *)
Definition resetPower (g : Grid) : Grid :=
  map (map (fmap (λ piece,
    if isSource (type piece) then piece else setPowered false piece))) g.

(** One of the four direction blocks of [propagatePower]: [here] is the
    connection of the current piece, [inBounds] the index guard, [there]
    selects the facing connection of the neighbour at [(row, col)]. *)
Definition flow (rec : Grid → nat → nat → option Grid)
           (here inBounds : bool) (there : Connections → bool)
           (g : Grid) (row col : nat) : option Grid :=
  if here && inBounds then
    match getCell g row col with
    | Some nb =>
        if there (connections nb) && negb (powered nb)
        then rec (powerOn g row col) row col
        else Some g
    | None => Some g
    end
  else Some g.

(** The recursion of [propagatePower], bounded by [fuel]; [None] means
    the bound was hit before the recursion finished. *)
Fixpoint propagatePower (fuel : nat) (g : Grid) (row col : nat) : option Grid :=
  match fuel with
  | O => None
  | S fuel' =>
      match getCell g row col with
      | None => Some g
      | Some piece =>
          if negb (powered piece) then Some g else
          let c := connections piece in
          g1 ← flow (propagatePower fuel') (top c) (0 <? row)%nat bottom g (row - 1) col;
          g2 ← flow (propagatePower fuel') (right c) (col <? cols g1 - 1)%nat left g1 row (col + 1);
          g3 ← flow (propagatePower fuel') (bottom c) (row <? rows g2 - 1)%nat top g2 (row + 1) col;
          flow (propagatePower fuel') (left c) (0 <? col)%nat right g3 row (col - 1)
      end
  end.

Definition cellCount (g : Grid) : nat := sum_list (length <$> g).

(** Every recursive call powers a cell that was not powered, so the
    recursion is at most [cellCount] deep. *)
Definition updatePowerFlow (g : Grid) (src : Position) : option Grid :=
  propagatePower (S (cellCount g)) (resetPower g) (fst src) (snd src).

(** *** The session *)

Definition handleGameOver (won : bool) (s : Game) : Game :=
  mkGame (if won then success else failure) (timeLeft s) (grid s)
         (stop (timer s)) (sourcePosition s) (destinationPosition s)
         (scheduled s ++ [(1500, won)]).

(** [destPiece.powered] on a missing piece throws: [None]. *)
Definition checkWinCondition (s : Game) : option Game :=
  match getCell (grid s) (fst (destinationPosition s)) (snd (destinationPosition s)) with
  | Some destPiece => Some (if powered destPiece then handleGameOver true s else s)
  | None => None
  end.

Definition isPlaying (st : GameState) : bool :=
  match st with playing => true | _ => false end.

Definition rotatePiece (piece : CircuitPiece) : CircuitPiece :=
  let rotation' := (rotation piece + 90) `rem` 360 in
  mkPiece (type piece) rotation'
          (rotateConnections (pieceDefs (type piece)) rotation')
          (powered piece) (fixed piece).

(** [handlePieceClick(row, col)], called with the indices of a rendered
    cell. *)
Definition handlePieceClick (row col : nat) (s : Game) : option Game :=
  if negb (isPlaying (gameState s)) then Some s else
  match getCell (grid s) row col with
  | None => Some s
  | Some piece =>
      if fixed piece then Some s else
      let g1 := setCell (grid s) row col (rotatePiece piece) in
      g2 ← updatePowerFlow g1 (sourcePosition s);
      checkWinCondition
        (mkGame (gameState s) (timeLeft s) g2 (timer s)
                (sourcePosition s) (destinationPosition s) (scheduled s))
  end.

(** The two callbacks handed to the [CountdownTimer]. *)
Definition onTimer (c : Callback) (s : Game) : Game :=
  match c with
  | onUpdate remaining =>
      mkGame (gameState s) remaining (grid s) (timer s)
             (sourcePosition s) (destinationPosition s) (scheduled s)
  | onComplete => handleGameOver false s
  end.

(** The body of the scheduled call, run when its delay has elapsed. *)
Definition dispatchComplete (won : bool) (s : Game) : Events.Complete :=
  Events.mkComplete won [("timeRemaining"%string, Events.VNum (timeLeft s))].

(** [exit()], behind the EXIT button, which is shown in every state: the
    timer is stopped and ['exit'] is dispatched. *)
Definition exit (s : Game) : Game * Events.Dispatch :=
  (mkGame (gameState s) (timeLeft s) (grid s) (stop (timer s))
          (sourcePosition s) (destinationPosition s) (scheduled s),
   Events.DispatchExit).

(** *** Reachability through matching connections

    The vocabulary of the power-flow property: two grid-adjacent cells are
    linked when each exposes a connection toward the other. *)

Inductive Side := Top | Right | Bottom | Left.

Definition exposes (d : Side) (c : Connections) : bool :=
  match d with
  | Top => top c | Right => right c | Bottom => bottom c | Left => left c
  end.

Definition opposite (d : Side) : Side :=
  match d with
  | Top => Bottom | Right => Left | Bottom => Top | Left => Right
  end.

(** The cell next to [p] on side [d]; there is none above row 0 or left of
    column 0. *)
Definition neighbour (d : Side) (p : Position) : option Position :=
  match d, p with
  | Top, (S r, c) => Some (r, c)
  | Top, (O, _) => None
  | Right, (r, c) => Some (r, S c)
  | Bottom, (r, c) => Some (S r, c)
  | Left, (r, S c) => Some (r, c)
  | Left, (_, O) => None
  end.

Definition pieceAt (g : Grid) (p : Position) : option CircuitPiece :=
  getCell g (fst p) (snd p).

Definition poweredAt (g : Grid) (p : Position) : bool :=
  match pieceAt g p with
  | Some piece => powered piece
  | None => false
  end.

Definition linked (g : Grid) (p q : Position) : Prop :=
  ∃ d pp qq,
    neighbour d p = Some q ∧ pieceAt g p = Some pp ∧ pieceAt g q = Some qq ∧
    exposes d (connections pp) = true ∧
    exposes (opposite d) (connections qq) = true.

Definition reachable (g : Grid) (src : Position) : Position → Prop :=
  rtc (linked g) src.

(** A grid as [createGrid] builds it: every row as long as the first. *)
Definition rectangular (g : Grid) : Prop :=
  Forall (λ r, length r = cols g) g.

End CircuitSolver.

(* ===================================================================== *)
(** ** minigames/CodeCracker.svelte *)
(* ===================================================================== *)

Module CodeCracker.
Import Utils.

Inductive GameState := idle | playing | success | failure.

(** A slot of a guess row: [null] or a colour. *)
Abbreviation Slot := (option string).

Record Feedback := mkFeedback { correct : nat; misplaced : nat }.

Record Config := mkConfig { codeLength : nat; attemptsAllowed : nat }.

Record Game := mkGame {
  config : Config;
  gameState : GameState;
  timeLeft : Z;
  timer : CountdownTimer * Host;
  currentAttempt : nat;
  attempts : list (list Slot);
  feedback : list Feedback;
  secretCode : list string;
  currentGuess : list Slot;
  selectedPosition : nat;
  scheduled : list (Z * bool)
}.

Definition colorOptions : list string :=
  ["#FF5252"; "#4CAF50"; "#2196F3"; "#FFC107";
   "#9C27B0"; "#FF9800"; "#00BCD4"; "#607D8B"]%string.

Fixpoint generateSecretCode (n : nat) : Rand (list string) :=
  match n with
  | O => ret []
  | S n' =>
      let* randomIndex := getRandomInt 0 (Z.of_nat (length colorOptions) - 1) in
      let* rest := generateSecretCode n' in
      ret (default ""%string (colorOptions !! Z.to_nat randomIndex) :: rest)
  end.

(** [codeCopy.findIndex(p)] *)
Fixpoint findIndex {A} (p : A → bool) (l : list A) : option nat :=
  match l with
  | [] => None
  | x :: l' => if p x then Some 0%nat else S <$> findIndex p l'
  end.

Definition slot_eqb (a b : option Slot) : bool := bool_decide (a = b).

(** First loop of [checkGuess].  Reading past the end of an array gives
    [undefined] ([None] of the lookup); the loop stays inside both
    arrays whenever they have [codeLength] slots. *)
Definition pass1 (n : nat) (guess code : list Slot) : nat * list Slot * list Slot :=
  foldl (λ '(correct, guessCopy, codeCopy) i,
           if slot_eqb (guessCopy !! i) (codeCopy !! i)
           then (S correct, <[i := None]> guessCopy, <[i := None]> codeCopy)
           else (correct, guessCopy, codeCopy))
        (0%nat, guess, code) (seq 0 n).

(** Second loop of [checkGuess]. *)
Definition pass2 (n : nat) (guessCopy codeCopy : list Slot) : nat * list Slot :=
  foldl (λ '(misplaced, codeCopy) i,
           match guessCopy !! i with
           | Some (Some c) =>
               match findIndex (λ x, bool_decide (x = Some c)) codeCopy with
               | Some index => (S misplaced, <[index := None]> codeCopy)
               | None => (misplaced, codeCopy)
               end
           | _ => (misplaced, codeCopy)
           end)
        (0%nat, codeCopy) (seq 0 n).

Definition checkGuess (n : nat) (guess : list Slot) (code : list string) : Feedback :=
  let '(correct, guessCopy, codeCopy) := pass1 n guess (Some <$> code) in
  let '(misplaced, _) := pass2 n guessCopy codeCopy in
  mkFeedback correct misplaced.

Definition resetGame (cfg : Config) (secret : list string)
           (tm : CountdownTimer * Host) (time : Z) : Game :=
  mkGame cfg idle time tm 0
         (replicate (attemptsAllowed cfg) (replicate (codeLength cfg) None))
         (replicate (attemptsAllowed cfg) (mkFeedback 0 0))
         secret (replicate (codeLength cfg) None) 0 [].

Definition startGame (now : Z) (s : Game) : Game :=
  mkGame (config s) playing (timeLeft s) (start now (timer s)) (currentAttempt s)
         (attempts s) (feedback s) (secretCode s) (currentGuess s)
         (selectedPosition s) (scheduled s).

Definition isPlaying (st : GameState) : bool :=
  match st with playing => true | _ => false end.

Definition selectPosition (position : nat) (s : Game) : Game :=
  if negb (isPlaying (gameState s)) then s else
  mkGame (config s) (gameState s) (timeLeft s) (timer s) (currentAttempt s)
         (attempts s) (feedback s) (secretCode s) (currentGuess s)
         position (scheduled s).

Definition selectColor (color : string) (s : Game) : Game :=
  if negb (isPlaying (gameState s)) then s else
  mkGame (config s) (gameState s) (timeLeft s) (timer s) (currentAttempt s)
         (attempts s) (feedback s) (secretCode s)
         (<[selectedPosition s := Some color]> (currentGuess s))
         (if (Z.of_nat (selectedPosition s) <? Z.of_nat (codeLength (config s)) - 1)
          then S (selectedPosition s) else selectedPosition s)
         (scheduled s).

Definition handleGameOver (won : bool) (s : Game) : Game :=
  mkGame (config s) (if won then success else failure) (timeLeft s)
         (stop (timer s)) (currentAttempt s) (attempts s) (feedback s)
         (secretCode s) (currentGuess s) (selectedPosition s)
         (scheduled s ++ [(2000, won)]).

(** [currentGuess.includes(null)] *)
Definition includesNull (l : list Slot) : bool :=
  existsb (λ x, match x with None => true | Some _ => false end) l.

Definition submitGuess (s : Game) : Game :=
  if negb (isPlaying (gameState s)) then s else
  if includesNull (currentGuess s) then s else
  let attempts' := <[currentAttempt s := currentGuess s]> (attempts s) in
  let result := checkGuess (codeLength (config s)) (currentGuess s) (secretCode s) in
  let feedback' := <[currentAttempt s := result]> (feedback s) in
  let s1 := mkGame (config s) (gameState s) (timeLeft s) (timer s)
                   (currentAttempt s) attempts' feedback' (secretCode s)
                   (currentGuess s) (selectedPosition s) (scheduled s) in
  if (correct result =? codeLength (config s))%nat then handleGameOver true s1 else
  if Z.of_nat (currentAttempt s) >=? Z.of_nat (attemptsAllowed (config s)) - 1
  then handleGameOver false s1 else
  mkGame (config s) (gameState s) (timeLeft s) (timer s)
         (S (currentAttempt s)) attempts' feedback' (secretCode s)
         (replicate (codeLength (config s)) None) 0 (scheduled s).

Definition onTimer (c : Callback) (s : Game) : Game :=
  match c with
  | onUpdate remaining =>
      mkGame (config s) (gameState s) remaining (timer s) (currentAttempt s)
             (attempts s) (feedback s) (secretCode s) (currentGuess s)
             (selectedPosition s) (scheduled s)
  | onComplete => handleGameOver false s
  end.

(** The body of the scheduled call, run when its delay has elapsed. *)
Definition dispatchComplete (won : bool) (s : Game) : Events.Complete :=
  Events.mkComplete won
    [("timeRemaining"%string, Events.VNum (timeLeft s));
     ("attempts"%string, Events.VNum (Z.of_nat (currentAttempt s) + 1));
     ("secretCode"%string, Events.VColors (secretCode s))].

(** *** The scoring rule in the words of the design document

    Pass 1 counts the positions where guess and secret agree and drops
    those slots on both sides; pass 2 walks the guess slots that are
    left and pairs each with one secret slot of its colour that is still
    unpaired, if there is one. *)

Definition spec_correct (guess secret : list string) : nat :=
  length (filter (λ gs, fst gs = snd gs) (zip guess secret)).

Definition spec_remaining (guess secret : list string) : list (string * string) :=
  filter (λ gs, fst gs ≠ snd gs) (zip guess secret).

Fixpoint remove_one (c : string) (pool : list string) : list string :=
  match pool with
  | [] => []
  | x :: pool' => if bool_decide (x = c) then pool' else x :: remove_one c pool'
  end.

Fixpoint spec_pairing (guessLeft pool : list string) : nat :=
  match guessLeft with
  | [] => 0
  | c :: guessLeft' =>
      if bool_decide (c ∈ pool)
      then S (spec_pairing guessLeft' (remove_one c pool))
      else spec_pairing guessLeft' pool
  end.

Definition spec_misplaced (guess secret : list string) : nat :=
  spec_pairing (fst <$> spec_remaining guess secret)
               (snd <$> spec_remaining guess secret).

(** *** The mounted session and its timer *)

(** The session as [onMount] leaves it: [resetGame], the timer created
    with [config.duration], and [startGame] run. *)
Definition mount (cfg : Config) (secret : list string) (duration now : Z) (host : Host)
  : Game :=
  startGame now (resetGame cfg secret (new now duration, host) duration).

Definition withTimer (tm : CountdownTimer * Host) (s : Game) : Game :=
  mkGame (config s) (gameState s) (timeLeft s) tm (currentAttempt s)
         (attempts s) (feedback s) (secretCode s) (currentGuess s)
         (selectedPosition s) (scheduled s).

(** The browser firing the interval of the session's timer. *)
Definition timerTick (now : Z) (s : Game) : Game :=
  match timerInterval (fst (timer s)) with
  | Some h =>
      let '(calls, tm') := tick h now (timer s) in
      foldl (λ s c, onTimer c s) (withTimer tm' s) calls
  | None => s
  end.

(** [exit()], behind the Exit button, which is shown in every state: the
    timer is stopped and ['exit'] is dispatched. *)
Definition exit (s : Game) : Game * Events.Dispatch :=
  (withTimer (stop (timer s)) s, Events.DispatchExit).

End CodeCracker.

(* ===================================================================== *)
(** ** minigames/SafeCracker.svelte *)
(* ===================================================================== *)

Module SafeCracker.
Import Utils.
Import PrimFloat.

Definition TOTAL_DEGREES : Z := 360.
Definition MIN_ZONE_SIZE : Z := 10.
Definition MAX_ZONE_SIZE : Z := 30.

Inductive GameState := idle | playing | success | failure.

Record Zone := mkZone { zstart : Z; zend : Z; found : bool }.

Record Config := mkConfig { maxRotations : Z; zones : nat }.

(** The zone bounds are integers; the angles of the dial and of the
    pointer are doubles. *)
Record Game := mkGame {
  config : Config;
  gameState : GameState;
  timeLeft : Z;
  timer : CountdownTimer * Host;
  currentRotation : double;
  rotationCount : Z;
  isDragging : bool;
  prevAngle : double;
  successZones : list Zone;
  foundZonesCount : nat;
  dialHistory : list double;
  scheduled : list (Z * bool)
}.

(** *** Generation *)

(** The condition inside [for (const zone of successZones)]. *)
Definition overlaps (startPosition zoneSize : Z) (zone : Zone) : bool :=
  ((zstart zone <=? startPosition) && (startPosition <=? zend zone)) ||
  ((zstart zone <=? startPosition + zoneSize) && (startPosition + zoneSize <=? zend zone)) ||
  ((startPosition <=? zstart zone) && (zstart zone <=? startPosition + zoneSize)).

(** The [do ... while (overlap)] loop: every pass takes one draw, so it
    can run for as long as draws are supplied and no longer. *)
Fixpoint retryStart (fuel : nat) (zoneSize : Z) (placed : list Zone) : Rand Z :=
  match fuel with
  | O => λ _, None
  | S fuel' =>
      let* startPosition := getRandomInt 0 (TOTAL_DEGREES - zoneSize) in
      if existsb (overlaps startPosition zoneSize) placed
      then retryStart fuel' zoneSize placed
      else ret startPosition
  end.

Definition findStart (zoneSize : Z) (placed : list Zone) : Rand Z :=
  λ ds, retryStart (length ds) zoneSize placed ds.

(** The outer [for] loop, [n] zones still to place. *)
Fixpoint placeZones (n : nat) (placed : list Zone) : Rand (list Zone) :=
  match n with
  | O => ret placed
  | S n' =>
      let* zoneSize := getRandomInt MIN_ZONE_SIZE MAX_ZONE_SIZE in
      let* startPosition := findStart zoneSize placed in
      placeZones n' (placed ++ [mkZone startPosition (startPosition + zoneSize) false])
  end.

Definition generateSuccessZones (cfg : Config) : Rand (list Zone) :=
  placeZones (zones cfg) [].

(** *** The session *)

Definition isPlaying (st : GameState) : bool :=
  match st with playing => true | _ => false end.

Definition showUnfoundZones (zs : list Zone) : list Zone :=
  map (λ zone, if negb (found zone)
               then mkZone (zstart zone) (zend zone) true else zone) zs.

Definition handleGameOver (won : bool) (s : Game) : Game :=
  mkGame (config s) (if won then success else failure) (timeLeft s)
         (stop (timer s)) (currentRotation s) (rotationCount s)
         (isDragging s) (prevAngle s)
         (if negb won then showUnfoundZones (successZones s) else successZones s)
         (foundZonesCount s) (dialHistory s)
         (scheduled s ++ [(2000, won)]).

Definition markFound (i : nat) (s : Game) : Game :=
  mkGame (config s) (gameState s) (timeLeft s) (timer s) (currentRotation s)
         (rotationCount s) (isDragging s) (prevAngle s)
         (alter (λ zone, mkZone (zstart zone) (zend zone) true) i (successZones s))
         (S (foundZonesCount s)) (dialHistory s) (scheduled s).

Definition countRotation (s : Game) : Game :=
  mkGame (config s) (gameState s) (timeLeft s) (timer s) (currentRotation s)
         (rotationCount s + 1) (isDragging s) (prevAngle s) (successZones s)
         (foundZonesCount s) (dialHistory s) (scheduled s).

(** [currentRotation >= zone.start && currentRotation <= zone.end] *)
Definition inZone (rotation : double) (zone : Zone) : bool :=
  (ofZ (zstart zone) <=? rotation)%float && (rotation <=? ofZ (zend zone))%float.

(** The loop of [checkSuccessZones] from index [i] on, [n] indices left;
    the two [return]s leave the loop. *)
Fixpoint checkFrom (n i : nat) (s : Game) : Game :=
  match n with
  | O => s
  | S n' =>
      match successZones s !! i with
      | None => s
      | Some zone =>
          if negb (found zone) && inZone (currentRotation s) zone
          then
            let s1 := markFound i s in
            if (foundZonesCount s1 =? zones (config s1))%nat
            then handleGameOver true s1
            else
              let s2 := countRotation s1 in
              if rotationCount s2 >=? maxRotations (config s2)
              then handleGameOver false s2
              else checkFrom n' (S i) s2
          else checkFrom n' (S i) s
      end
  end.

Definition checkSuccessZones (s : Game) : Game :=
  checkFrom (length (successZones s)) 0 s.

(** [dialHistory.push(r)] followed by the trimming [shift()]. *)
Definition pushHistory (r : double) (h : list double) : list double :=
  let h' := h ++ [r] in
  if (100 <? length h')%nat then drop 1 h' else h'.

Definition rotateDial (delta : double) (s : Game) : Game :=
  let r := fmod (currentRotation s + delta)%float 360%float in
  let r' := if (r <? 0)%float then (r + 360)%float else r in
  checkSuccessZones
    (mkGame (config s) (gameState s) (timeLeft s) (timer s) r'
            (rotationCount s) (isDragging s) (prevAngle s) (successZones s)
            (foundZonesCount s) (pushHistory r' (dialHistory s)) (scheduled s)).

(** [startDrag], [drag] and [endDrag], each given the pointer angle that
    [calculateAngle] returned for the event. *)
Definition startDrag (angle : double) (s : Game) : Game :=
  if negb (isPlaying (gameState s)) then s else
  mkGame (config s) (gameState s) (timeLeft s) (timer s) (currentRotation s)
         (rotationCount s) true angle (successZones s)
         (foundZonesCount s) (dialHistory s) (scheduled s).

Definition drag (currentAngle : double) (s : Game) : Game :=
  if negb (isDragging s) || negb (isPlaying (gameState s)) then s else
  let angleDiff := (currentAngle - prevAngle s)%float in
  let delta := if (180 <? angleDiff)%float then (angleDiff - 360)%float
               else if (angleDiff <? -180)%float then (angleDiff + 360)%float
               else angleDiff in
  let s' := rotateDial delta s in
  mkGame (config s') (gameState s') (timeLeft s') (timer s') (currentRotation s')
         (rotationCount s') (isDragging s') currentAngle (successZones s')
         (foundZonesCount s') (dialHistory s') (scheduled s').

Definition endDrag (s : Game) : Game :=
  mkGame (config s) (gameState s) (timeLeft s) (timer s) (currentRotation s)
         (rotationCount s) false (prevAngle s) (successZones s)
         (foundZonesCount s) (dialHistory s) (scheduled s).

Definition onTimer (c : Callback) (s : Game) : Game :=
  match c with
  | onUpdate remaining =>
      mkGame (config s) (gameState s) remaining (timer s) (currentRotation s)
             (rotationCount s) (isDragging s) (prevAngle s) (successZones s)
             (foundZonesCount s) (dialHistory s) (scheduled s)
  | onComplete => handleGameOver false s
  end.

(** The session as [onMount] leaves it: zones generated, state
    [playing], timer started. *)
Definition mount (cfg : Config) (zs : list Zone) (duration now : Z) (host : Host) : Game :=
  mkGame cfg playing duration (start now (new now duration, host))
         0%float 0 false 0%float zs 0 [] [].

(** The body of the scheduled call, run when its delay has elapsed. *)
Definition dispatchComplete (won : bool) (s : Game) : Events.Complete :=
  Events.mkComplete won
    [("timeRemaining"%string, Events.VNum (timeLeft s));
     ("zonesFound"%string, Events.VNum (Z.of_nat (foundZonesCount s)));
     ("totalZones"%string, Events.VNum (Z.of_nat (zones (config s))))].

(** *** Events

    What can happen to a mounted session: the pointer handlers, and the
    browser firing the interval of the session's timer (it fires only
    while the handle stored by [start()] is live). *)

Inductive Event :=
| StartDrag (angle : double)
| Drag (angle : double)
| EndDrag
| Tick (now : Z).

Definition withTimer (tm : CountdownTimer * Host) (s : Game) : Game :=
  mkGame (config s) (gameState s) (timeLeft s) tm (currentRotation s)
         (rotationCount s) (isDragging s) (prevAngle s) (successZones s)
         (foundZonesCount s) (dialHistory s) (scheduled s).

Definition timerTick (now : Z) (s : Game) : Game :=
  match timerInterval (fst (timer s)) with
  | Some h =>
      let '(calls, tm') := tick h now (timer s) in
      foldl (λ s c, onTimer c s) (withTimer tm' s) calls
  | None => s
  end.

Definition step (e : Event) (s : Game) : Game :=
  match e with
  | StartDrag angle => startDrag angle s
  | Drag angle => drag angle s
  | EndDrag => endDrag s
  | Tick now => timerTick now s
  end.

Definition run (events : list Event) (s : Game) : Game :=
  foldl (λ s e, step e s) s events.

(** [exit()], behind the Exit button, which is shown in every state: the
    timer is stopped and ['exit'] is dispatched. *)
Definition exit (s : Game) : Game * Events.Dispatch :=
  (withTimer (stop (timer s)) s, Events.DispatchExit).

End SafeCracker.

(* ===================================================================== *)
(** ** minigames/MemorySequence.svelte *)
(* ===================================================================== *)

Module MemorySequence.
Import Utils.

Inductive GameState := idle | observing | input | success | failure.

Record Config := mkConfig { gridSize : nat; sequenceLength : nat }.

Record Game := mkGame {
  config : Config;
  gameState : GameState;
  sequence : list Z;
  playerSequence : list Z;
  currentIndex : nat;
  timeLeft : Z;
  timer : CountdownTimer * Host;
  scheduled : list (Z * bool)
}.

(** [document.getElementById(`tile-${n}`)] finds an element for exactly
    the numbers [generateGrid] wrote into the grid. *)
Definition tileExists (cfg : Config) (tileNumber : Z) : bool :=
  (0 <=? tileNumber) && (tileNumber <? Z.of_nat (gridSize cfg * gridSize cfg)).

Definition handleGameOver (won : bool) (s : Game) : Game :=
  mkGame (config s) (if won then success else failure) (sequence s)
         (playerSequence s) (currentIndex s) (timeLeft s) (stop (timer s))
         (scheduled s ++ [(1500, won)]).

Definition startInputPhase (now : Z) (s : Game) : Game :=
  mkGame (config s) input (sequence s) [] 0 (timeLeft s)
         (start now (reset now (timer s))) (scheduled s).

Definition isInput (st : GameState) : bool :=
  match st with input => true | _ => false end.

Definition handleTileClick (tileNumber : Z) (s : Game) : Game :=
  if negb (isInput (gameState s)) then s else
  if negb (tileExists (config s) tileNumber) then s else
  let s1 := mkGame (config s) (gameState s) (sequence s)
                   (playerSequence s ++ [tileNumber]) (currentIndex s)
                   (timeLeft s) (timer s) (scheduled s) in
  if bool_decide (sequence s !! currentIndex s = Some tileNumber) then
    let s2 := mkGame (config s1) (gameState s1) (sequence s1)
                     (playerSequence s1) (S (currentIndex s1))
                     (timeLeft s1) (timer s1) (scheduled s1) in
    if (currentIndex s2 =? length (sequence s2))%nat
    then handleGameOver true s2 else s2
  else handleGameOver false s1.

Definition onTimer (now : Z) (c : Callback) (s : Game) : Game :=
  match c with
  | onUpdate remaining =>
      mkGame (config s) (gameState s) (sequence s) (playerSequence s)
             (currentIndex s) remaining (timer s) (scheduled s)
  | onComplete =>
      match gameState s with
      | observing => startInputPhase now s
      | input => handleGameOver false s
      | _ => s
      end
  end.

Definition dispatchComplete (won : bool) (s : Game) : Events.Complete :=
  Events.mkComplete won
    [("timeRemaining"%string, Events.VNum (timeLeft s));
     ("sequenceLength"%string, Events.VNum (Z.of_nat (length (sequence s))));
     ("playerSequence"%string, Events.VNums (playerSequence s))].

(** *** Generation *)

(** [generateGrid]: cell (i, j) holds the tile number [i * size + j]. *)
Definition generateGrid (cfg : Config) : list (list Z) :=
  (λ i, (λ j, Z.of_nat i * Z.of_nat (gridSize cfg) + Z.of_nat j)
          <$> seq 0 (gridSize cfg))
    <$> seq 0 (gridSize cfg).

(** The [do ... while (sequence.includes(num))] loop: every pass takes one
    draw, so it can run for as long as draws are supplied and no longer. *)
Fixpoint retryNum (fuel : nat) (totalCells : Z) (sequence : list Z) : Rand Z :=
  match fuel with
  | O => λ _, None
  | S fuel' =>
      let* num := getRandomInt 0 (totalCells - 1) in
      if bool_decide (num ∈ sequence)
      then retryNum fuel' totalCells sequence
      else ret num
  end.

Definition pickNum (totalCells : Z) (sequence : list Z) : Rand Z :=
  λ ds, retryNum (length ds) totalCells sequence ds.

(** The [for] loop of [generateSequence], [n] numbers still to push. *)
Fixpoint extendSequence (n : nat) (totalCells : Z) (sequence : list Z)
  : Rand (list Z) :=
  match n with
  | O => ret sequence
  | S n' =>
      let* num := pickNum totalCells sequence in
      extendSequence n' totalCells (sequence ++ [num])
  end.

Definition generateSequence (cfg : Config) : Rand (list Z) :=
  extendSequence (sequenceLength cfg)
                 (Z.of_nat (gridSize cfg) * Z.of_nat (gridSize cfg)) [].

(** *** The session *)

(** The session as [onMount] leaves it: sequence generated, the timer
    created with [config.duration], and [startGame] run. *)
Definition mount (cfg : Config) (sequence : list Z) (duration now : Z) (host : Host)
  : Game :=
  mkGame cfg observing sequence [] 0 duration
         (start now (new now duration, host)) [].

(** A click on a tile, and the browser firing the interval of the
    session's timer. *)
Inductive Event :=
| TileClick (tileNumber : Z)
| Tick (now : Z).

Definition withTimer (tm : CountdownTimer * Host) (s : Game) : Game :=
  mkGame (config s) (gameState s) (sequence s) (playerSequence s)
         (currentIndex s) (timeLeft s) tm (scheduled s).

Definition timerTick (now : Z) (s : Game) : Game :=
  match timerInterval (fst (timer s)) with
  | Some h =>
      let '(calls, tm') := tick h now (timer s) in
      foldl (λ s c, onTimer now c s) (withTimer tm' s) calls
  | None => s
  end.

Definition step (e : Event) (s : Game) : Game :=
  match e with
  | TileClick tileNumber => handleTileClick tileNumber s
  | Tick now => timerTick now s
  end.

Definition run (events : list Event) (s : Game) : Game :=
  foldl (λ s e, step e s) s events.

(** [exit()], behind the Exit button, which is shown in every state: the
    timer is stopped and ['exit'] is dispatched. *)
Definition exit (s : Game) : Game * Events.Dispatch :=
  (withTimer (stop (timer s)) s, Events.DispatchExit).

End MemorySequence.

(* ===================================================================== *)
(** ** minigames/Thermite.svelte *)
(* ===================================================================== *)

Module Thermite.
Import Utils.

Inductive GameState := idle | memorize | solving | success | failure.

Record Config := mkConfig {
  gridSize : nat; targetCount : nat; displayTime : Z; duration : Z
}.

Record Game := mkGame {
  config : Config;
  gameState : GameState;
  timeLeft : Z;
  timer : CountdownTimer * Host;
  grid : list (list bool);
  playerGrid : list (list bool);
  targetCells : list (nat * nat);
  selectedCount : nat;
  incorrectSelections : nat;
  showExplosion : bool;
  scheduled : list (Z * bool)
}.

Definition cellAt (g : list (list bool)) (row col : nat) : bool :=
  match g !! row with
  | Some r => default false (r !! col)
  | None => false
  end.

Definition handleGameOver (won : bool) (s : Game) : Game :=
  mkGame (config s) (if won then success else failure) (timeLeft s)
         (stop (timer s)) (grid s)
         (if negb won then grid s else playerGrid s)
         (targetCells s) (selectedCount s) (incorrectSelections s)
         (if negb won then true else showExplosion s)
         (scheduled s ++ [(if won then 1500 else 2500, won)]).

Definition startSolvingPhase (now : Z) (s : Game) : Game :=
  mkGame (config s) solving (timeLeft s)
         (start now (new now (duration (config s)), snd (stop (timer s))))
         (grid s) (playerGrid s) (targetCells s) (selectedCount s)
         (incorrectSelections s) (showExplosion s) (scheduled s).

Definition isSolving (st : GameState) : bool :=
  match st with solving => true | _ => false end.

(** [handleCellClick(row, col)], called with the indices of a rendered
    cell; the spark animation it starts is presentation only. *)
Definition handleCellClick (row col : nat) (s : Game) : Game :=
  if negb (isSolving (gameState s)) then s else
  if cellAt (playerGrid s) row col then s else
  let playerGrid' := alter (λ r, <[col := true]> r) row (playerGrid s) in
  if cellAt (grid s) row col then
    let s1 := mkGame (config s) (gameState s) (timeLeft s) (timer s) (grid s)
                     playerGrid' (targetCells s) (S (selectedCount s))
                     (incorrectSelections s) (showExplosion s) (scheduled s) in
    if (selectedCount s1 =? length (targetCells s1))%nat
    then handleGameOver true s1 else s1
  else
    let s1 := mkGame (config s) (gameState s) (timeLeft s) (timer s) (grid s)
                     playerGrid' (targetCells s) (selectedCount s)
                     (S (incorrectSelections s)) (showExplosion s) (scheduled s) in
    if (3 <=? incorrectSelections s1)%nat
    then handleGameOver false s1 else s1.

Definition onTimer (now : Z) (c : Callback) (s : Game) : Game :=
  match c with
  | onUpdate remaining =>
      mkGame (config s) (gameState s) remaining (timer s) (grid s)
             (playerGrid s) (targetCells s) (selectedCount s)
             (incorrectSelections s) (showExplosion s) (scheduled s)
  | onComplete =>
      match gameState s with
      | memorize => startSolvingPhase now s
      | solving => handleGameOver false s
      | _ => s
      end
  end.

Definition dispatchComplete (won : bool) (s : Game) : Events.Complete :=
  Events.mkComplete won
    [("timeRemaining"%string, Events.VNum (timeLeft s));
     ("correctSelections"%string, Events.VNum (Z.of_nat (selectedCount s)));
     ("incorrectSelections"%string, Events.VNum (Z.of_nat (incorrectSelections s)));
     ("totalTargets"%string, Events.VNum (Z.of_nat (length (targetCells s))))].

(** *** Generation *)

(** The grids [resetGrids] builds: no cell set. *)
Definition blankGrid (cfg : Config) : list (list bool) :=
  createGrid (gridSize cfg) (gridSize cfg) false.

(** [allPositions], row by row. *)
Definition allPositions (size : nat) : list (nat * nat) :=
  row ← seq 0 size; (λ col, (row, col)) <$> seq 0 size.

(** [grid[row][col] = true] *)
Definition setCellTrue (g : list (list bool)) (cell : nat * nat) : list (list bool) :=
  alter (λ r, <[snd cell := true]> r) (fst cell) g.

(** [generatePattern], run on the grid [resetGrids] left; it returns
    [targetCells] and the grid with those cells set. *)
Definition generatePattern (cfg : Config) (grid0 : list (list bool))
  : Rand (list (nat * nat) * list (list bool)) :=
  let totalCells := (gridSize cfg * gridSize cfg)%nat in
  let maxTargets := (targetCount cfg `min` totalCells)%nat in
  let* shuffledPositions := shuffleArray (allPositions (gridSize cfg)) in
  let targetCells := take maxTargets shuffledPositions in
  ret (targetCells, foldl setCellTrue grid0 targetCells).

(** The session as [onMount] leaves it: grids reset, pattern generated,
    the timer created with [displayTime] and started by [startGame]. *)
Definition mount (cfg : Config) (now : Z) (host : Host) : Rand Game :=
  let* (targetCells, pattern) := generatePattern cfg (blankGrid cfg) in
  ret (mkGame cfg memorize (duration cfg)
              (start now (new now (displayTime cfg), host))
              pattern (blankGrid cfg) targetCells 0 0 false []).

(** *** Events

    A click on a rendered cell, and the browser firing the interval of
    the session's current timer: the one created on mount while the state
    is [memorize], the one [startSolvingPhase] created from then on. *)
Inductive Event :=
| CellClick (row col : nat)
| Tick (now : Z).

Definition withTimer (tm : CountdownTimer * Host) (s : Game) : Game :=
  mkGame (config s) (gameState s) (timeLeft s) tm (grid s) (playerGrid s)
         (targetCells s) (selectedCount s) (incorrectSelections s)
         (showExplosion s) (scheduled s).

Definition timerTick (now : Z) (s : Game) : Game :=
  match timerInterval (fst (timer s)) with
  | Some h =>
      let '(calls, tm') := tick h now (timer s) in
      foldl (λ s c, onTimer now c s) (withTimer tm' s) calls
  | None => s
  end.

Definition step (e : Event) (s : Game) : Game :=
  match e with
  | CellClick row col => handleCellClick row col s
  | Tick now => timerTick now s
  end.

Definition run (events : list Event) (s : Game) : Game :=
  foldl (λ s e, step e s) s events.

(** [exit()], behind the Exit button, which is shown in every state: the
    timer is stopped and ['exit'] is dispatched. *)
Definition exit (s : Game) : Game * Events.Dispatch :=
  (withTimer (stop (timer s)) s, Events.DispatchExit).

End Thermite.

(* ===================================================================== *)
(** ** client/main.lua *)
(* ===================================================================== *)

Module Client.

(** The fields every configuration table starts with. *)
Record Base := mkBase { difficulty : string; duration : Z; soundEnabled : bool }.

(** The configuration tables the [minigames] functions build. *)
Inductive Config :=
| MemorySequenceConfig (base : Base) (gridSize sequenceLength : nat)
| CircuitSolverConfig (base : Base) (gridSize circuits : nat)
| CodeCrackerConfig (base : Base) (codeLength attempts : nat)
| SafeCrackerConfig (base : Base) (maxRotations : Z) (zones : nat)
| ThermiteConfig (base : Base) (displayTime : Z) (gridSize targetCount : nat).

(** [x or fallback]: the fallback replaces [nil]. *)
Definition orElse {A} (x : option A) (fallback : A) : A := default fallback x.

(** The three branches every function takes on [config.difficulty]. *)
Definition byDifficulty {A} (d : string) (easy normal hard : A) : A :=
  if String.eqb d "easy" then easy
  else if String.eqb d "normal" then normal
  else hard.

Definition memory_sequence (difficulty : option string) (duration : option Z) : Config :=
  let base := mkBase (orElse difficulty "normal") (orElse duration 5000) true in
  byDifficulty (orElse difficulty "normal")
    (MemorySequenceConfig base 3 4)
    (MemorySequenceConfig base 4 6)
    (MemorySequenceConfig base 5 8).

Definition circuit_solver (difficulty : option string) (duration : option Z) : Config :=
  let base := mkBase (orElse difficulty "normal") (orElse duration 30000) true in
  byDifficulty (orElse difficulty "normal")
    (CircuitSolverConfig base 3 2)
    (CircuitSolverConfig base 4 3)
    (CircuitSolverConfig base 5 4).

Definition code_cracker (difficulty : option string) (duration : option Z) : Config :=
  let base := mkBase (orElse difficulty "normal") (orElse duration 30000) true in
  byDifficulty (orElse difficulty "normal")
    (CodeCrackerConfig base 4 6)
    (CodeCrackerConfig base 5 5)
    (CodeCrackerConfig base 6 4).

Definition safe_cracker (difficulty : option string) (duration : option Z) : Config :=
  let base := mkBase (orElse difficulty "normal") (orElse duration 30000) true in
  byDifficulty (orElse difficulty "normal")
    (SafeCrackerConfig base 1 5)
    (SafeCrackerConfig base 2 4)
    (SafeCrackerConfig base 3 3).

Definition thermite (difficulty : option string) (duration : option Z) : Config :=
  let base := mkBase (orElse difficulty "normal") (orElse duration 8000) true in
  byDifficulty (orElse difficulty "normal")
    (ThermiteConfig base 3000 5 3)
    (ThermiteConfig base 3000 6 4)
    (ThermiteConfig base 3000 7 5).

(** The [minigames] table. *)
Definition minigames (minigameType : string)
  : option (option string → option Z → Config) :=
  if String.eqb minigameType "memory_sequence" then Some memory_sequence
  else if String.eqb minigameType "circuit_solver" then Some circuit_solver
  else if String.eqb minigameType "code_cracker" then Some code_cracker
  else if String.eqb minigameType "safe_cracker" then Some safe_cracker
  else if String.eqb minigameType "thermite" then Some thermite
  else None.

(** The script's three locals.  A callback is known by a number. *)
Record State := mkState {
  isAnyMinigameActive : bool;
  minigameResult : option bool;
  minigameCallback : option nat
}.

Definition initial : State := mkState false None None.

(** What the script does to the outside: the natives it calls, the stored
    callback it invokes, the reply it gives to the page. *)
Inductive Effect :=
| SendNUIMessage (minigameType : string) (config : Config)
| SetNuiFocus (hasFocus hasCursor : bool)
| Invoke (callback : nat) (success : bool) (data : list (string * Events.Value))
| Reply (body : string).

Definition StartMinigame (minigameType : string) (config : Config) (cb : option nat)
           (st : State) : (bool * option string) * list Effect * State :=
  if isAnyMinigameActive st
  then ((false, Some "Another minigame is already in progress"%string), [], st)
  else ((true, None),
        [SendNUIMessage minigameType config; SetNuiFocus true true],
        mkState true None cb).

Definition invokeCallback (cb : option nat) (success : bool)
           (data : list (string * Events.Value)) : list Effect :=
  match cb with
  | Some callback => [Invoke callback success data]
  | None => []
  end.

(** [RegisterNUICallback('minigameComplete', ...)] *)
Definition minigameComplete (data : Events.Complete) (st : State) : list Effect * State :=
  ([SetNuiFocus false false]
     ++ invokeCallback (minigameCallback st) (Events.success data) (Events.data data)
     ++ [Reply "ok"],
   mkState false (Some (Events.success data)) (minigameCallback st)).

(** [RegisterNUICallback('minigameExit', ...)] *)
Definition minigameExit (st : State) : list Effect * State :=
  ([SetNuiFocus false false]
     ++ invokeCallback (minigameCallback st) false []
     ++ [Reply "ok"],
   mkState false (minigameResult st) (minigameCallback st)).

(** [exports('StartMinigame', ...)] *)
Definition exportStartMinigame (minigameType : string) (difficulty : option string)
           (duration : option Z) (cb : option nat) (st : State)
  : (bool * option string) * list Effect * State :=
  match minigames minigameType with
  | Some build => StartMinigame minigameType (build difficulty duration) cb st
  | None => ((false, Some "Invalid minigame type"%string), [], st)
  end.

(** What can reach the script: another resource calling the export, and
    the page posting to one of the two NUI callbacks. *)
Inductive Request :=
| Start (minigameType : string) (difficulty : option string) (duration : option Z)
        (cb : option nat)
| Complete (data : Events.Complete)
| Exit.

Definition serve (r : Request) (st : State) : list Effect * State :=
  match r with
  | Start minigameType difficulty duration cb =>
      let '(_, effects, st') := exportStartMinigame minigameType difficulty duration cb st in
      (effects, st')
  | Complete data => minigameComplete data st
  | Exit => minigameExit st
  end.

(** The effects of a series of requests, in order. *)
Fixpoint serveAll (rs : list Request) (st : State) : list Effect * State :=
  match rs with
  | [] => ([], st)
  | r :: rs' =>
      let '(effects, st') := serve r st in
      let '(effects', st'') := serveAll rs' st' in
      (effects ++ effects', st'')
  end.

(** The part of a Safe Cracker table that the component reads. *)
Definition safeCrackerProps (c : Config) : option (SafeCracker.Config * Z) :=
  match c with
  | SafeCrackerConfig base maxRotations zones =>
      Some (SafeCracker.mkConfig maxRotations zones, duration base)
  | _ => None
  end.

End Client.

(* ===================================================================== *)
(** ** App.svelte *)
(* ===================================================================== *)

Module App.

Record State := mkState {
  active : bool;
  minigameType : string;
  config : option Client.Config
}.

(** The two [fetch] calls, by the NUI callback they post to. *)
Inductive Post :=
| PostComplete (success : bool) (data : list (string * Events.Value))
| PostExit.

(** The listener for the ["startMinigame"] message. *)
Definition onMessage (type : string) (gameConfig : Client.Config) (st : State) : State :=
  mkState true type (Some gameConfig).

Definition handleComplete (success : bool) (data : list (string * Events.Value))
           (st : State) : Post * State :=
  (PostComplete success data, mkState false "" None).

Definition handleExit (st : State) : Post * State :=
  (PostExit, mkState false "" None).

(** The handlers the template attaches to the mounted component:
    [on:complete] and [on:exit]. *)
Definition onDispatch (d : Events.Dispatch) (st : State) : Post * State :=
  match d with
  | Events.DispatchComplete c => handleComplete (Events.success c) (Events.data c) st
  | Events.DispatchExit => handleExit st
  end.

(** [handleKeydown], attached to the window. *)
Definition handleKeydown (key : string) (st : State) : option Post * State :=
  if String.eqb key "Escape" && active st
  then (Some (fst (handleExit st)), snd (handleExit st))
  else (None, st).

(** The request a post is for the client script. *)
Definition deliver (p : Post) : Client.Request :=
  match p with
  | PostComplete success data => Client.Complete (Events.mkComplete success data)
  | PostExit => Client.Exit
  end.

End App.

(* ===================================================================== *)
(** * Properties *)
(* ===================================================================== *)

(** ** The countdown *)

Module CountdownFacts.
Import Utils.

Lemma stop_idempotent s : stop (stop s) = stop s.
Proof. destruct s as [[st d [h|]] host]; reflexivity. Qed.

Lemma stop_releases t host h :
  timerInterval t = Some h →
  h ∉ live (snd (stop (t, host))) ∧ timerInterval (fst (stop (t, host))) = None.
Proof.
  intros E. unfold stop. rewrite E. simpl. split; [set_solver | done].
Qed.

Lemma ticks_cleared h clock s :
  h ∉ live (snd s) → ticks h clock s = ([], s).
Proof.
  intros Hh. induction clock as [|now clock IH]; [done|].
  simpl. unfold tick. rewrite decide_False by done. by rewrite IH.
Qed.

Section Running.
Variables (d now0 : Z) (h : positive) (host : Host).
Hypothesis h_live : h ∈ live host.

Let running : CountdownTimer * Host := (mkTimer now0 d (Some h), host).
Let remainingAt (now : Z) : Z := Z.max 0 (d - (now - now0)).

Lemma tick_running now :
  tick h now running =
  if decide (d - (now - now0) ≤ 0)
  then ([onUpdate 0; onComplete], stop running)
  else ([onUpdate (d - (now - now0))], running).
Proof.
  unfold tick, running. simpl. rewrite decide_True by done.
  destruct (decide (d - (now - now0) ≤ 0)) as [Hle|Hgt].
  - rewrite Z.max_l by done. done.
  - rewrite Z.max_r by lia.
    destruct (Z.leb_spec (d - (now - now0)) 0); [lia | done].
Qed.

(** The whole run, split at the first reading at which the time is up. *)
Lemma ticks_running clock :
  ticks h clock running =
  match list_find (λ now, d - (now - now0) ≤ 0) clock with
  | None => (onUpdate ∘ remainingAt <$> clock, running)
  | Some (i, _) =>
      ((onUpdate ∘ remainingAt <$> take (S i) clock) ++ [onComplete], stop running)
  end.
Proof.
  induction clock as [|now clock IH]; [done|].
  cbn [ticks list_find]. rewrite tick_running.
  destruct (decide (d - (now - now0) ≤ 0)) as [Hle|Hgt].
  - rewrite ticks_cleared.
    + simpl. unfold remainingAt. rewrite Z.max_l by done. done.
    + unfold running, stop. simpl. set_solver.
  - assert (remainingAt now = d - (now - now0)) as E by (unfold remainingAt; lia).
    rewrite IH. destruct (list_find _ clock) as [[i x]|];
      cbn [fmap option_fmap option_map prod_map list_fmap take compose app id fst snd];
      rewrite E; done.
Qed.
End Running.

Lemma reported_updates (f : Z → Z) l :
  reported (onUpdate ∘ f <$> l) = f <$> l.
Proof. induction l as [|x l IH]; [done|]. cbn. f_equal. exact IH. Qed.

Lemma reported_app t1 t2 : reported (t1 ++ t2) = reported t1 ++ reported t2.
Proof. unfold reported. apply omap_app. Qed.

Lemma completions_updates (f : Z → Z) l : completions (onUpdate ∘ f <$> l) = 0%nat.
Proof. induction l as [|x l IH]; [done|]. exact IH. Qed.

Lemma completions_app t1 t2 : completions (t1 ++ t2) = (completions t1 + completions t2)%nat.
Proof. unfold completions. by rewrite omap_app, length_app. Qed.

(** Remaining time under a monotone clock. *)
Lemma remaining_sorted d now0 clock :
  Sorted Z.le clock →
  Sorted Z.ge ((λ now, Z.max 0 (d - (now - now0))) <$> clock).
Proof.
  induction 1 as [|now clock Hs IH Hhd]; [constructor|].
  simpl. constructor; [done|].
  destruct Hhd as [|next clock Hle]; constructor. lia.
Qed.

Lemma remaining_nonneg d now0 clock :
  Forall (λ r, 0 ≤ r) ((λ now, Z.max 0 (d - (now - now0))) <$> clock).
Proof. apply Forall_fmap, Forall_true. intros now. simpl. lia. Qed.

Lemma Sorted_take {A} (R : A → A → Prop) n (l : list A) :
  Sorted R l → Sorted R (take n l).
Proof.
  intros Hs. revert n. induction Hs as [|x l Hs IH Hhd]; intros [|n]; simpl; try constructor.
  - apply IH.
  - destruct Hhd; destruct n; simpl; constructor. done.
Qed.

(** C9 — A countdown of duration [d] started at [now0] reports, at every
    tick, [max 0 (d - (now - now0))]; under a monotone clock the reported
    values never increase and never drop below 0; the first tick at which
    the remaining time is 0 reports 0, calls the completion callback, and
    clears the interval, so that no later tick fires and completion is
    signalled exactly once (and not at all while time remains); [stop] is
    idempotent. *)
Theorem countdown_contract (d now0 : Z) (t : CountdownTimer) (host : Host) (clock : list Z) :
  duration t = d →
  Sorted Z.le clock →
  let h := nextHandle host in
  let run := ticks h clock (start now0 (t, host)) in
  let trace := fst run in
  reported trace
    = (λ now, Z.max 0 (d - (now - now0))) <$> take (length (reported trace)) clock
  ∧ Sorted Z.ge (reported trace)
  ∧ Forall (λ r, 0 ≤ r) (reported trace)
  ∧ (if bool_decide (Exists (λ now, d - (now - now0) ≤ 0) clock)
     then completions trace = 1%nat
          ∧ last trace = Some onComplete
          ∧ last (reported trace) = Some 0
          ∧ h ∉ live (snd (snd run))
          ∧ timerInterval (fst (snd run)) = None
          ∧ (∀ later, ticks h later (snd run) = ([], snd run))
     else completions trace = 0%nat
          ∧ length (reported trace) = length clock
          ∧ snd run = start now0 (t, host))
  ∧ (∀ s, stop (stop s) = stop s).
Proof.
  intros Hd Hsorted h run trace.
  assert (Hlive : h ∈ live (mkHost ({[h]} ∪ live host) (h + 1)%positive))
    by (simpl; set_solver).
  pose proof (ticks_running d now0 h _ Hlive clock) as Hrun.
  assert (Hstart : start now0 (t, host)
          = (mkTimer now0 d (Some h), mkHost ({[h]} ∪ live host) (h + 1)%positive))
    by (unfold start, setInterval; simpl; by rewrite Hd).
  subst run trace. rewrite Hstart, Hrun. clear Hrun.
  set (rem := λ now : Z, Z.max 0 (d - (now - now0))).
  destruct (list_find _ clock) as [[i x]|] eqn:Hfind.
  - apply list_find_Some in Hfind as (Hi & Hx & _).
    assert (Hlen : length (take (S i) clock) = S i)
      by (apply lookup_lt_Some in Hi; rewrite length_take; lia).
    assert (Hrep : reported (fst ((onUpdate ∘ rem <$> take (S i) clock) ++ [onComplete],
                                  stop (mkTimer now0 d (Some h),
                                        mkHost ({[h]} ∪ live host) (h + 1)%positive)))
                   = rem <$> take (S i) clock).
    { simpl. rewrite reported_app, reported_updates. apply app_nil_r. }
    rewrite Hrep, length_fmap, Hlen.
    rewrite bool_decide_true by (apply Exists_exists; exists x; split;
                                 [by eapply list_elem_of_lookup_2 | done]).
    split_and!.
    + done.
    + apply remaining_sorted, Sorted_take, Hsorted.
    + apply remaining_nonneg.
    + simpl. rewrite completions_app, completions_updates. done.
    + simpl. apply last_snoc.
    + rewrite (take_S_r _ _ _ Hi), fmap_app. simpl. rewrite last_snoc.
      unfold rem. by rewrite Z.max_l.
    + simpl. set_solver.
    + done.
    + intros later. apply ticks_cleared. simpl. set_solver.
    + apply stop_idempotent.
  - apply list_find_None in Hfind.
    assert (Hrep : reported (fst (onUpdate ∘ rem <$> clock,
                                  (mkTimer now0 d (Some h),
                                   mkHost ({[h]} ∪ live host) (h + 1)%positive)))
                   = rem <$> clock) by apply reported_updates.
    rewrite Hrep, length_fmap, firstn_all.
    rewrite bool_decide_false.
    2:{ intros Hex. apply Exists_exists in Hex as (y & Hy & Hle).
        rewrite Forall_forall in Hfind. by apply (Hfind y). }
    split_and!; try done.
    + by apply remaining_sorted.
    + apply remaining_nonneg.
    + apply completions_updates.
    + apply stop_idempotent.
Qed.

(** A 30 ms countdown started at 100 and ticked at 110, 120, 130, 140. *)
Lemma countdown_contract_witness :
  duration (new 0 30) = 30
  ∧ Sorted Z.le [110; 120; 130; 140]
  ∧ Sorted Z.ge (reported (fst (ticks 1 [110; 120; 130; 140]
                                  (start 100 (new 0 30, mkHost ∅ 1)))))
  ∧ completions (fst (ticks 1 [110; 120; 130; 140]
                        (start 100 (new 0 30, mkHost ∅ 1)))) = 1%nat.
Proof.
  assert (Hs : Sorted Z.le [110; 120; 130; 140]) by (repeat constructor; lia).
  pose proof (countdown_contract 30 100 (new 0 30) (mkHost ∅ 1)
                [110; 120; 130; 140] eq_refl Hs) as (_ & Hge & _ & Hdone & _).
  rewrite bool_decide_true in Hdone
    by (apply Exists_exists; exists 130; split; [set_solver | lia]).
  destruct Hdone as (Hone & _).
  split_and!; [reflexivity | exact Hs | exact Hge | exact Hone].
Defined.

End CountdownFacts.

(** ** Random draws *)

Module RandFacts.
Import Utils.

Lemma getRandomInt_range (min max : Z) ds v ds' :
  min ≤ max → getRandomInt min max ds = Some (v, ds') → min ≤ v ≤ max.
Proof.
  intros Hle. unfold getRandomInt, bind, Math_random, ret.
  destruct ds as [|k ds]; [done|]. intros [= <- <-].
  assert (0 ≤ k `mod` resolution < resolution) as Hk by (by apply Z.mod_pos_bound).
  assert (0 < resolution) by done.
  assert (0 ≤ (k `mod` resolution * (max - min + 1)) `div` resolution < max - min + 1);
    [|lia].
  split.
  - apply Z.div_pos; nia.
  - apply Z.div_lt_upper_bound; nia.
Qed.

Lemma randomBelowHalf_draw ds b ds' :
  randomBelowHalf ds = Some (b, ds') → ∃ k, ds = k :: ds'.
Proof.
  unfold randomBelowHalf, bind, Math_random. destruct ds as [|k ds]; [done|].
  intros [= _ <-]. by exists k.
Qed.

End RandFacts.

(** ** Circuit Solver: cells, wiring and the unpowered count *)

Module CircuitFacts.
Import Utils CircuitSolver.

(** What a cell holds apart from its [powered] flag. *)
Definition wiringAt (g : Grid) (p : Position) : option CircuitPiece :=
  setPowered false <$> pieceAt g p.

Definition connAt (g : Grid) (p : Position) : option Connections :=
  connections <$> pieceAt g p.

(** The edge relation exactly as [propagatePower] tests it, index guards
    included. *)
Definition step (g : Grid) (p q : Position) : Prop :=
  ∃ cp cq, connAt g p = Some cp ∧ connAt g q = Some cq ∧
    ((top cp = true ∧ (0 < fst p)%nat ∧ q = ((fst p - 1)%nat, snd p) ∧ bottom cq = true)
     ∨ (right cp = true ∧ (snd p < cols g - 1)%nat ∧ q = (fst p, (snd p + 1)%nat) ∧ left cq = true)
     ∨ (bottom cp = true ∧ (fst p < rows g - 1)%nat ∧ q = ((fst p + 1)%nat, snd p) ∧ top cq = true)
     ∨ (left cp = true ∧ (0 < snd p)%nat ∧ q = (fst p, (snd p - 1)%nat) ∧ right cq = true)).

Definition cellWeight (cell : option CircuitPiece) : nat :=
  match cell with
  | Some piece => if powered piece then 0 else 1
  | None => 0
  end.

Definition rowWeight (r : list (option CircuitPiece)) : nat :=
  sum_list (cellWeight <$> r).

(** Number of pieces that are not powered. *)
Definition unpowered (g : Grid) : nat := sum_list (rowWeight <$> g).

(** [g'] is [g] with some more pieces powered. *)
Record grows (g g' : Grid) : Prop := mkGrows {
  grows_shape : length <$> g' = length <$> g;
  grows_wiring : ∀ p, wiringAt g' p = wiringAt g p;
  grows_mono : ∀ p, poweredAt g p = true → poweredAt g' p = true;
  grows_fewer : (unpowered g' ≤ unpowered g)%nat
}.

(** Every powered cell of [g'] is reached from a powered cell of [g]. *)
Definition sound (g g' : Grid) : Prop :=
  ∀ p, poweredAt g' p = true → ∃ x, poweredAt g x = true ∧ rtc (step g) x p.

(** Outside [S], a powered cell has only powered cells behind its edges. *)
Definition closedExcept (g : Grid) (S : Position → Prop) : Prop :=
  ∀ p q, poweredAt g p = true → ¬ S p → step g p q → poweredAt g q = true.

Lemma pieceAt_powerOn_eq g r c :
  pieceAt (powerOn g r c) (r, c) = setPowered true <$> pieceAt g (r, c).
Proof.
  unfold pieceAt, powerOn, getCell. cbn [fst snd]. rewrite list_lookup_alter_eq.
  destruct (g !! r) as [row|]; [|done]. cbn [fmap option_fmap option_map].
  rewrite list_lookup_alter_eq.
  by destruct (row !! c) as [[?|]|].
Qed.

Lemma pieceAt_powerOn_ne g r c p :
  p ≠ (r, c) → pieceAt (powerOn g r c) p = pieceAt g p.
Proof.
  destruct p as [r' c']. intros Hne. unfold pieceAt, powerOn, getCell. cbn [fst snd].
  destruct (decide (r = r')) as [->|Hr].
  - rewrite list_lookup_alter_eq. destruct (g !! r') as [row|]; [|done].
    cbn [fmap option_fmap option_map].
    rewrite list_lookup_alter_ne by congruence. done.
  - by rewrite list_lookup_alter_ne.
Qed.

Lemma shape_powerOn g r c : length <$> powerOn g r c = length <$> g.
Proof.
  unfold powerOn. apply list_eq. intros i. rewrite !list_lookup_fmap.
  destruct (decide (r = i)) as [->|Hr].
  - rewrite list_lookup_alter_eq. destruct (g !! i); [|done].
    cbn [fmap option_fmap option_map]. by rewrite length_alter.
  - by rewrite list_lookup_alter_ne.
Qed.

Lemma shape_rows g g' : length <$> g' = length <$> g → rows g' = rows g.
Proof. intros H. unfold rows. by rewrite <-(length_fmap length g'), H, length_fmap. Qed.

Lemma shape_cols g g' : length <$> g' = length <$> g → cols g' = cols g.
Proof. destruct g, g'; simpl; intros H; by inversion H. Qed.

Lemma shape_cellCount g g' : length <$> g' = length <$> g → cellCount g' = cellCount g.
Proof. unfold cellCount. by intros ->. Qed.

Lemma sum_alter {A} (w : A → nat) (f : A → A) i (l : list A) x :
  l !! i = Some x →
  (sum_list (w <$> alter f i l) + w x = sum_list (w <$> l) + w (f x))%nat.
Proof.
  revert i. induction l as [|y l IH]; intros [|i] Hi; simplify_eq/=; [lia|].
  specialize (IH _ Hi). lia.
Qed.

Lemma unpowered_powerOn g r c nb :
  pieceAt g (r, c) = Some nb → powered nb = false →
  (unpowered (powerOn g r c) + 1 = unpowered g)%nat.
Proof.
  unfold pieceAt, getCell, unpowered, powerOn. simpl. intros Hcell Hoff.
  destruct (g !! r) as [row|] eqn:Hrow; [|done].
  destruct (row !! c) as [cell|] eqn:Hc; [|done]. subst cell.
  pose proof (sum_alter rowWeight (alter (fmap (setPowered true)) c) r g row Hrow) as H1.
  pose proof (sum_alter cellWeight (fmap (setPowered true)) c row (Some nb) Hc) as H2.
  unfold rowWeight in *. simpl in H2. rewrite Hoff in H2. lia.
Qed.

Lemma unpowered_le_cellCount g : (unpowered g ≤ cellCount g)%nat.
Proof.
  unfold unpowered, cellCount. induction g as [|row g IH]; csimpl; [lia|].
  assert (rowWeight row ≤ length row)%nat; [|lia].
  unfold rowWeight. clear. induction row as [|[[? ? ? [] ?]|] row IH]; csimpl; lia.
Qed.

Lemma connAt_wiring g g' p : wiringAt g' p = wiringAt g p → connAt g' p = connAt g p.
Proof.
  unfold wiringAt, connAt.
  destruct (pieceAt g' p) as [a|], (pieceAt g p) as [b|]; simpl; intros H;
    simplify_eq; [|done].
  by f_equal.
Qed.

Lemma poweredAt_connAt g p : poweredAt g p = true → is_Some (connAt g p).
Proof. unfold poweredAt, connAt. destruct (pieceAt g p); [eauto|done]. Qed.

Lemma step_grows g g' p q : grows g g' → step g' p q ↔ step g p q.
Proof.
  intros [Hshape Hwire _ _]. unfold step.
  rewrite (shape_rows _ _ Hshape), (shape_cols _ _ Hshape).
  by rewrite !(connAt_wiring g g') by done.
Qed.

Lemma rtc_step_grows g g' x y : grows g g' → rtc (step g') x y → rtc (step g) x y.
Proof.
  intros Hg. induction 1 as [|a b c Hab _ IH]; [constructor|].
  eapply rtc_l; [|exact IH]. by apply (step_grows g g').
Qed.

Lemma grows_refl g : grows g g.
Proof. by constructor. Qed.

Lemma grows_trans g1 g2 g3 : grows g1 g2 → grows g2 g3 → grows g1 g3.
Proof.
  intros [S1 W1 M1 F1] [S2 W2 M2 F2]. constructor.
  - by rewrite S2.
  - intros p. by rewrite W2.
  - auto.
  - lia.
Qed.

Lemma poweredAt_powerOn_eq g r c nb :
  pieceAt g (r, c) = Some nb → poweredAt (powerOn g r c) (r, c) = true.
Proof. intros H. unfold poweredAt. by rewrite pieceAt_powerOn_eq, H. Qed.

Lemma poweredAt_powerOn_ne g r c p :
  p ≠ (r, c) → poweredAt (powerOn g r c) p = poweredAt g p.
Proof. intros H. unfold poweredAt. by rewrite pieceAt_powerOn_ne. Qed.

Lemma grows_powerOn g r c nb :
  pieceAt g (r, c) = Some nb → powered nb = false → grows g (powerOn g r c).
Proof.
  intros Hnb Hoff. constructor.
  - apply shape_powerOn.
  - intros p. unfold wiringAt. destruct (decide (p = (r, c))) as [->|Hne].
    + rewrite pieceAt_powerOn_eq, Hnb. done.
    + by rewrite pieceAt_powerOn_ne.
  - intros p Hp. destruct (decide (p = (r, c))) as [->|Hne].
    + by eapply poweredAt_powerOn_eq.
    + by rewrite poweredAt_powerOn_ne.
  - pose proof (unpowered_powerOn g r c nb Hnb Hoff). lia.
Qed.

Lemma sound_refl g : sound g g.
Proof. intros p Hp. exists p. split; [done | constructor]. Qed.

Lemma sound_trans g g1 g2 : grows g g1 → sound g g1 → sound g1 g2 → sound g g2.
Proof.
  intros Hg H1 H2 p Hp.
  destruct (H2 p Hp) as (x & Hx & Hxp). destruct (H1 x Hx) as (y & Hy & Hyx).
  exists y. split; [done|]. etrans; [exact Hyx|]. by eapply rtc_step_grows.
Qed.

Lemma sound_powerOn g p r c nb :
  pieceAt g (r, c) = Some nb → poweredAt g p = true → step g p (r, c) →
  sound g (powerOn g r c).
Proof.
  intros Hnb Hp Hstep x Hx. destruct (decide (x = (r, c))) as [->|Hne].
  - exists p. split; [done|]. by apply rtc_once.
  - rewrite poweredAt_powerOn_ne in Hx by done. exists x. split; [done | constructor].
Qed.

(** *** The depth-first propagation *)

(** What a call [propagatePower g p] achieves: more cells powered, each of
    them reached from a cell powered before, and [p] no longer an exception
    to closedness. *)
Definition Post (g : Grid) (p : Position) (g' : Grid) : Prop :=
  grows g g' ∧ sound g g' ∧
  ∀ S, closedExcept g (λ x, S x ∨ x = p) → closedExcept g' S.

Lemma post_unpowered g p : poweredAt g p = false → Post g p g.
Proof.
  intros Hoff. split_and!; [apply grows_refl | apply sound_refl |].
  intros S HS x y Hx Hnot Hxy. apply (HS x y); [done| |done].
  intros [?| ->]; [done | congruence].
Qed.

Lemma closed_drop g S p :
  closedExcept g (λ x, S x ∨ x = p) →
  (∀ q, step g p q → poweredAt g q = true) →
  closedExcept g S.
Proof.
  intros HS Hp x y Hx Hnot Hxy. destruct (decide (x = p)) as [->|Hne]; [by apply Hp|].
  apply (HS x y); [done| |done]. by intros [?|?].
Qed.

Section Flow.
Variables (rec : Grid → nat → nat → option Grid) (fuel : nat).
Hypothesis rec_spec : ∀ g r c,
  (unpowered g < fuel)%nat → ∃ g', rec g r c = Some g' ∧ Post g (r, c) g'.

Lemma flow_spec g p here inBounds there r' c' :
  (unpowered g < S fuel)%nat →
  poweredAt g p = true →
  (here && inBounds = true → ∀ cq,
     connAt g (r', c') = Some cq → there cq = true → step g p (r', c')) →
  ∃ g', flow rec here inBounds there g r' c' = Some g' ∧ grows g g' ∧ sound g g' ∧
    (∀ S, closedExcept g (λ x, S x ∨ x = p) → closedExcept g' (λ x, S x ∨ x = p)) ∧
    (here && inBounds = true → ∀ cq,
       connAt g (r', c') = Some cq → there cq = true → poweredAt g' (r', c') = true).
Proof.
  intros Hfuel Hp Hstep. unfold flow.
  change (getCell g r' c') with (pieceAt g (r', c')).
  destruct (here && inBounds) eqn:Hguard.
  2:{ exists g. split_and!; [done | apply grows_refl | apply sound_refl | done | done]. }
  destruct (pieceAt g (r', c')) as [nb|] eqn:Hnb.
  2:{ exists g. split_and!; [done | apply grows_refl | apply sound_refl | done |].
      intros _ cq Hcq. unfold connAt in Hcq. by rewrite Hnb in Hcq. }
  assert (Hconn : connAt g (r', c') = Some (connections nb))
    by (unfold connAt; by rewrite Hnb).
  destruct (there (connections nb)) eqn:Hthere; cbn [andb].
  2:{ exists g. split_and!; [done | apply grows_refl | apply sound_refl | done |].
      intros _ cq Hcq Hcq'. congruence. }
  destruct (powered nb) eqn:Hpow; cbn [negb].
  { exists g. split_and!; [done | apply grows_refl | apply sound_refl | done |].
    intros _ cq _ _. unfold poweredAt. by rewrite Hnb. }
  pose proof (grows_powerOn g r' c' nb Hnb Hpow) as Hon.
  destruct (rec_spec (powerOn g r' c') r' c') as (g' & Hrun & Hgrow & Hsound & Hclosed).
  { pose proof (unpowered_powerOn g r' c' nb Hnb Hpow). lia. }
  exists g'. split_and!.
  - done.
  - by eapply grows_trans.
  - eapply sound_trans; [exact Hon | | exact Hsound].
    eapply sound_powerOn; [exact Hnb | exact Hp | by eapply Hstep].
  - intros S HS. apply Hclosed. intros x y Hx Hnot Hxy.
    assert (Hne : x ≠ (r', c')) by (intros ->; apply Hnot; by right).
    rewrite poweredAt_powerOn_ne in Hx by done.
    apply (step_grows _ _ _ _ Hon) in Hxy.
    apply (grows_mono _ _ Hon). apply (HS x y); [done| |done].
    intros H. apply Hnot. by left.
  - intros _ cq _ _. apply (grows_mono _ _ Hgrow). by eapply poweredAt_powerOn_eq.
Qed.
End Flow.

Lemma connAt_grows g g' p : grows g g' → connAt g' p = connAt g p.
Proof. intros [_ W _ _]. by apply connAt_wiring. Qed.

Lemma guard_true (here inBounds : bool) :
  here && inBounds = true → here = true ∧ inBounds = true.
Proof. by destruct here, inBounds. Qed.

(** With more fuel than unpowered pieces the recursion finishes. *)
Lemma propagate_spec fuel : ∀ g r c,
  (unpowered g < fuel)%nat →
  ∃ g', propagatePower fuel g r c = Some g' ∧ Post g (r, c) g'.
Proof.
  induction fuel as [|fuel IH]; intros g r c Hfuel; [lia|].
  cbn [propagatePower]. change (getCell g r c) with (pieceAt g (r, c)).
  destruct (pieceAt g (r, c)) as [piece|] eqn:Hpiece.
  2:{ exists g. split; [done|]. apply post_unpowered. unfold poweredAt. by rewrite Hpiece. }
  destruct (powered piece) eqn:Hpow; cbn [negb].
  2:{ exists g. split; [done|]. apply post_unpowered. unfold poweredAt. by rewrite Hpiece. }
  set (p := (r, c)). set (k := connections piece).
  assert (Hp : poweredAt g p = true) by (unfold poweredAt, p; by rewrite Hpiece).
  assert (Hk : connAt g p = Some k) by (unfold connAt, p; by rewrite Hpiece).
  (* top *)
  destruct (flow_spec _ fuel IH g p (top k) (0 <? r)%nat bottom (r - 1)%nat c Hfuel Hp)
    as (g1 & E1 & G1 & S1 & C1 & N1).
  { intros [Hh Hb]%guard_true cq Hcq Hthere. apply Nat.ltb_lt in Hb.
    exists k, cq. split_and!; [done|done|]. left. done. }
  rewrite E1. cbn [mbind option_bind].
  pose proof (grows_shape _ _ G1) as Sh1.
  (* right *)
  destruct (flow_spec _ fuel IH g1 p (right k) (c <? cols g1 - 1)%nat left r (c + 1)%nat)
    as (g2 & E2 & G2 & S2 & C2 & N2).
  { pose proof (grows_fewer _ _ G1). lia. }
  { by apply (grows_mono _ _ G1). }
  { intros [Hh Hb]%guard_true cq Hcq Hthere. apply Nat.ltb_lt in Hb.
    exists k, cq. rewrite (connAt_grows _ _ p G1). split_and!; [done|done|].
    right; left. done. }
  rewrite E2. cbn [mbind option_bind].
  pose proof (grows_trans _ _ _ G1 G2) as G12.
  pose proof (grows_shape _ _ G12) as Sh2.
  (* bottom *)
  destruct (flow_spec _ fuel IH g2 p (bottom k) (r <? rows g2 - 1)%nat top (r + 1)%nat c)
    as (g3 & E3 & G3 & S3 & C3 & N3).
  { pose proof (grows_fewer _ _ G12). lia. }
  { by apply (grows_mono _ _ G12). }
  { intros [Hh Hb]%guard_true cq Hcq Hthere. apply Nat.ltb_lt in Hb.
    exists k, cq. rewrite (connAt_grows _ _ p G12). split_and!; [done|done|].
    right; right; left. done. }
  rewrite E3. cbn [mbind option_bind].
  pose proof (grows_trans _ _ _ G12 G3) as G13.
  (* left *)
  destruct (flow_spec _ fuel IH g3 p (left k) (0 <? c)%nat right r (c - 1)%nat)
    as (g4 & E4 & G4 & S4 & C4 & N4).
  { pose proof (grows_fewer _ _ G13). lia. }
  { by apply (grows_mono _ _ G13). }
  { intros [Hh Hb]%guard_true cq Hcq Hthere. apply Nat.ltb_lt in Hb.
    exists k, cq. rewrite (connAt_grows _ _ p G13). split_and!; [done|done|].
    right; right; right. done. }
  pose proof (grows_trans _ _ _ G13 G4) as G14.
  exists g4. split; [exact E4|]. split_and!.
  - exact G14.
  - eapply sound_trans; [exact G13 | | exact S4].
    eapply sound_trans; [exact G12 | | exact S3].
    eapply sound_trans; [exact G1 | exact S1 | exact S2].
  - intros S HS. apply (closed_drop _ _ p); [by apply C4, C3, C2, C1|].
    intros q Hq. apply (step_grows _ _ _ _ G14) in Hq.
    destruct Hq as (cp & cq & Hcp & Hcq & Hdir).
    assert (cp = k) as -> by congruence.
    destruct Hdir as [(Hh & Hb & -> & Hf)|[(Hh & Hb & -> & Hf)|[(Hh & Hb & -> & Hf)|(Hh & Hb & -> & Hf)]]];
      cbn [fst snd] in *.
    + apply (grows_mono _ _ G4), (grows_mono _ _ G3), (grows_mono _ _ G2).
      apply (N1 ltac:(rewrite Hh; by apply Nat.ltb_lt in Hb) cq); done.
    + apply (grows_mono _ _ G4), (grows_mono _ _ G3).
      apply (N2 ltac:(rewrite Hh, (shape_cols _ _ Sh1); by apply Nat.ltb_lt in Hb) cq);
        [by rewrite (connAt_grows _ _ _ G1) | done].
    + apply (grows_mono _ _ G4).
      apply (N3 ltac:(rewrite Hh, (shape_rows _ _ Sh2); by apply Nat.ltb_lt in Hb) cq);
        [by rewrite (connAt_grows _ _ _ G12) | done].
    + apply (N4 ltac:(rewrite Hh; by apply Nat.ltb_lt in Hb) cq);
        [by rewrite (connAt_grows _ _ _ G13) | done].
Qed.

(** *** From the code's index guards to grid adjacency *)

Lemma connAt_Some g p k :
  connAt g p = Some k ↔ ∃ piece, pieceAt g p = Some piece ∧ connections piece = k.
Proof.
  unfold connAt. destruct (pieceAt g p) as [piece|]; simpl; split.
  - intros [= <-]. eauto.
  - intros (? & [= <-] & <-). done.
  - done.
  - by intros (? & ? & _).
Qed.

Lemma pieceAt_in_row g r c piece :
  pieceAt g (r, c) = Some piece →
  ∃ row, g !! r = Some row ∧ (c < length row)%nat.
Proof.
  unfold pieceAt, getCell. simpl. destruct (g !! r) as [row|]; [|done].
  destruct (row !! c) eqn:Hc; [|done]. intros _. exists row. split; [done|].
  by eapply lookup_lt_Some.
Qed.

Lemma step_linked g p q : rectangular g → step g p q ↔ linked g p q.
Proof.
  intros Hrect. destruct p as [r c]. split.
  - intros (cp & cq & (pp & Hpp & <-)%connAt_Some & (qq & Hqq & <-)%connAt_Some & Hdir).
    cbn [fst snd] in Hdir.
    destruct Hdir as [(Hh & Hb & -> & Hf)|[(Hh & Hb & -> & Hf)|[(Hh & Hb & -> & Hf)|(Hh & Hb & -> & Hf)]]].
    + exists Top, pp, qq. destruct r as [|r]; [lia|].
      replace (S r - 1)%nat with r in * by lia. done.
    + exists Right, pp, qq. rewrite Nat.add_1_r in *. done.
    + exists Bottom, pp, qq. rewrite Nat.add_1_r in *. done.
    + exists Left, pp, qq. destruct c as [|c]; [lia|].
      replace (S c - 1)%nat with c in * by lia. done.
  - intros (d & pp & qq & Hn & Hpp & Hqq & Hd & Ho).
    exists (connections pp), (connections qq).
    split; [apply connAt_Some; eauto|]. split; [apply connAt_Some; eauto|].
    cbn [fst snd]. destruct d; simpl in Hn, Hd, Ho.
    + destruct r as [|r]; [done|]. injection Hn as <-. left.
      split_and!; [done | lia | f_equal; lia | done].
    + injection Hn as <-. right; left.
      apply pieceAt_in_row in Hqq as (row & Hrow & Hlt).
      rewrite (Forall_lookup_1 _ _ _ _ Hrect Hrow) in Hlt.
      split_and!; [done | lia | by rewrite Nat.add_1_r | done].
    + injection Hn as <-. right; right; left.
      apply pieceAt_in_row in Hqq as (row & Hrow%lookup_lt_Some & _). unfold rows.
      split_and!; [done | lia | by rewrite Nat.add_1_r | done].
    + destruct c as [|c]; [done|]. injection Hn as <-. right; right; right.
      split_and!; [done | lia | f_equal; lia | done].
Qed.

Lemma rtc_step_linked g x y : rectangular g → rtc (step g) x y ↔ reachable g x y.
Proof.
  intros Hrect. unfold reachable.
  split; induction 1 as [|a b c Hab _ IH]; try constructor;
    (eapply rtc_l; [|exact IH]); by apply (step_linked g a b Hrect).
Qed.

(** *** The reset that opens [updatePowerFlow] *)

Definition resetPiece (piece : CircuitPiece) : CircuitPiece :=
  if isSource (type piece) then piece else setPowered false piece.

Lemma pieceAt_resetPower g p : pieceAt (resetPower g) p = resetPiece <$> pieceAt g p.
Proof.
  destruct p as [r c]. unfold pieceAt, getCell, resetPower. cbn [fst snd].
  rewrite list_lookup_fmap. destruct (g !! r) as [row|]; [|done].
  cbn [fmap option_fmap option_map]. rewrite list_lookup_fmap.
  by destruct (row !! c) as [[?|]|].
Qed.

Lemma shape_resetPower g : length <$> resetPower g = length <$> g.
Proof.
  unfold resetPower. rewrite <-list_fmap_compose. apply list_fmap_ext.
  intros i row _. simpl. apply length_fmap.
Qed.

Lemma wiringAt_resetPower g p : wiringAt (resetPower g) p = wiringAt g p.
Proof.
  unfold wiringAt. rewrite pieceAt_resetPower.
  destruct (pieceAt g p) as [piece|]; [|done]. simpl. f_equal.
  unfold resetPiece. by destruct (isSource (type piece)).
Qed.

Lemma step_same g g' p q :
  length <$> g' = length <$> g → (∀ x, wiringAt g' x = wiringAt g x) →
  step g' p q ↔ step g p q.
Proof.
  intros Hshape Hwire. unfold step.
  rewrite (shape_rows _ _ Hshape), (shape_cols _ _ Hshape).
  by rewrite !(connAt_wiring g g') by done.
Qed.

Lemma rtc_step_same g g' x y :
  length <$> g' = length <$> g → (∀ x, wiringAt g' x = wiringAt g x) →
  rtc (step g') x y ↔ rtc (step g) x y.
Proof.
  intros Hshape Hwire.
  split; induction 1 as [|a b c Hab _ IH]; try constructor;
    (eapply rtc_l; [|exact IH]); by apply (step_same g g' a b).
Qed.

Lemma wiringAt_type g g' p piece' :
  wiringAt g' p = wiringAt g p → pieceAt g' p = Some piece' →
  ∃ piece, pieceAt g p = Some piece ∧ type piece = type piece'.
Proof.
  unfold wiringAt. intros H Hp. rewrite Hp in H.
  destruct (pieceAt g p) as [piece|]; [|done]. exists piece. split; [done|].
  simpl in H. by simplify_eq.
Qed.

(** The assumptions on the source cell that generation establishes. *)
Definition sourceAt (g : Grid) (src : Position) : Prop :=
  (∃ sp, pieceAt g src = Some sp ∧ type sp = source ∧ powered sp = true)
  ∧ ∀ p piece, pieceAt g p = Some piece → type piece = source → p = src.

Lemma reset_only_source g src p :
  sourceAt g src → poweredAt (resetPower g) p = true ↔ p = src.
Proof.
  intros [(sp & Hsp & Hty & Hon) Huniq]. unfold poweredAt. rewrite pieceAt_resetPower.
  split.
  - destruct (pieceAt g p) as [piece|] eqn:Hp; [|done]. simpl. unfold resetPiece.
    destruct (isSource (type piece)) eqn:Hs; [|done]. intros _.
    apply (Huniq p piece Hp). by destruct (type piece).
  - intros ->. rewrite Hsp. simpl. unfold resetPiece. by rewrite Hty.
Qed.

(** One recomputation, in terms of the code's own edge test. *)
Lemma updatePowerFlow_step g src :
  sourceAt g src →
  ∃ g', updatePowerFlow g src = Some g'
    ∧ length <$> g' = length <$> g
    ∧ (∀ p, wiringAt g' p = wiringAt g p)
    ∧ (∀ p, poweredAt g' p = true ↔ rtc (step g) src p).
Proof.
  intros Hsrc. unfold updatePowerFlow.
  pose proof (shape_resetPower g) as Hshape0.
  destruct (propagate_spec (S (cellCount g)) (resetPower g) (fst src) (snd src))
    as (g' & Hrun & Hgrow & Hsound & Hclosed).
  { pose proof (unpowered_le_cellCount (resetPower g)).
    rewrite (shape_cellCount _ _ Hshape0) in *. lia. }
  assert (Hpair : (fst src, snd src) = src) by (by destruct src).
  rewrite Hpair in Hclosed.
  exists g'. split; [exact Hrun|].
  assert (Hshape : length <$> g' = length <$> g)
    by (by rewrite (grows_shape _ _ Hgrow)).
  assert (Hwire : ∀ p, wiringAt g' p = wiringAt g p)
    by (intros p; by rewrite (grows_wiring _ _ Hgrow), wiringAt_resetPower).
  split_and!; [done | done |]. intros p. split.
  - intros Hp. destruct (Hsound p Hp) as (x & Hx & Hreach).
    apply (reset_only_source g src x Hsrc) in Hx. subst x.
    apply (rtc_step_same g (resetPower g)) in Hreach;
      [done | done | apply wiringAt_resetPower].
  - intros Hreach. apply (rtc_step_same g g') in Hreach; [|done|done].
    assert (Hall : closedExcept g' (λ _, False)).
    { apply Hclosed. intros x y Hx Hnot _.
      apply (reset_only_source g src x Hsrc) in Hx. exfalso. apply Hnot. by right. }
    revert p Hreach. apply (rtc_ind_r (λ p, poweredAt g' p = true)).
    + apply (grows_mono _ _ Hgrow). by apply (reset_only_source g src src Hsrc).
    + intros y z _ Hyz Hy. apply (Hall y z); [done | tauto | done].
Qed.

(** C2 — For a rectangular grid whose source cell holds the (powered)
    source piece, the only piece of that type, a power-flow recomputation
    returns a grid that differs from the given one in [powered] flags only,
    in which a cell is powered exactly when it is reachable from the source
    through adjacent cells that expose connections toward each other (so
    the source itself is powered); being a function of the grid the result
    is determined by it, and recomputing on the result gives the same
    powered cells again. *)
Theorem updatePowerFlow_reachable (g : Grid) (src : Position) :
  rectangular g →
  (∃ sp, pieceAt g src = Some sp ∧ type sp = source ∧ powered sp = true) →
  (∀ p piece, pieceAt g p = Some piece → type piece = source → p = src) →
  ∃ g', updatePowerFlow g src = Some g'
    ∧ (∀ p, setPowered false <$> pieceAt g' p = setPowered false <$> pieceAt g p)
    ∧ (∀ p, poweredAt g' p = true ↔ reachable g src p)
    ∧ poweredAt g' src = true
    ∧ ∃ g'', updatePowerFlow g' src = Some g''
        ∧ ∀ p, poweredAt g'' p = poweredAt g' p.
Proof.
  intros Hrect Hsp Huniq.
  assert (Hsrc : sourceAt g src) by (by split).
  destruct (updatePowerFlow_step g src Hsrc) as (g' & Hrun & Hshape & Hwire & Hpow).
  assert (Hon : poweredAt g' src = true) by (apply Hpow; constructor).
  exists g'. split_and!; [done | exact Hwire | | done |].
  - intros p. rewrite Hpow. by apply rtc_step_linked.
  - assert (Hsrc' : sourceAt g' src).
    { split.
      - unfold poweredAt in Hon. destruct (pieceAt g' src) as [sp'|] eqn:Hsp'; [|done].
        exists sp'. split_and!; [done| |done].
        destruct (wiringAt_type g g' src sp' (Hwire src) Hsp') as (sp0 & Hsp0 & <-).
        destruct Hsp as (sp & Hsp & Hty & _). congruence.
      - intros p piece' Hp Hty.
        destruct (wiringAt_type g g' p piece' (Hwire p) Hp) as (piece & Hpiece & Hty').
        apply (Huniq p piece Hpiece). congruence. }
    destruct (updatePowerFlow_step g' src Hsrc') as (g'' & Hrun' & _ & _ & Hpow').
    exists g''. split; [done|]. intros p.
    apply eq_true_iff_eq. rewrite Hpow', Hpow. by apply rtc_step_same.
Qed.

(** A row of three cells: source, a horizontal straight piece, destination. *)
Lemma updatePowerFlow_reachable_witness :
  ∃ g', updatePowerFlow
          [[Some (createPiece source 0); Some (createPiece straight 90);
            Some (createPiece destination 0)]] (0%nat, 0%nat) = Some g'
        ∧ poweredAt g' (0%nat, 0%nat) = true.
Proof.
  destruct (updatePowerFlow_reachable
              [[Some (createPiece source 0); Some (createPiece straight 90);
                Some (createPiece destination 0)]] (0%nat, 0%nat))
    as (g' & Hrun & _ & _ & Hon & _).
  - repeat constructor.
  - eexists. split_and!; reflexivity.
  - intros [[|r] [|[|[|c]]]] piece; try destruct r; cbn; intros Hp Hty; by simplify_eq.
  - exists g'. by split.
Defined.

(** *** Rotation by clicks *)

(** The data-model invariant of a piece: a quarter-turn rotation, and the
    connections of its type turned by it. *)
Definition wellFormed (piece : CircuitPiece) : Prop :=
  rotation piece ∈ rotations
  ∧ connections piece = rotateConnections (pieceDefs (type piece)) (rotation piece).

Lemma createPiece_wellFormed t r : r ∈ rotations → wellFormed (createPiece t r).
Proof. by split. Qed.

Lemma rotations_cases r : r ∈ rotations → r = 0 ∨ r = 90 ∨ r = 180 ∨ r = 270.
Proof. unfold rotations. set_solver. Qed.

Lemma rotatePiece_setPowered b piece :
  rotatePiece (setPowered b piece) = setPowered b (rotatePiece piece).
Proof. done. Qed.

Lemma rotatePiece_wellFormed piece : wellFormed piece → wellFormed (rotatePiece piece).
Proof.
  intros [Hrot _]. split; [|done]. simpl.
  apply rotations_cases in Hrot as [-> | [-> | [-> | ->]]]; vm_compute; set_solver.
Qed.

Lemma rotatePiece_four piece :
  wellFormed piece →
  rotation (rotatePiece (rotatePiece (rotatePiece (rotatePiece piece)))) = rotation piece
  ∧ connections (rotatePiece (rotatePiece (rotatePiece (rotatePiece piece))))
    = connections piece.
Proof.
  intros [Hrot Hconn]. rewrite Hconn. simpl.
  apply rotations_cases in Hrot as [-> | [-> | [-> | ->]]]; by vm_compute.
Qed.

(** A quarter turn of the connections is a cyclic shift, whatever they are. *)
Lemma rotateOnce_four c : rotateOnce (rotateOnce (rotateOnce (rotateOnce c))) = c.
Proof. by destruct c. Qed.

Lemma updatePowerFlow_total g src :
  ∃ g', updatePowerFlow g src = Some g' ∧ ∀ p, wiringAt g' p = wiringAt g p.
Proof.
  unfold updatePowerFlow.
  destruct (propagate_spec (S (cellCount g)) (resetPower g) (fst src) (snd src))
    as (g' & Hrun & Hgrow & _).
  { pose proof (unpowered_le_cellCount (resetPower g)).
    rewrite (shape_cellCount _ _ (shape_resetPower g)) in *. lia. }
  exists g'. split; [done|]. intros p.
  by rewrite (grows_wiring _ _ Hgrow), wiringAt_resetPower.
Qed.

Lemma wiringAt_Some g g' p x :
  wiringAt g' p = wiringAt g p → pieceAt g p = Some x →
  ∃ b, pieceAt g' p = Some (setPowered b x).
Proof.
  unfold wiringAt. intros H Hx. rewrite Hx in H.
  destruct (pieceAt g' p) as [y|]; [|done]. exists (powered y).
  destruct x, y. simpl in *. by simplify_eq.
Qed.

Lemma pieceAt_setCell_eq g r c x piece :
  pieceAt g (r, c) = Some piece → pieceAt (setCell g r c x) (r, c) = Some x.
Proof.
  unfold pieceAt, setCell, getCell. cbn [fst snd]. rewrite list_lookup_alter_eq.
  destruct (g !! r) as [row|]; [|done]. cbn [fmap option_fmap option_map].
  destruct (row !! c) eqn:Hc; [|done]. intros _.
  by rewrite list_lookup_insert_eq by (by eapply lookup_lt_Some).
Qed.

Lemma pieceAt_setCell_ne g r c x p :
  p ≠ (r, c) → pieceAt (setCell g r c x) p = pieceAt g p.
Proof.
  destruct p as [r' c']. intros Hne. unfold pieceAt, setCell, getCell. cbn [fst snd].
  destruct (decide (r = r')) as [->|Hr].
  - rewrite list_lookup_alter_eq. destruct (g !! r') as [row|]; [|done].
    cbn [fmap option_fmap option_map].
    rewrite list_lookup_insert_ne by congruence. done.
  - by rewrite list_lookup_alter_ne.
Qed.

(** One accepted click: the call returns, the clicked cell holds the
    turned piece (its [powered] flag recomputed), and the destination cell
    stays occupied. *)
Lemma click_spec row col s piece :
  gameState s = playing →
  pieceAt (grid s) (row, col) = Some piece → fixed piece = false →
  is_Some (pieceAt (grid s) (destinationPosition s)) →
  ∃ s1 b, handlePieceClick row col s = Some s1
    ∧ pieceAt (grid s1) (row, col) = Some (setPowered b (rotatePiece piece))
    ∧ destinationPosition s1 = destinationPosition s
    ∧ is_Some (pieceAt (grid s1) (destinationPosition s1)).
Proof.
  intros Hplay Hpiece Hfree Hdest. unfold handlePieceClick.
  rewrite Hplay. cbn [isPlaying negb].
  change (getCell (grid s) row col) with (pieceAt (grid s) (row, col)).
  rewrite Hpiece, Hfree.
  set (g1 := setCell (grid s) row col (rotatePiece piece)).
  destruct (updatePowerFlow_total g1 (sourcePosition s)) as (g2 & Hrun & Hwire).
  rewrite Hrun. cbn [mbind option_bind]. unfold checkWinCondition. cbn [grid destinationPosition].
  change (getCell g2 (fst (destinationPosition s)) (snd (destinationPosition s)))
    with (pieceAt g2 (fst (destinationPosition s), snd (destinationPosition s))).
  rewrite <-surjective_pairing.
  assert (Hcell : pieceAt g1 (row, col) = Some (rotatePiece piece))
    by (by eapply pieceAt_setCell_eq).
  destruct (wiringAt_Some _ _ _ _ (Hwire (row, col)) Hcell) as (b & Hb).
  assert (Hdest1 : is_Some (pieceAt g1 (destinationPosition s))).
  { destruct (decide (destinationPosition s = (row, col))) as [->|Hne].
    - by rewrite Hcell.
    - unfold g1. by rewrite pieceAt_setCell_ne. }
  destruct Hdest1 as (d1 & Hd1).
  destruct (wiringAt_Some _ _ _ _ (Hwire (destinationPosition s)) Hd1) as (bd & Hd2).
  rewrite Hd2. eexists _, b. split; [reflexivity|].
  by destruct (powered (setPowered bd d1)); cbn; rewrite ?Hd2.
Qed.

(** C7 — While the game is in the playing state, a click on a non-fixed
    piece returns with the piece's rotation set to (rotation + 90) mod 360
    and its connections recomputed from its type and the new rotation
    alone, which turns them a quarter: the new top is the old left, the
    new right the old top, the new bottom the old right and the new left
    the old bottom.  If the three clicks after it are also taken in the
    playing state, the fourth leaves the piece with the rotation and the
    connections it had before the first. *)
Theorem four_clicks_restore (row col : nat) (s : Game) (piece : CircuitPiece) :
  gameState s = playing →
  pieceAt (grid s) (row, col) = Some piece → fixed piece = false →
  wellFormed piece →
  is_Some (pieceAt (grid s) (destinationPosition s)) →
  ∃ s1 p1, handlePieceClick row col s = Some s1
    ∧ pieceAt (grid s1) (row, col) = Some p1
    ∧ type p1 = type piece
    ∧ rotation p1 = (rotation piece + 90) `mod` 360
    ∧ connections p1 = rotateConnections (pieceDefs (type piece)) (rotation p1)
    ∧ connections p1
      = mkConnections (left (connections piece)) (top (connections piece))
                      (right (connections piece)) (bottom (connections piece))
    ∧ (gameState s1 = playing →
       ∃ s2, handlePieceClick row col s1 = Some s2 ∧ (gameState s2 = playing →
       ∃ s3, handlePieceClick row col s2 = Some s3 ∧ (gameState s3 = playing →
       ∃ s4 p4, handlePieceClick row col s3 = Some s4
         ∧ pieceAt (grid s4) (row, col) = Some p4
         ∧ rotation p4 = rotation piece
         ∧ connections p4 = connections piece))).
Proof.
  intros Hplay Hpiece Hfree Hwf Hdest.
  destruct (click_spec row col s piece Hplay Hpiece Hfree Hdest)
    as (s1 & b1 & Hrun1 & Hp1 & Hd1 & Hdest1).
  exists s1, (setPowered b1 (rotatePiece piece)). split_and!; try done.
  { simpl. destruct Hwf as [Hrot _].
    apply rotations_cases in Hrot as [-> | [-> | [-> | ->]]]; by vm_compute. }
  { destruct Hwf as [Hrot Hconn]. rewrite Hconn. cbn [connections setPowered rotatePiece].
    destruct (pieceDefs (type piece)) as [t r b l].
    apply rotations_cases in Hrot as [-> | [-> | [-> | ->]]]; by vm_compute. }
  intros Hplay1.
  destruct (click_spec row col s1 _ Hplay1 Hp1 Hfree Hdest1)
    as (s2 & b2 & Hrun2 & Hp2 & Hd2 & Hdest2).
  exists s2. split; [done|]. intros Hplay2.
  destruct (click_spec row col s2 _ Hplay2 Hp2 Hfree Hdest2)
    as (s3 & b3 & Hrun3 & Hp3 & Hd3 & Hdest3).
  exists s3. split; [done|]. intros Hplay3.
  destruct (click_spec row col s3 _ Hplay3 Hp3 Hfree Hdest3)
    as (s4 & b4 & Hrun4 & Hp4 & _).
  eexists s4, _. split_and!; [done | exact Hp4 | |].
  - cbn [rotation setPowered rotatePiece]. apply (rotatePiece_four piece Hwf).
  - cbn [connections setPowered rotatePiece type].
    apply (rotatePiece_four piece Hwf).
Qed.

(** A one-row board: source, straight piece, empty piece, destination; the
    straight piece is clicked four times. *)
Definition demoBoard : Game :=
  mkGame playing 30000
    [[Some (createPiece source 0); Some (createPiece straight 90);
      Some (createPiece empty 0); Some (createPiece destination 0)]]
    (start 0 (new 0 30000, mkHost ∅ 1))
    (0%nat, 0%nat) (0%nat, 3%nat) [].

Lemma four_clicks_restore_witness :
  ∃ s1 s2 s3 s4 p4,
    handlePieceClick 0 1 demoBoard = Some s1
    ∧ handlePieceClick 0 1 s1 = Some s2
    ∧ handlePieceClick 0 1 s2 = Some s3
    ∧ handlePieceClick 0 1 s3 = Some s4
    ∧ pieceAt (grid s4) (0%nat, 1%nat) = Some p4
    ∧ rotation p4 = 90
    ∧ connections p4 = mkConnections false true false true.
Proof.
  destruct (four_clicks_restore 0 1 demoBoard (createPiece straight 90))
    as (s1 & p1 & H1 & _ & _ & _ & _ & _ & Hnext);
    [reflexivity | reflexivity | reflexivity
     | apply createPiece_wellFormed; set_solver | by eexists |].
  assert (E1 : gameState s1 = playing) by (vm_compute in H1; by simplify_eq).
  destruct (Hnext E1) as (s2 & H2 & Hnext2).
  assert (E2 : gameState s2 = playing)
    by (vm_compute in H1; simplify_eq; vm_compute in H2; by simplify_eq).
  destruct (Hnext2 E2) as (s3 & H3 & Hnext3).
  assert (E3 : gameState s3 = playing)
    by (vm_compute in H1; simplify_eq; vm_compute in H2; simplify_eq;
        vm_compute in H3; by simplify_eq).
  destruct (Hnext3 E3) as (s4 & p4 & H4 & Hp4 & Hr4 & Hc4).
  exists s1, s2, s3, s4, p4. split_and!; done.
Defined.

(** *** Generation: where the endpoints point *)

(** C1 — On a generated 3x3 board with the vertical orientation drawn
    (source in row 0, destination in row 2), both fixed endpoints expose
    exactly one connection, and for both it is the bottom one: the source
    points into the grid, the destination points at the edge below it and
    has no top connection. *)
Theorem vertical_destination_points_outward :
  ∃ g,
    initializeGame 3 [2 ^ 52; 0; 0; 0; 2 ^ 51; 2 ^ 52; 5; 2 ^ 53 - 1; 2 ^ 50;
                      7; 2 ^ 52; 2 ^ 51; 3; 2 ^ 53 - 1; 11; 2 ^ 52; 2 ^ 50]
      = Some (g, (0%nat, 0%nat), (2%nat, 0%nat), [])
    ∧ pieceAt g (0%nat, 0%nat)
      = Some (mkPiece source 90 (mkConnections false false true false) true true)
    ∧ pieceAt g (2%nat, 0%nat)
      = Some (mkPiece destination 270 (mkConnections false false true false) false true).
Proof. eexists. split; [vm_compute; reflexivity|]. by split. Qed.

End CircuitFacts.

(** ** Circuit Solver: what generation establishes *)

Module GenerationFacts.
Import Utils CircuitSolver RandFacts CircuitFacts.

(** A grid of [size] rows of [size] cells. *)
Definition square (size : nat) (g : Grid) : Prop :=
  length <$> g = replicate size size.

Definition inGrid (size : nat) (p : Position) : Prop :=
  (fst p < size)%nat ∧ (snd p < size)%nat.

(** The array slot itself: [None] outside the grid, [Some None] for a
    [null] cell. *)
Definition slotAt (g : Grid) (p : Position) : option (option CircuitPiece) :=
  g !! fst p ≫= λ r, r !! snd p.

Lemma pieceAt_slotAt g p : pieceAt g p = mjoin (slotAt g p).
Proof.
  unfold pieceAt, getCell, slotAt. destruct (g !! fst p) as [r|]; [|done]. simpl.
  by destruct (r !! snd p).
Qed.

Lemma square_row size g r row :
  square size g → g !! r = Some row → (r < size)%nat ∧ length row = size.
Proof.
  unfold square. intros Hsq Hrow.
  assert (Hl : (length <$> g) !! r = Some (length row)) by (by rewrite list_lookup_fmap, Hrow).
  rewrite Hsq in Hl. apply lookup_replicate in Hl as [-> ?]. done.
Qed.

Lemma square_rows size g : square size g → length g = size.
Proof.
  unfold square. intros H. by rewrite <-(length_fmap length g), H, length_replicate.
Qed.

Lemma square_slot size g p : square size g → inGrid size p ↔ is_Some (slotAt g p).
Proof.
  intros Hsq. destruct p as [r c]. unfold inGrid, slotAt. simpl. split.
  - intros [Hr Hc]. destruct (lookup_lt_is_Some_2 g r) as [row Hrow];
      [by rewrite (square_rows _ _ Hsq)|].
    rewrite Hrow. simpl. apply lookup_lt_is_Some_2.
    by rewrite (proj2 (square_row _ _ _ _ Hsq Hrow)).
  - destruct (g !! r) as [row|] eqn:Hrow; simpl; [|by intros [? ?]].
    intros Hc%lookup_lt_is_Some_1. destruct (square_row _ _ _ _ Hsq Hrow) as [? <-]. done.
Qed.

Lemma square_rectangular size g : square size g → rectangular g.
Proof.
  intros Hsq. unfold rectangular. apply Forall_lookup. intros r row Hrow.
  destruct (square_row _ _ _ _ Hsq Hrow) as [_ ->].
  destruct g as [|row0 g]; [done|]. simpl.
  by destruct (square_row _ _ 0%nat row0 Hsq eq_refl) as [_ ->].
Qed.

Lemma square_createGrid size : square size (createGrid size size None).
Proof. unfold square, createGrid. by rewrite fmap_replicate, length_replicate. Qed.

Lemma slotAt_createGrid size p :
  inGrid size p → slotAt (createGrid size size None) p = Some None.
Proof.
  intros [Hr Hc]. unfold slotAt, createGrid.
  rewrite lookup_replicate_2 by done. simpl. by rewrite lookup_replicate_2.
Qed.

Lemma shape_setCell g r c x : length <$> setCell g r c x = length <$> g.
Proof.
  unfold setCell. apply list_eq. intros i. rewrite !list_lookup_fmap.
  destruct (decide (r = i)) as [->|Hr].
  - rewrite list_lookup_alter_eq. destruct (g !! i); [|done].
    cbn [fmap option_fmap option_map]. by rewrite length_insert.
  - by rewrite list_lookup_alter_ne.
Qed.

Lemma slotAt_setCell_eq g r c x :
  is_Some (slotAt g (r, c)) → slotAt (setCell g r c x) (r, c) = Some (Some x).
Proof.
  unfold slotAt, setCell. cbn [fst snd]. rewrite list_lookup_alter_eq.
  destruct (g !! r) as [row|]; simpl; [|by intros [? ?]].
  intros Hc%lookup_lt_is_Some_1. by rewrite list_lookup_insert_eq.
Qed.

Lemma slotAt_setCell_ne g r c x p :
  p ≠ (r, c) → slotAt (setCell g r c x) p = slotAt g p.
Proof.
  destruct p as [r' c']. intros Hne. unfold slotAt, setCell. cbn [fst snd].
  destruct (decide (r = r')) as [->|Hr].
  - rewrite list_lookup_alter_eq. destruct (g !! r') as [row|]; [|done]. simpl.
    rewrite list_lookup_insert_ne by congruence. done.
  - by rewrite list_lookup_alter_ne.
Qed.

(** *** Placing the endpoints *)

(** The two ways [placeSourceAndDestination] can come out. *)
Definition placed (size : nat) (src dst : Position) (S D : CircuitPiece) : Prop :=
  (snd src = 0%nat ∧ dst = (fst src, (size - 1)%nat)
   ∧ S = createPiece source 0 ∧ D = createPiece destination 0)
  ∨ (fst src = 0%nat ∧ dst = ((size - 1)%nat, snd src)
     ∧ S = createPiece source 90 ∧ D = createPiece destination 270).

Lemma place_spec size ds g src dst ds' :
  (1 ≤ size)%nat →
  placeSourceAndDestination size (createGrid size size None) ds = Some (g, src, dst, ds') →
  inGrid size src ∧ inGrid size dst
  ∧ ∃ S D, placed size src dst S D
      ∧ g = setCell (setCell (createGrid size size None) (fst src) (snd src) S)
                    (fst dst) (snd dst) D.
Proof.
  intros Hsize. unfold placeSourceAndDestination. unfold bind at 1.
  destruct (randomBelowHalf ds) as [[b ds1]|]; [|done].
  destruct b; unfold bind;
    destruct (getRandomInt 0 (Z.of_nat size - 1) ds1) as [[i ds2]|] eqn:Hdraw; try done;
    apply getRandomInt_range in Hdraw; try lia;
    intros [= <- <- <- <-]; unfold inGrid; cbn [fst snd];
    (split_and!; [lia | lia | lia | lia |]); eexists _, _; (split; [|reflexivity]).
  - left. by split_and!.
  - right. by split_and!.
Qed.

(** What the grid holds once the endpoints are placed, on a board of at
    least two rows. *)
Lemma placed_cells size src dst S D p :
  (2 ≤ size)%nat → inGrid size src → inGrid size dst → placed size src dst S D →
  let g := setCell (setCell (createGrid size size None) (fst src) (snd src) S)
                   (fst dst) (snd dst) D in
  src ≠ dst
  ∧ slotAt g src = Some (Some S) ∧ slotAt g dst = Some (Some D)
  ∧ (inGrid size p → p ≠ src → p ≠ dst → slotAt g p = Some None).
Proof.
  intros Hsize Hsrc Hdst Hplaced g. subst g.
  destruct src as [sr sc], dst as [dr dc]. cbn [fst snd].
  assert (Hne : (sr, sc) ≠ (dr, dc)).
  { destruct Hplaced as [(? & ? & _)|(? & ? & _)]; simpl in *; simplify_eq;
      intros Heq; injection Heq; intros; lia. }
  assert (Hsq : square size (createGrid size size None)) by apply square_createGrid.
  assert (Hsq1 : square size (setCell (createGrid size size None) sr sc S))
    by (unfold square; by rewrite shape_setCell).
  split_and!; [done| | |].
  - rewrite slotAt_setCell_ne by done.
    apply slotAt_setCell_eq. by apply (square_slot size).
  - apply slotAt_setCell_eq. by apply (square_slot size).
  - intros Hp Hps Hpd. rewrite !slotAt_setCell_ne by done.
    by apply slotAt_createGrid.
Qed.

(** *** Carving the path *)

(** [g'] is [g] with some cells that held no fixed piece overwritten by
    path pieces. *)
Definition carved (g g' : Grid) : Prop :=
  length <$> g' = length <$> g
  ∧ ∀ p, slotAt g' p = slotAt g p
         ∨ (isFixedCell g p = false ∧ ∃ d, slotAt g' p = Some (Some (pathPiece d))).

Lemma isFixedCell_slotAt g g' p : slotAt g' p = slotAt g p → isFixedCell g' p = isFixedCell g p.
Proof.
  intros H. unfold isFixedCell.
  change (getCell g' (fst p) (snd p)) with (pieceAt g' (fst p, snd p)).
  change (getCell g (fst p) (snd p)) with (pieceAt g (fst p, snd p)).
  rewrite <-!surjective_pairing, !pieceAt_slotAt, H. done.
Qed.

Lemma carved_refl g : carved g g.
Proof. split; [done|]. intros p. by left. Qed.

Lemma carved_trans g g1 g2 : carved g g1 → carved g1 g2 → carved g g2.
Proof.
  intros [Hs1 H1] [Hs2 H2]. split; [by rewrite Hs2|]. intros p.
  destruct (H2 p) as [E2|[Hfree2 [d Hd]]], (H1 p) as [E1|[Hfree1 [d1 Hd1]]].
  - left. by rewrite E2.
  - right. split; [done|]. exists d1. by rewrite E2.
  - right. split; [|by exists d]. by rewrite <-(isFixedCell_slotAt g g1 p).
  - right. split; [done | by exists d].
Qed.

Lemma carved_setCell g cur d :
  isFixedCell g cur = false → carved g (setCell g (fst cur) (snd cur) (pathPiece d)).
Proof.
  intros Hfree. split; [apply shape_setCell|]. intros p.
  destruct (decide (p = cur)) as [->|Hne].
  - destruct (slotAt g cur) as [cell|] eqn:Hslot.
    + right. split; [done|]. exists d. rewrite (surjective_pairing cur) at 3.
      apply slotAt_setCell_eq. rewrite <-surjective_pairing. by rewrite Hslot.
    + left. unfold slotAt, setCell in *. rewrite list_lookup_alter_eq.
      destruct (g !! fst cur) as [row|] eqn:Hrow; simpl in *; [|done].
      rewrite list_insert_ge; [done|]. by apply lookup_ge_None.
  - left. apply slotAt_setCell_ne. by destruct cur.
Qed.

Lemma carve_spec fuel : ∀ g v cur tgt ds g' ds',
  carve fuel g v cur tgt ds = Some (g', ds') → carved g g'.
Proof.
  induction fuel as [|fuel IH]; intros g v cur tgt ds g' ds'; cbn [carve];
    destruct (bool_decide (cur = tgt)); try (intros [= <- <-]; apply carved_refl);
    try done.
  set (moves := if bool_decide (movesToward v cur tgt = []) then movesAny g v cur
                else movesToward v cur tgt).
  destruct moves as [|m0 rest]; [intros [= <- <-]; apply carved_refl|].
  unfold bind. destruct (getRandomInt _ _ ds) as [[i ds1]|]; [|done].
  destruct (default m0 ((m0 :: rest) !! Z.to_nat i)) as [next d].
  intros Hrun%IH. eapply carved_trans; [|exact Hrun].
  destruct (isFixedCell g cur) eqn:Hfix; [apply carved_refl | by apply carved_setCell].
Qed.

(** *** Filling and turning the cells *)

Lemma mapM_lookup {A B} (f : A → Rand B) : ∀ l ds l' ds',
  mapM f l ds = Some (l', ds') →
  length l' = length l
  ∧ ∀ i a, l !! i = Some a → ∃ b dsa dsb, l' !! i = Some b ∧ f a dsa = Some (b, dsb).
Proof.
  induction l as [|x l IH]; intros ds l' ds'; cbn [mapM].
  - intros [= <- <-]. split; [done|]. intros i a Hi. done.
  - unfold bind at 1. destruct (f x ds) as [[b ds1]|] eqn:Hx; [|done].
    unfold bind at 1. destruct (mapM f l ds1) as [[bs ds2]|] eqn:Hl; [|done].
    intros [= <- <-]. destruct (IH _ _ _ Hl) as [Hlen Hall]. split; [simpl; lia|].
    intros [|i] a Hi; simplify_eq/=; [by eexists _, _, _ | by apply Hall].
Qed.

Lemma mapM2_slot (f : option CircuitPiece → Rand (option CircuitPiece)) g ds g' ds' :
  mapM (mapM f) g ds = Some (g', ds') →
  length <$> g' = length <$> g
  ∧ ∀ p cell, slotAt g p = Some cell →
      ∃ cell' dsa dsb, slotAt g' p = Some cell' ∧ f cell dsa = Some (cell', dsb).
Proof.
  intros Hrun. destruct (mapM_lookup _ _ _ _ _ Hrun) as [Hlen Hrows]. split.
  - apply list_eq. intros i. rewrite !list_lookup_fmap.
    destruct (g !! i) as [row|] eqn:Hrow.
    + destruct (Hrows i row Hrow) as (row' & dsa & dsb & -> & Hrow').
      simpl. f_equal. by apply mapM_lookup in Hrow' as [-> _].
    + assert (g' !! i = None) as ->; [|done].
      apply lookup_ge_None. rewrite Hlen. by apply lookup_ge_None.
  - intros [r c] cell. unfold slotAt. cbn [fst snd].
    destruct (g !! r) as [row|] eqn:Hrow; [|done]. simpl. intros Hcell.
    destruct (Hrows r row Hrow) as (row' & dsa & dsb & -> & Hrow'). simpl.
    apply mapM_lookup in Hrow' as [_ Hcells]. by apply Hcells.
Qed.

Lemma fillCell_spec cell ds cell' ds' :
  fillCell cell ds = Some (cell', ds') →
  match cell with
  | Some piece => cell' = Some piece
  | None => ∃ t, t ∈ pieceTypes ∧ cell' = Some (createPiece t 0)
  end.
Proof.
  destruct cell as [piece|]; cbn [fillCell].
  - by intros [= <- <-].
  - unfold bind. destruct (getRandomInt _ _ ds) as [[i ds1]|] eqn:Hdraw; [|done].
    apply getRandomInt_range in Hdraw; [|done]. simpl in Hdraw.
    intros [= <- <-].
    destruct (lookup_lt_is_Some_2 pieceTypes (Z.to_nat i)) as [t Ht]; [simpl; lia|].
    exists t. rewrite Ht. split; [by eapply list_elem_of_lookup_2 | done].
Qed.

Lemma randomizeCell_spec cell ds cell' ds' :
  randomizeCell cell ds = Some (cell', ds') →
  match cell with
  | Some piece =>
      if fixed piece then cell' = Some piece
      else ∃ r, r ∈ rotations
             ∧ cell' = Some (mkPiece (type piece) r
                               (rotateConnections (pieceDefs (type piece)) r)
                               (powered piece) (fixed piece))
  | None => cell' = None
  end.
Proof.
  destruct cell as [piece|]; cbn [randomizeCell]; [|by intros [= <- <-]].
  destruct (fixed piece); [by intros [= <- <-]|].
  unfold bind. destruct (getRandomInt _ _ ds) as [[i ds1]|] eqn:Hdraw; [|done].
  apply getRandomInt_range in Hdraw; [|done].
  intros [= <- <-].
  destruct (lookup_lt_is_Some_2 rotations (Z.to_nat i)) as [r Hr]; [simpl; lia|].
  exists r. rewrite Hr. split; [by eapply list_elem_of_lookup_2 | done].
Qed.

(** *** The generated board *)

(** A piece other than the two endpoints. *)
Definition ordinary (piece : CircuitPiece) : Prop :=
  type piece ∈ pieceTypes ∧ fixed piece = false ∧ powered piece = false
  ∧ wellFormed piece.

Lemma createPiece_ordinary t r :
  t ∈ pieceTypes → r ∈ rotations → ordinary (createPiece t r).
Proof.
  intros Ht Hr. split_and!; [done | | | by apply createPiece_wellFormed];
    unfold pieceTypes in Ht; simpl;
    repeat (apply elem_of_cons in Ht as [->|Ht]; [done|]); by apply elem_of_nil in Ht.
Qed.

Lemma pathPiece_ordinary d : ordinary (pathPiece d).
Proof.
  destruct d; apply createPiece_ordinary; unfold pieceTypes, rotations; set_solver.
Qed.

(** From the slot after placement to the piece on the finished board. *)
Lemma finished_cell g1 g2 g3 g4 ds2 ds3 ds3' ds4 p cell1 :
  carved g1 g2 →
  mapM (mapM fillCell) g2 ds2 = Some (g3, ds3) →
  mapM (mapM randomizeCell) g3 ds3' = Some (g4, ds4) →
  slotAt g1 p = Some cell1 →
  match cell1 with
  | Some x =>
      fixed x = true → pieceAt g4 p = Some x
  | None => ∃ piece, pieceAt g4 p = Some piece ∧ ordinary piece
  end.
Proof.
  intros [_ Hcarve] Hfill Hturn Hslot1.
  apply mapM2_slot in Hfill as [_ Hfill]. apply mapM2_slot in Hturn as [_ Hturn].
  rewrite pieceAt_slotAt.
  assert (Hfixed1 : isFixedCell g1 p = match cell1 with Some x => fixed x | None => false end).
  { unfold isFixedCell.
    change (getCell g1 (fst p) (snd p)) with (pieceAt g1 (fst p, snd p)).
    rewrite <-surjective_pairing, pieceAt_slotAt, Hslot1. done. }
  destruct (Hcarve p) as [E2|[Hfree [d Hd]]].
  - rewrite Hslot1 in E2.
    destruct (Hfill p _ E2) as (cell3 & da3 & db3 & Hslot3 & Hc3%fillCell_spec).
    destruct (Hturn p _ Hslot3) as (cell4 & da4 & db4 & Hslot4 & Hc4%randomizeCell_spec).
    rewrite Hslot4. destruct cell1 as [x|].
    + subst cell3. intros Hx. rewrite Hx in Hc4. by subst cell4.
    + destruct Hc3 as (t & Ht & ->). cbv beta iota in Hc4.
      assert (Hfree : fixed (createPiece t 0) = false)
        by (apply (createPiece_ordinary t 0 Ht); unfold rotations; set_solver).
      rewrite Hfree in Hc4. destruct Hc4 as (r & Hr & ->). simpl. eexists. split; [done|].
      destruct (createPiece_ordinary t r Ht Hr) as (Ht' & _ & Hp' & Hw').
      split_and!; [exact Ht' | reflexivity | exact Hp' | exact Hw'].
  - destruct (Hfill p _ Hd) as (cell3 & da3 & db3 & Hslot3 & Hc3%fillCell_spec).
    destruct (Hturn p _ Hslot3) as (cell4 & da4 & db4 & Hslot4 & Hc4%randomizeCell_spec).
    rewrite Hslot4. subst cell3.
    destruct (pathPiece_ordinary d) as (Ht & Hf & Hp & Hw).
    rewrite Hf in Hc4. destruct Hc4 as (r & Hr & ->).
    destruct cell1 as [x|].
    + intros Hx. rewrite Hfixed1 in Hfree. congruence.
    + simpl. eexists. split; [done|].
      assert (type (pathPiece d) = straight) as -> by (by destruct d).
      assert (powered (pathPiece d) = false) as -> by (by destruct d).
      assert (Hs : straight ∈ pieceTypes) by (unfold pieceTypes; set_solver).
      destruct (createPiece_ordinary straight r Hs Hr) as (Ht' & _ & Hp' & Hw').
      split_and!; [exact Ht' | reflexivity | exact Hp' | exact Hw'].
Qed.

(** Every board [initializeGame] returns for a grid size of at least 2:
    a full square of pieces; the source and the destination sit on
    opposite edges as [placed] describes and are the pieces
    [placeSourceAndDestination] created; every other cell holds a
    well-formed, unpowered, rotatable piece of one of the five filler
    types. *)
Theorem initializeGame_board size ds g src dst ds' :
  (2 ≤ size)%nat →
  initializeGame size ds = Some (g, src, dst, ds') →
  square size g ∧ inGrid size src ∧ inGrid size dst ∧ src ≠ dst
  ∧ (∃ S D, placed size src dst S D
            ∧ pieceAt g src = Some S ∧ pieceAt g dst = Some D)
  ∧ ∀ p, inGrid size p → p ≠ src → p ≠ dst →
         ∃ piece, pieceAt g p = Some piece ∧ ordinary piece.
Proof.
  intros Hsize. unfold initializeGame.
  destruct (Nat.eqb_spec size 0) as [->|_]; [lia|].
  unfold bind at 1.
  destruct (placeSourceAndDestination _ _ ds) as [[[[g1 src1] dst1] ds1]|] eqn:Hplace;
    [|done].
  unfold bind at 1, fillGrid, bind at 1, createValidPath.
  destruct (carve _ g1 _ src1 dst1 ds1) as [[g2 ds2]|] eqn:Hcarve; [|done].
  destruct (mapM (mapM fillCell) g2 ds2) as [[g3 ds3]|] eqn:Hfill; [|done].
  unfold bind, randomizeRotations.
  destruct (mapM (mapM randomizeCell) g3 ds3) as [[g4 ds4]|] eqn:Hturn; [|done].
  intros [= <- <- <- <-].
  apply place_spec in Hplace as (Hsrc & Hdst & S & D & Hplaced & ->); [|lia].
  apply carve_spec in Hcarve.
  destruct (placed_cells size src1 dst1 S D src1 Hsize Hsrc Hdst Hplaced)
    as (Hne & HS & HD & _).
  assert (HfS : fixed S = true ∧ fixed D = true)
    by (destruct Hplaced as [(_ & _ & -> & ->)|(_ & _ & -> & ->)]; done).
  split_and!; [|done|done|done| |].
  - unfold square.
    rewrite (proj1 (mapM2_slot _ _ _ _ _ Hturn)), (proj1 (mapM2_slot _ _ _ _ _ Hfill)),
      (proj1 Hcarve), !shape_setCell.
    apply square_createGrid.
  - exists S, D. split_and!; [done| |].
    + by apply (finished_cell _ _ _ _ _ _ _ _ _ _ Hcarve Hfill Hturn HS), HfS.
    + by apply (finished_cell _ _ _ _ _ _ _ _ _ _ Hcarve Hfill Hturn HD), HfS.
  - intros p Hp Hps Hpd.
    destruct (placed_cells size src1 dst1 S D p Hsize Hsrc Hdst Hplaced)
      as (_ & _ & _ & Hnull).
    exact (finished_cell _ _ _ _ _ _ _ _ _ _ Hcarve Hfill Hturn (Hnull Hp Hps Hpd)).
Qed.

(** X1 — On every board generated for a grid size of at least 2 each endpoint
    is a fixed piece with exactly one connection.  Horizontal: the source
    in column 0 points right and the destination in the last column points
    left.  Vertical: the source in row 0 points down, and the destination
    in the last row points down as well, at the edge of the grid. *)
Theorem generated_endpoints size ds g src dst ds' :
  (2 ≤ size)%nat →
  initializeGame size ds = Some (g, src, dst, ds') →
  (snd src = 0%nat ∧ dst = (fst src, (size - 1)%nat)
   ∧ pieceAt g src
     = Some (mkPiece source 0 (mkConnections false true false false) true true)
   ∧ pieceAt g dst
     = Some (mkPiece destination 0 (mkConnections false false false true) false true))
  ∨ (fst src = 0%nat ∧ dst = ((size - 1)%nat, snd src)
     ∧ pieceAt g src
       = Some (mkPiece source 90 (mkConnections false false true false) true true)
     ∧ pieceAt g dst
       = Some (mkPiece destination 270 (mkConnections false false true false) false true)).
Proof.
  intros Hsize Hrun.
  destruct (initializeGame_board _ _ _ _ _ _ Hsize Hrun)
    as (_ & _ & _ & _ & (S & D & Hplaced & HS & HD) & _).
  destruct Hplaced as [(? & ? & -> & ->)|(? & ? & -> & ->)]; [left | right]; done.
Qed.

Lemma generated_endpoints_witness :
  ∃ g,
    initializeGame 3 [2 ^ 52; 0; 0; 0; 2 ^ 51; 2 ^ 52; 5; 2 ^ 53 - 1; 2 ^ 50;
                      7; 2 ^ 52; 2 ^ 51; 3; 2 ^ 53 - 1; 11; 2 ^ 52; 2 ^ 50]
      = Some (g, (0%nat, 0%nat), (2%nat, 0%nat), [])
    ∧ pieceAt g (2%nat, 0%nat)
      = Some (mkPiece destination 270 (mkConnections false false true false) false true).
Proof.
  eexists. split; [vm_compute; reflexivity|].
  match goal with |- pieceAt ?g _ = _ =>
    destruct (generated_endpoints 3
                [2 ^ 52; 0; 0; 0; 2 ^ 51; 2 ^ 52; 5; 2 ^ 53 - 1; 2 ^ 50;
                 7; 2 ^ 52; 2 ^ 51; 3; 2 ^ 53 - 1; 11; 2 ^ 52; 2 ^ 50]
                g (0%nat, 0%nat) (2%nat, 0%nat) [])
      as [(_ & Hd & _)|(_ & _ & _ & Hd)]
  end; [lia | by vm_compute | discriminate Hd | exact Hd].
Defined.

(** Every piece of a generated board is one of the two endpoints or an
    ordinary piece. *)
Lemma board_pieces size g src dst S D :
  square size g → pieceAt g src = Some S → pieceAt g dst = Some D →
  (∀ p, inGrid size p → p ≠ src → p ≠ dst →
        ∃ piece, pieceAt g p = Some piece ∧ ordinary piece) →
  ∀ p piece, pieceAt g p = Some piece →
    (p = src ∧ piece = S) ∨ (p = dst ∧ piece = D) ∨ ordinary piece.
Proof.
  intros Hsq HS HD Hrest p piece Hp.
  destruct (decide (p = src)) as [->|Hps]; [left; split; congruence|].
  destruct (decide (p = dst)) as [->|Hpd]; [right; left; split; congruence|].
  right; right. destruct (Hrest p) as (piece' & Hp' & Hord); [|done|done|congruence].
  apply (square_slot size g p Hsq). rewrite pieceAt_slotAt in Hp.
  by destruct (slotAt g p).
Qed.

Lemma ordinary_not_source piece : ordinary piece → type piece ≠ source.
Proof. intros (Ht & _) E. rewrite E in Ht. unfold pieceTypes in Ht. set_solver. Qed.

(** X2 — A generated board meets the assumptions of the power-flow and rotation
    theorems: it is rectangular, its source cell holds the powered source
    piece, no other piece has the source type, the destination cell is
    occupied, and every piece is well formed and fixed exactly when it is
    an endpoint. *)
Theorem generated_board_ready size ds g src dst ds' :
  (2 ≤ size)%nat →
  initializeGame size ds = Some (g, src, dst, ds') →
  rectangular g
  ∧ (∃ sp, pieceAt g src = Some sp ∧ type sp = source ∧ powered sp = true)
  ∧ (∀ p piece, pieceAt g p = Some piece → type piece = source → p = src)
  ∧ is_Some (pieceAt g dst)
  ∧ ∀ p piece, pieceAt g p = Some piece →
      wellFormed piece ∧ (fixed piece = true ↔ p = src ∨ p = dst).
Proof.
  intros Hsize Hrun.
  destruct (initializeGame_board _ _ _ _ _ _ Hsize Hrun)
    as (Hsq & Hsrc & Hdst & Hne & (S & D & Hplaced & HS & HD) & Hrest).
  pose proof (board_pieces size g src dst S D Hsq HS HD Hrest) as Hcell.
  assert (HSD : type S = source ∧ powered S = true ∧ fixed S = true ∧ wellFormed S
                ∧ type D = destination ∧ fixed D = true ∧ wellFormed D).
  { destruct Hplaced as [(_ & _ & -> & ->)|(_ & _ & -> & ->)];
      split_and!; try done; apply createPiece_wellFormed; unfold rotations; set_solver. }
  destruct HSD as (HtS & HpS & HfS & HwS & HtD & HfD & HwD).
  split_and!.
  - by eapply square_rectangular.
  - by exists S.
  - intros p piece Hp Hty.
    destruct (Hcell p piece Hp) as [[-> _]|[[_ ->]|(Ht & _)]]; [done|congruence|].
    rewrite Hty in Ht. unfold pieceTypes in Ht. set_solver.
  - by rewrite HD.
  - intros p piece Hp.
    destruct (Hcell p piece Hp) as [[-> ->]|[[-> ->]|(Ht & Hf & _ & Hw)]].
    + split; [done|]. split; [by left | done].
    + split; [done|]. split; [by right | done].
    + split; [done|]. split; [congruence|]. intros [->| ->].
      * rewrite HS in Hp. injection Hp as <-. congruence.
      * rewrite HD in Hp. injection Hp as <-. congruence.
Qed.

Lemma generated_board_ready_witness :
  ∃ g,
    initializeGame 3 [0; 2 ^ 52; 0; 0; 2 ^ 51; 2 ^ 52; 5; 2 ^ 53 - 1; 2 ^ 50;
                      7; 2 ^ 52; 2 ^ 51; 3; 2 ^ 53 - 1; 11; 2 ^ 52; 2 ^ 50]
      = Some (g, (1%nat, 0%nat), (1%nat, 2%nat), [])
    ∧ rectangular g ∧ is_Some (pieceAt g (1%nat, 2%nat)).
Proof.
  eexists. split; [vm_compute; reflexivity|].
  match goal with |- rectangular ?g ∧ _ =>
    destruct (generated_board_ready 3
                [0; 2 ^ 52; 0; 0; 2 ^ 51; 2 ^ 52; 5; 2 ^ 53 - 1; 2 ^ 50;
                 7; 2 ^ 52; 2 ^ 51; 3; 2 ^ 53 - 1; 11; 2 ^ 52; 2 ^ 50]
                g (1%nat, 0%nat) (1%nat, 2%nat) [])
      as (Hrect & _ & _ & Hdst & _)
  end; [lia | by vm_compute | by split].
Defined.

(** *** A destination that points at the bottom edge *)

Definition bottomOnly : Connections := mkConnections false false true false.

(** A destination in the last row whose only connection is the bottom one
    has no cell linked to it. *)
Lemma bottom_edge_unreachable (g : Grid) (src dst : Position) (D : CircuitPiece) :
  src ≠ dst → pieceAt g dst = Some D → connections D = bottomOnly →
  fst dst = (rows g - 1)%nat → ¬ reachable g src dst.
Proof.
  intros Hne HD Hconn Hlast Hreach.
  apply rtc_inv_r in Hreach as [?|(p & _ & Hlink)]; [done|].
  destruct Hlink as (d & pp & qq & Hn & Hpp & Hqq & _ & Ho).
  rewrite HD in Hqq. injection Hqq as <-. rewrite Hconn in Ho.
  destruct d; simpl in Ho; try done.
  destruct p as [[|r] c]; simpl in Hn; [done|]. injection Hn as <-.
  apply pieceAt_in_row in Hpp as (row & Hrow%lookup_lt_Some & _).
  simpl in Hlast. unfold rows in Hlast. lia.
Qed.

(** X3 — A destination in the last row whose only connection is the
    bottom one is never powered by a recomputation. *)
Theorem bottom_edge_destination_unpowered (g : Grid) (src dst : Position)
        (D : CircuitPiece) :
  rectangular g →
  (∃ sp, pieceAt g src = Some sp ∧ type sp = source ∧ powered sp = true) →
  (∀ p piece, pieceAt g p = Some piece → type piece = source → p = src) →
  src ≠ dst → pieceAt g dst = Some D →
  connections D = mkConnections false false true false →
  fst dst = (rows g - 1)%nat →
  ∃ g', updatePowerFlow g src = Some g' ∧ poweredAt g' dst = false.
Proof.
  intros Hrect Hsp Huniq Hne HD Hconn Hlast.
  destruct (updatePowerFlow_step g src (conj Hsp Huniq)) as (g' & Hrun & _ & _ & Hpow).
  exists g'. split; [done|]. apply not_true_is_false. intros Hon.
  apply Hpow, (rtc_step_linked g src dst Hrect) in Hon.
  by apply (bottom_edge_unreachable g src dst D).
Qed.

(** A column of three cells: source pointing down, a vertical straight
    piece, and the destination as the vertical orientation places it. *)
Lemma bottom_edge_destination_unpowered_witness :
  ∃ g',
    updatePowerFlow
      [[Some (createPiece source 90)]; [Some (createPiece straight 0)];
       [Some (createPiece destination 270)]] (0%nat, 0%nat) = Some g'
    ∧ poweredAt g' (2%nat, 0%nat) = false.
Proof.
  apply (bottom_edge_destination_unpowered _ _ _ (createPiece destination 270)).
  - repeat constructor.
  - eexists. by split_and!.
  - intros [[|[|[|r]]] [|c]] piece; cbn; intros Hp Hty; by simplify_eq.
  - done.
  - done.
  - done.
  - done.
Defined.

(** *** A vertical board under any clicks *)

(** The player clicking the listed cells one after the other. *)
Fixpoint clicks (cs : list Position) (s : Game) : option Game :=
  match cs with
  | [] => Some s
  | p :: cs' => s' ← handlePieceClick (fst p) (snd p) s; clicks cs' s'
  end.

(** A playing session whose destination sits in the last row and points
    at the edge below it. *)
Definition stuck (src dst : Position) (s : Game) : Prop :=
  gameState s = playing ∧ scheduled s = []
  ∧ sourcePosition s = src ∧ destinationPosition s = dst
  ∧ rectangular (grid s) ∧ fst dst = (rows (grid s) - 1)%nat ∧ src ≠ dst
  ∧ (∃ sp, pieceAt (grid s) src = Some sp
           ∧ type sp = source ∧ powered sp = true ∧ fixed sp = true)
  ∧ (∀ p piece, pieceAt (grid s) p = Some piece → type piece = source → p = src)
  ∧ (∃ D, pieceAt (grid s) dst = Some D ∧ connections D = bottomOnly ∧ fixed D = true).

Lemma rectangular_shape g g' :
  length <$> g' = length <$> g → rectangular g → rectangular g'.
Proof.
  intros Hshape Hrect. unfold rectangular in *.
  rewrite (shape_cols _ _ Hshape). apply Forall_lookup. intros i row' Hrow'.
  assert (Hl : (length <$> g') !! i = Some (length row'))
    by (by rewrite list_lookup_fmap, Hrow').
  rewrite Hshape, list_lookup_fmap in Hl.
  destruct (g !! i) as [row|] eqn:Hrow; [|done]. injection Hl as <-.
  by apply (Forall_lookup_1 _ _ _ _ Hrect Hrow).
Qed.

Lemma stuck_click src dst s row col :
  stuck src dst s → ∃ s', handlePieceClick row col s = Some s' ∧ stuck src dst s'.
Proof.
  intros Hs. pose proof Hs as
    (Hplay & Hsch & Hsrc & Hdst & Hrect & Hlast & Hne & (sp & Hsp & Hty & Hon & Hfx)
     & Huniq & (D & HD & Hconn & HfD)).
  unfold handlePieceClick. rewrite Hplay. cbn [isPlaying negb].
  change (getCell (grid s) row col) with (pieceAt (grid s) (row, col)).
  destruct (pieceAt (grid s) (row, col)) as [piece|] eqn:Hpiece; [|by exists s].
  destruct (fixed piece) eqn:Hfree; [by exists s|].
  set (g1 := setCell (grid s) row col (rotatePiece piece)).
  assert (Hns : src ≠ (row, col)) by (intros E; rewrite E in Hsp; congruence).
  assert (Hnd : dst ≠ (row, col)) by (intros E; rewrite E in HD; congruence).
  assert (Hsp1 : pieceAt g1 src = Some sp) by (unfold g1; by rewrite pieceAt_setCell_ne).
  assert (HD1 : pieceAt g1 dst = Some D) by (unfold g1; by rewrite pieceAt_setCell_ne).
  assert (Huniq1 : ∀ p q, pieceAt g1 p = Some q → type q = source → p = src).
  { intros p q Hq Htq. destruct (decide (p = (row, col))) as [->|Hp].
    - unfold g1 in Hq. rewrite (pieceAt_setCell_eq _ _ _ _ _ Hpiece) in Hq.
      injection Hq as <-. by apply (Huniq (row, col) piece).
    - unfold g1 in Hq. rewrite pieceAt_setCell_ne in Hq by done. by apply (Huniq p q). }
  assert (Hshape1 : length <$> g1 = length <$> grid s) by apply shape_setCell.
  destruct (updatePowerFlow_step g1 src) as (g2 & Hrun & Hshape2 & Hwire & Hpow).
  { split; [by exists sp | done]. }
  rewrite Hsrc, Hrun. cbn [mbind option_bind]. unfold checkWinCondition.
  cbn [grid destinationPosition]. rewrite Hdst.
  change (getCell g2 (fst dst) (snd dst)) with (pieceAt g2 (fst dst, snd dst)).
  rewrite <-surjective_pairing.
  destruct (wiringAt_Some _ _ _ _ (Hwire dst) HD1) as (bd & HD2).
  destruct (wiringAt_Some _ _ _ _ (Hwire src) Hsp1) as (bs & Hsp2).
  assert (Hrect2 : rectangular g2).
  { apply (rectangular_shape (grid s)); [by rewrite Hshape2|done]. }
  assert (Hrows2 : rows g2 = rows (grid s)).
  { rewrite (shape_rows _ _ Hshape2). by apply shape_rows. }
  assert (Hbd : bd = false).
  { apply not_true_is_false. intros ->.
    assert (Hp : poweredAt g2 dst = true) by (unfold poweredAt; by rewrite HD2).
    apply Hpow, (rtc_step_linked g1 src dst) in Hp;
      [|by apply (rectangular_shape (grid s))].
    apply (bottom_edge_unreachable g1 src dst D); try done.
    rewrite Hlast. f_equal. symmetry. by apply shape_rows. }
  assert (Hbs : bs = true).
  { assert (Hp : poweredAt g2 src = true) by (apply Hpow; constructor).
    unfold poweredAt in Hp. by rewrite Hsp2 in Hp. }
  rewrite HD2. subst bd bs. cbn [powered setPowered].
  eexists. split; [reflexivity|].
  split_and!; cbn [gameState scheduled sourcePosition destinationPosition grid];
    try done.
  - congruence.
  - exists (setPowered true sp). by split_and!.
  - intros p q Hq Htq.
    destruct (wiringAt_type g1 g2 p q (Hwire p) Hq) as (q1 & Hq1 & Ht1).
    apply (Huniq1 p q1 Hq1). congruence.
  - exists (setPowered false D). by split_and!.
Qed.

Lemma stuck_clicks src dst cs : ∀ s,
  stuck src dst s → ∃ s', clicks cs s = Some s' ∧ stuck src dst s'.
Proof.
  induction cs as [|p cs IH]; intros s Hs; [by exists s|]. cbn [clicks].
  destruct (stuck_click src dst s (fst p) (snd p) Hs) as (s1 & -> & Hs1).
  cbn [mbind option_bind]. by apply IH.
Qed.

(** X4 — A board generated in the vertical orientation (destination in
    the last row of the source's column) cannot be won: whatever cells the
    player clicks, in whatever order, every click returns, the session
    is still in the playing state afterwards, and no completion has been
    scheduled. *)
Theorem vertical_board_unwinnable size ds g src dst ds'
        (time : Z) (tm : CountdownTimer * Host) (cs : list Position) :
  (2 ≤ size)%nat →
  initializeGame size ds = Some (g, src, dst, ds') →
  dst = ((size - 1)%nat, snd src) →
  ∃ s', clicks cs (mkGame playing time g tm src dst []) = Some s'
        ∧ gameState s' = playing ∧ scheduled s' = [].
Proof.
  intros Hsize Hrun Hvert.
  destruct (initializeGame_board _ _ _ _ _ _ Hsize Hrun)
    as (Hsq & Hsrc & Hdst & Hne & (S & D & Hplaced & HS & HD) & Hrest).
  pose proof (board_pieces size g src dst S D Hsq HS HD Hrest) as Hcell.
  assert (HSD : S = createPiece source 90 ∧ D = createPiece destination 270).
  { destruct Hplaced as [(Hc & Hd & _)|(_ & _ & -> & ->)]; [|done].
    rewrite Hd in Hvert. injection Hvert as Hr Hc'. lia. }
  destruct HSD as [-> ->].
  destruct (stuck_clicks src dst cs (mkGame playing time g tm src dst []))
    as (s' & Hclicks & Hplay & Hsch & _).
  - split_and!; cbn [gameState scheduled sourcePosition destinationPosition grid];
      try done.
    + by eapply square_rectangular.
    + rewrite Hvert. unfold rows. by rewrite (square_rows _ _ Hsq).
    + by eexists.
    + intros p piece Hp Hty.
      destruct (Hcell p piece Hp) as [[-> _]|[[_ ->]|Hord]]; [done|done|].
      by apply ordinary_not_source in Hord.
    + by eexists.
  - by exists s'.
Qed.

(** The generated 3x3 vertical board, clicked at five cells. *)
Lemma vertical_board_unwinnable_witness :
  ∃ g s',
    initializeGame 3 [2 ^ 52; 0; 0; 0; 2 ^ 51; 2 ^ 52; 5; 2 ^ 53 - 1; 2 ^ 50;
                      7; 2 ^ 52; 2 ^ 51; 3; 2 ^ 53 - 1; 11; 2 ^ 52; 2 ^ 50]
      = Some (g, (0%nat, 0%nat), (2%nat, 0%nat), [])
    ∧ clicks [(1, 0); (1, 0); (1, 1); (0, 0); (2, 0)]%nat
        (mkGame playing 30000 g (start 0 (new 0 30000, mkHost ∅ 1))
                (0%nat, 0%nat) (2%nat, 0%nat) []) = Some s'
    ∧ gameState s' = playing.
Proof.
  eexists. 
  match goal with |- ∃ s', ?run = Some (?g, _, _, _) ∧ _ =>
    assert (Hrun : run = Some (g, (0%nat, 0%nat), (2%nat, 0%nat), []))
      by (vm_compute; reflexivity)
  end.
  destruct (vertical_board_unwinnable 3 _ _ _ _ _ 30000
              (start 0 (new 0 30000, mkHost ∅ 1))
              [(1, 0); (1, 0); (1, 1); (0, 0); (2, 0)]%nat ltac:(lia) Hrun eq_refl)
    as (s' & Hclicks & Hplay & _).
  exists s'. by split_and!.
Defined.

(** *** The board invariant of a session *)

(** What every recomputation in a session relies on. *)
Definition ready (src dst : Position) (g : Grid) : Prop :=
  rectangular g
  ∧ (∃ sp, pieceAt g src = Some sp
           ∧ type sp = source ∧ powered sp = true ∧ fixed sp = true)
  ∧ (∀ p piece, pieceAt g p = Some piece → type piece = source → p = src)
  ∧ is_Some (pieceAt g dst)
  ∧ ∀ p piece, pieceAt g p = Some piece → wellFormed piece.

(** The powered cells are the cells reachable from the source. *)
Definition flowing (src : Position) (g : Grid) : Prop :=
  ∀ p, poweredAt g p = true ↔ reachable g src p.

Lemma ready_click src dst s row col :
  sourcePosition s = src → destinationPosition s = dst → ready src dst (grid s) →
  ∃ s', handlePieceClick row col s = Some s'
    ∧ sourcePosition s' = src ∧ destinationPosition s' = dst
    ∧ ready src dst (grid s')
    ∧ (s' = s ∨ flowing src (grid s')).
Proof.
  intros Hsrc Hdst (Hrect & (sp & Hsp & Hty & Hon & Hfx) & Huniq & [D HD] & Hwf).
  assert (Hsame : ∃ s', Some s = Some s' ∧ sourcePosition s' = src
            ∧ destinationPosition s' = dst ∧ ready src dst (grid s')
            ∧ (s' = s ∨ flowing src (grid s'))).
  { exists s. split_and!; try done; [|by left]. split_and!; try done; by eexists. }
  unfold handlePieceClick. destruct (negb (isPlaying (gameState s))); [done|].
  change (getCell (grid s) row col) with (pieceAt (grid s) (row, col)).
  destruct (pieceAt (grid s) (row, col)) as [piece|] eqn:Hpiece; [|done].
  destruct (fixed piece) eqn:Hfree; [done|]. clear Hsame.
  set (g1 := setCell (grid s) row col (rotatePiece piece)).
  assert (Hns : src ≠ (row, col)) by (intros E; rewrite E in Hsp; congruence).
  assert (Hsp1 : pieceAt g1 src = Some sp) by (unfold g1; by rewrite pieceAt_setCell_ne).
  assert (Hcells1 : ∀ p q, pieceAt g1 p = Some q →
            (p = (row, col) ∧ q = rotatePiece piece) ∨ pieceAt (grid s) p = Some q).
  { intros p q Hq. destruct (decide (p = (row, col))) as [->|Hp].
    - left. unfold g1 in Hq. rewrite (pieceAt_setCell_eq _ _ _ _ _ Hpiece) in Hq.
      by injection Hq as <-.
    - right. unfold g1 in Hq. by rewrite pieceAt_setCell_ne in Hq. }
  assert (Huniq1 : ∀ p q, pieceAt g1 p = Some q → type q = source → p = src).
  { intros p q Hq Htq. destruct (Hcells1 p q Hq) as [[-> ->]|Hq0].
    - by apply (Huniq (row, col) piece).
    - by apply (Huniq p q). }
  assert (HD1 : is_Some (pieceAt g1 dst)).
  { destruct (decide (dst = (row, col))) as [->|Hnd].
    - unfold g1. by rewrite (pieceAt_setCell_eq _ _ _ _ _ Hpiece).
    - unfold g1. by rewrite pieceAt_setCell_ne. }
  destruct HD1 as [D1 HD1].
  assert (Hshape1 : length <$> g1 = length <$> grid s) by apply shape_setCell.
  assert (Hrect1 : rectangular g1) by (by apply (rectangular_shape (grid s))).
  destruct (updatePowerFlow_step g1 src) as (g2 & Hrun & Hshape2 & Hwire & Hpow).
  { split; [by exists sp | done]. }
  rewrite Hsrc, Hrun. cbn [mbind option_bind]. unfold checkWinCondition.
  cbn [grid destinationPosition]. rewrite Hdst.
  change (getCell g2 (fst dst) (snd dst)) with (pieceAt g2 (fst dst, snd dst)).
  rewrite <-surjective_pairing.
  destruct (wiringAt_Some _ _ _ _ (Hwire dst) HD1) as (bd & HD2).
  destruct (wiringAt_Some _ _ _ _ (Hwire src) Hsp1) as (bs & Hsp2).
  assert (Hrect2 : rectangular g2) by (by apply (rectangular_shape g1)).
  assert (Hbs : bs = true).
  { assert (Hp : poweredAt g2 src = true) by (apply Hpow; constructor).
    unfold poweredAt in Hp. by rewrite Hsp2 in Hp. }
  subst bs. rewrite HD2.
  assert (Hready2 : ready src dst g2).
  { split_and!; [done | | | by rewrite HD2 |].
    - exists (setPowered true sp). by split_and!.
    - intros p q Hq Htq.
      destruct (wiringAt_type g1 g2 p q (Hwire p) Hq) as (q1 & Hq1 & Ht1).
      apply (Huniq1 p q1 Hq1). congruence.
    - intros p q Hq. pose proof (Hwire p) as Hw. unfold wiringAt in Hw.
      rewrite Hq in Hw. destruct (pieceAt g1 p) as [q1|] eqn:Hq1; [|done].
      assert (Hwf1 : wellFormed q1).
      { destruct (Hcells1 p q1 Hq1) as [[_ ->]|Hq0].
        - apply rotatePiece_wellFormed. by apply (Hwf (row, col)).
        - by apply (Hwf p). }
      simpl in Hw. injection Hw as Et Er Ec _. unfold wellFormed.
      by rewrite Et, Er, Ec. }
  assert (Hflow2 : flowing src g2).
  { intros p. rewrite Hpow, <-(rtc_step_same g1 g2 src p Hshape2 Hwire).
    apply (rtc_step_linked g2 src p Hrect2). }
  eexists. split; [reflexivity|].
  by destruct (powered (setPowered bd D1)); split_and!; try done; right.
Qed.

Lemma ready_clicks src dst cs : ∀ s,
  sourcePosition s = src → destinationPosition s = dst → ready src dst (grid s) →
  ∃ s', clicks cs s = Some s' ∧ ready src dst (grid s')
        ∧ (grid s' = grid s ∨ flowing src (grid s')).
Proof.
  induction cs as [|p cs IH]; intros s Hsrc Hdst Hready; [exists s; by split_and!; try left|].
  cbn [clicks].
  destruct (ready_click src dst s (fst p) (snd p) Hsrc Hdst Hready)
    as (s1 & -> & Hsrc1 & Hdst1 & Hready1 & Hflow1).
  cbn [mbind option_bind].
  destruct (IH s1 Hsrc1 Hdst1 Hready1) as (s' & Hrun & Hready' & Hflow').
  exists s'. split_and!; [done | done |].
  destruct Hflow' as [E|?]; [|by right]. rewrite E.
  destruct Hflow1 as [->|?]; [by left | by right].
Qed.

(** X5 — Throughout a session on a generated board the clicks all
    return, the grid stays rectangular with every piece well formed, and
    as soon as a click has been accepted the powered cells are exactly the
    cells reachable from the source through matching connections. *)
Theorem session_power_flow size ds g src dst ds'
        (time : Z) (tm : CountdownTimer * Host) (cs : list Position) :
  (2 ≤ size)%nat →
  initializeGame size ds = Some (g, src, dst, ds') →
  ∃ s', clicks cs (mkGame playing time g tm src dst []) = Some s'
    ∧ rectangular (grid s')
    ∧ (∀ p piece, pieceAt (grid s') p = Some piece → wellFormed piece)
    ∧ (grid s' = g
       ∨ ∀ p, poweredAt (grid s') p = true ↔ reachable (grid s') src p).
Proof.
  intros Hsize Hrun.
  destruct (initializeGame_board _ _ _ _ _ _ Hsize Hrun)
    as (Hsq & Hsrc & Hdst & Hne & (S & D & Hplaced & HS & HD) & Hrest).
  pose proof (board_pieces size g src dst S D Hsq HS HD Hrest) as Hcell.
  assert (HSD : type S = source ∧ powered S = true ∧ fixed S = true ∧ wellFormed S
                ∧ type D = destination ∧ wellFormed D).
  { destruct Hplaced as [(_ & _ & -> & ->)|(_ & _ & -> & ->)];
      split_and!; try done; apply createPiece_wellFormed; unfold rotations; set_solver. }
  destruct HSD as (HtS & HpS & HfS & HwS & HtD & HwD).
  destruct (ready_clicks src dst cs (mkGame playing time g tm src dst []) eq_refl eq_refl)
    as (s' & Hclicks & (Hrect' & _ & _ & _ & Hwf') & Hflow).
  - split_and!; cbn [grid].
    + by eapply square_rectangular.
    + by exists S.
    + intros p piece Hp Hty.
      destruct (Hcell p piece Hp) as [[-> _]|[[_ ->]|Hord]]; [done|congruence|].
      by apply ordinary_not_source in Hord.
    + by rewrite HD.
    + intros p piece Hp.
      destruct (Hcell p piece Hp) as [[_ ->]|[[_ ->]|(_ & _ & _ & Hw)]]; done.
  - exists s'. by split_and!.
Qed.

(** The generated 3x3 horizontal board after a click on its middle cell. *)
Lemma session_power_flow_witness :
  ∃ g s',
    initializeGame 3 [0; 2 ^ 52; 0; 0; 2 ^ 51; 2 ^ 52; 5; 2 ^ 53 - 1; 2 ^ 50;
                      7; 2 ^ 52; 2 ^ 51; 3; 2 ^ 53 - 1; 11; 2 ^ 52; 2 ^ 50]
      = Some (g, (1%nat, 0%nat), (1%nat, 2%nat), [])
    ∧ clicks [(1%nat, 1%nat)]
        (mkGame playing 30000 g (start 0 (new 0 30000, mkHost ∅ 1))
                (1%nat, 0%nat) (1%nat, 2%nat) []) = Some s'
    ∧ rectangular (grid s').
Proof.
  eexists.
  match goal with |- ∃ s', ?run = Some (?g, _, _, _) ∧ _ =>
    assert (Hrun : run = Some (g, (1%nat, 0%nat), (1%nat, 2%nat), []))
      by (vm_compute; reflexivity)
  end.
  destruct (session_power_flow 3 _ _ _ _ _ 30000
              (start 0 (new 0 30000, mkHost ∅ 1))
              [(1%nat, 1%nat)] ltac:(lia) Hrun)
    as (s' & Hclicks & Hrect & _).
  exists s'. by split_and!.
Defined.

(** On that board the middle cell holds a straight piece at 270 degrees,
    not fixed.  The first click turns it to 0 and the second to 90, which
    closes the row and ends the game; the third and the fourth click are
    ignored, and the piece is left at 90 degrees, not at its 270. *)
Lemma four_clicks_stop_at_a_win :
  ∃ g piece s4 p4,
    initializeGame 3 [0; 2 ^ 52; 0; 0; 2 ^ 51; 2 ^ 52; 5; 2 ^ 53 - 1; 2 ^ 50;
                      7; 2 ^ 52; 2 ^ 51; 3; 2 ^ 53 - 1; 11; 2 ^ 52; 2 ^ 50]
      = Some (g, (1%nat, 0%nat), (1%nat, 2%nat), [])
    ∧ pieceAt g (1%nat, 1%nat) = Some piece
    ∧ fixed piece = false ∧ rotation piece = 270
    ∧ clicks [(1%nat, 1%nat); (1%nat, 1%nat); (1%nat, 1%nat); (1%nat, 1%nat)]
        (mkGame playing 30000 g (start 0 (new 0 30000, mkHost ∅ 1))
                (1%nat, 0%nat) (1%nat, 2%nat) []) = Some s4
    ∧ gameState s4 = success
    ∧ pieceAt (grid s4) (1%nat, 1%nat) = Some p4
    ∧ rotation p4 = 90 ∧ rotation p4 ≠ rotation piece.
Proof.
  eexists _, _, _, _. split; [vm_compute; reflexivity|].
  split; [vm_compute; reflexivity|]. split; [reflexivity|]. split; [reflexivity|].
  split; [vm_compute; reflexivity|]. split; [reflexivity|].
  split; [vm_compute; reflexivity|]. split; [reflexivity|]. by vm_compute.
Qed.

End GenerationFacts.

(** ** Code Cracker: scoring *)

Module CodeCrackerFacts.
Import Utils CodeCracker.

(** The arrays [guessCopy] and [codeCopy] after the first loop: agreeing
    positions are [null] on both sides. *)
Definition maskGuess (guess secret : list string) : list Slot :=
  zip_with (λ g s, if bool_decide (g = s) then None else Some g) guess secret.

Definition maskCode (guess secret : list string) : list Slot :=
  zip_with (λ g s, if bool_decide (g = s) then None else Some s) guess secret.

Definition pass1Step : nat * list Slot * list Slot → nat → nat * list Slot * list Slot :=
  λ '(correct, guessCopy, codeCopy) i,
    if slot_eqb (guessCopy !! i) (codeCopy !! i)
    then (S correct, <[i := None]> guessCopy, <[i := None]> codeCopy)
    else (correct, guessCopy, codeCopy).

Definition pass2Slot : nat * list Slot → option Slot → nat * list Slot :=
  λ '(misplaced, codeCopy) slot,
    match slot with
    | Some (Some c) =>
        match findIndex (λ x, bool_decide (x = Some c)) codeCopy with
        | Some index => (S misplaced, <[index := None]> codeCopy)
        | None => (misplaced, codeCopy)
        end
    | _ => (misplaced, codeCopy)
    end.

Lemma spec_correct_cons g s guess secret :
  spec_correct (g :: guess) (s :: secret)
  = ((if bool_decide (g = s) then 1 else 0) + spec_correct guess secret)%nat.
Proof.
  unfold spec_correct. simpl. rewrite filter_cons. simpl.
  destruct (decide (g = s)) as [->|Hne].
  - by rewrite bool_decide_true.
  - by rewrite bool_decide_false.
Qed.

Lemma pass1_loop (guess secret : list string) :
  length guess = length secret →
  ∀ (doneG doneC : list Slot) (count : nat),
    length doneG = length doneC →
    foldl pass1Step (count, doneG ++ (Some <$> guess), doneC ++ (Some <$> secret))
          (seq (length doneG) (length guess))
    = ((count + spec_correct guess secret)%nat,
       doneG ++ maskGuess guess secret, doneC ++ maskCode guess secret).
Proof.
  revert secret. induction guess as [|g guess IH]; intros [|s secret] Hlen doneG doneC count Hdone;
    simplify_eq/=.
  { unfold spec_correct. simpl. by rewrite Nat.add_0_r. }
  rewrite !lookup_app_r by lia. rewrite <-Hdone, Nat.sub_diag. simpl.
  rewrite spec_correct_cons. unfold slot_eqb.
  destruct (decide (g = s)) as [->|Hne].
  - rewrite !bool_decide_true by done.
    rewrite !insert_app_r_alt by lia. rewrite <-Hdone, Nat.sub_diag. simpl.
    rewrite !(cons_middle _ doneG), !(cons_middle _ doneC), !app_assoc.
    replace (S (length doneG)) with (length (doneG ++ [None])) by (rewrite length_app; simpl; lia).
    rewrite (IH secret Hlen (doneG ++ [None]) (doneC ++ [None]) (S count))
      by (rewrite !length_app; simpl; lia).
    f_equal. f_equal. lia.
  - rewrite !bool_decide_false by congruence.
    rewrite !(cons_middle _ doneG), !(cons_middle _ doneC), !app_assoc.
    replace (S (length doneG)) with (length (doneG ++ [Some g])) by (rewrite length_app; simpl; lia).
    rewrite (IH secret Hlen (doneG ++ [Some g]) (doneC ++ [Some s]) count)
      by (rewrite !length_app; simpl; lia).
    done.
Qed.

Lemma pass1_spec (guess secret : list string) :
  length guess = length secret →
  pass1 (length secret) (Some <$> guess) (Some <$> secret)
  = (spec_correct guess secret, maskGuess guess secret, maskCode guess secret).
Proof.
  intros Hlen. rewrite <-Hlen.
  exact (pass1_loop guess secret Hlen [] [] 0%nat eq_refl).
Qed.

(** Walking the indices [0 .. length l) and reading [l !! i] is walking [l]. *)
Lemma foldl_seq_lookup {A B} (f : B → option A → B) (l pre : list A) (b : B) :
  foldl (λ b i, f b ((pre ++ l) !! i)) b (seq (length pre) (length l))
  = foldl (λ b x, f b (Some x)) b l.
Proof.
  revert pre b. induction l as [|x l IH]; intros pre b; [done|]. simpl.
  rewrite lookup_app_r, Nat.sub_diag by lia. simpl.
  rewrite <-(IH (pre ++ [x])). rewrite length_app, Nat.add_1_r. simpl.
  by rewrite <-app_assoc.
Qed.

Lemma foldl_pointwise {A B} (f g : B → A → B) (l : list A) (b : B) :
  (∀ b x, f b x = g b x) → foldl f b l = foldl g b l.
Proof. intros H. revert b. induction l as [|x l IH]; intros b; simpl; [done|]. by rewrite H, IH. Qed.

Lemma pass2_walk (guessCopy codeCopy : list Slot) :
  pass2 (length guessCopy) guessCopy codeCopy
  = foldl (λ acc slot, pass2Slot acc (Some slot)) (0%nat, codeCopy) guessCopy.
Proof.
  rewrite <-(foldl_seq_lookup pass2Slot guessCopy [] (0%nat, codeCopy)).
  unfold pass2. simpl. apply foldl_pointwise. by intros [m cc] i.
Qed.

(** The colours still present in an array with [null] holes. *)
Definition present (l : list Slot) : list string := omap id l.

Lemma findIndex_pool c (codeCopy : list Slot) :
  match findIndex (λ x, bool_decide (x = Some c)) codeCopy with
  | Some index =>
      c ∈ present codeCopy
      ∧ present (<[index := None]> codeCopy) = remove_one c (present codeCopy)
  | None => c ∉ present codeCopy
  end.
Proof.
  induction codeCopy as [|x cc IH]; simpl; [set_solver|].
  destruct (decide (x = Some c)) as [->|Hne].
  - rewrite bool_decide_true by done. unfold present. simpl.
    rewrite bool_decide_true by done. split; [set_solver | done].
  - rewrite bool_decide_false by done.
    destruct (findIndex _ cc) as [i|]; simpl.
    + destruct IH as [Hin Hrem]. unfold present in *. destruct x as [d|]; simpl.
      * rewrite bool_decide_false by congruence. split; [set_solver | by rewrite Hrem].
      * done.
    + unfold present in *. destruct x as [d|]; simpl; [|done].
      assert (d ≠ c) by congruence. set_solver.
Qed.

Lemma pass2_pairing (guessCopy : list Slot) : ∀ m (codeCopy : list Slot),
  fst (foldl (λ acc slot, pass2Slot acc (Some slot)) (m, codeCopy) guessCopy)
  = (m + spec_pairing (present guessCopy) (present codeCopy))%nat.
Proof.
  induction guessCopy as [|[c|] gc IH]; intros m cc; simpl.
  - lia.
  - pose proof (findIndex_pool c cc) as Hfind. unfold present at 1. simpl.
    fold (present gc).
    destruct (findIndex _ cc) as [i|].
    + destruct Hfind as [Hin Hrem]. rewrite IH, Hrem.
      rewrite bool_decide_true by done. lia.
    + rewrite IH. by rewrite bool_decide_false.
  - apply IH.
Qed.

Lemma present_masks (guess secret : list string) :
  present (maskGuess guess secret) = fst <$> spec_remaining guess secret
  ∧ present (maskCode guess secret) = snd <$> spec_remaining guess secret.
Proof.
  revert secret. induction guess as [|g guess IH]; intros [|s secret]; try done.
  destruct (IH secret) as [IHg IHc]. unfold present, spec_remaining in *. simpl.
  rewrite filter_cons. simpl. destruct (decide (g = s)) as [->|Hne].
  - rewrite bool_decide_true by done. simpl. rewrite decide_False by (by intros []).
    split; [exact IHg | exact IHc].
  - rewrite bool_decide_false by done. simpl. rewrite decide_True by done.
    simpl. split; f_equal; [exact IHg | exact IHc].
Qed.

Lemma length_remove_one c pool :
  c ∈ pool → S (length (remove_one c pool)) = length pool.
Proof.
  induction pool as [|x pool IH]; simpl; [set_solver|]. intros Hin.
  destruct (decide (x = c)) as [->|Hne].
  - by rewrite bool_decide_true.
  - rewrite bool_decide_false by done. simpl. rewrite IH; [done | set_solver].
Qed.

(** Each secret slot left over pairs with at most one guess slot. *)
Lemma spec_pairing_le guessLeft : ∀ pool, (spec_pairing guessLeft pool ≤ length pool)%nat.
Proof.
  induction guessLeft as [|c gl IH]; intros pool; simpl; [lia|].
  destruct (decide (c ∈ pool)) as [Hin|Hout].
  - rewrite bool_decide_true by done.
    pose proof (length_remove_one c pool Hin). pose proof (IH (remove_one c pool)). lia.
  - rewrite bool_decide_false by done. apply IH.
Qed.

Lemma spec_split (guess secret : list string) :
  length guess = length secret →
  (spec_correct guess secret + length (spec_remaining guess secret) = length secret)%nat.
Proof.
  revert secret. induction guess as [|g guess IH]; intros [|s secret] Hlen; simplify_eq/=; [done|].
  specialize (IH secret Hlen). rewrite spec_correct_cons.
  unfold spec_remaining in *. simpl. rewrite filter_cons. simpl.
  destruct (decide (g = s)) as [->|Hne].
  - rewrite bool_decide_true by done. rewrite decide_False by (by intros []). lia.
  - rewrite bool_decide_false by done. rewrite decide_True by done. simpl. lia.
Qed.

Lemma checkGuess_spec (guess secret : list string) :
  length guess = length secret →
  checkGuess (length secret) (Some <$> guess) secret
  = mkFeedback (spec_correct guess secret) (spec_misplaced guess secret).
Proof.
  intros Hlen. unfold checkGuess. rewrite (pass1_spec guess secret Hlen).
  assert (Hmask : length (maskGuess guess secret) = length secret)
    by (unfold maskGuess; rewrite length_zip_with; lia).
  rewrite <-Hmask at 1. rewrite pass2_walk.
  pose proof (pass2_pairing (maskGuess guess secret) 0 (maskCode guess secret)) as Hpair.
  destruct (foldl _ _ _) as [m cc]. simpl in Hpair. subst m.
  destruct (present_masks guess secret) as [-> ->]. done.
Qed.

Lemma spec_correct_full (guess secret : list string) :
  length guess = length secret →
  spec_correct guess secret = length secret ↔ guess = secret.
Proof.
  revert secret. induction guess as [|g guess IH]; intros [|s secret] Hlen; simplify_eq/=; [done|].
  rewrite spec_correct_cons. pose proof (spec_split guess secret Hlen) as Hsplit.
  specialize (IH secret Hlen). destruct (decide (g = s)) as [->|Hne].
  - rewrite bool_decide_true by done. split.
    + intros H. f_equal. apply IH. lia.
    + intros [= ->]. f_equal. by apply IH.
  - rewrite bool_decide_false by done. split; [lia | congruence].
Qed.

(** C3 — For a guess and a secret code of the same length, scoring
    returns as [correct] the number of positions at which they agree and
    as [misplaced] the count of the two-pass rule: agreeing positions are
    set aside on both sides, then every remaining guess slot is paired
    with one remaining secret slot of its colour that is not yet paired, so
    no secret slot counts twice and [correct + misplaced] never exceeds the
    code length.  Red-green-blue-blue against red-blue-green-green scores
    1 correct and 2 misplaced.  The score is a function of the pair, so
    scoring the pair again gives the same score. *)
Theorem checkGuess_two_pass (guess secret : list string) :
  length guess = length secret →
  correct (checkGuess (length secret) (Some <$> guess) secret)
    = spec_correct guess secret
  ∧ misplaced (checkGuess (length secret) (Some <$> guess) secret)
    = spec_misplaced guess secret
  ∧ (correct (checkGuess (length secret) (Some <$> guess) secret)
     + misplaced (checkGuess (length secret) (Some <$> guess) secret)
     ≤ length secret)%nat
  ∧ checkGuess 4 (Some <$> ["#FF5252"; "#4CAF50"; "#2196F3"; "#2196F3"]%string)
                 ["#FF5252"; "#2196F3"; "#4CAF50"; "#4CAF50"]%string
    = mkFeedback 1 2.
Proof.
  intros Hlen. rewrite (checkGuess_spec guess secret Hlen). simpl.
  split_and!; [done | done | | by vm_compute].
  pose proof (spec_split guess secret Hlen).
  pose proof (spec_pairing_le (fst <$> spec_remaining guess secret)
                              (snd <$> spec_remaining guess secret)) as Hle.
  rewrite length_fmap in Hle. unfold spec_misplaced. lia.
Qed.

(** The example pair of the design document. *)
Lemma checkGuess_two_pass_witness :
  correct (checkGuess 4 (Some <$> ["#FF5252"; "#4CAF50"; "#2196F3"; "#2196F3"]%string)
                      ["#FF5252"; "#2196F3"; "#4CAF50"; "#4CAF50"]%string)
  = spec_correct ["#FF5252"; "#4CAF50"; "#2196F3"; "#2196F3"]%string
                 ["#FF5252"; "#2196F3"; "#4CAF50"; "#4CAF50"]%string.
Proof.
  exact (proj1 (checkGuess_two_pass
                  ["#FF5252"; "#4CAF50"; "#2196F3"; "#2196F3"]%string
                  ["#FF5252"; "#2196F3"; "#4CAF50"; "#4CAF50"]%string eq_refl)).
Defined.

(** ** Code Cracker: submitting guesses *)

Lemma includesNull_elem (l : list Slot) : includesNull l = true ↔ None ∈ l.
Proof.
  unfold includesNull. rewrite existsb_exists. split.
  - intros ([c|] & Hin%list_elem_of_In & H); [done | exact Hin].
  - intros Hin. exists None. split; [by apply list_elem_of_In | done].
Qed.

Lemma includesNull_filled (g : list string) : includesNull (Some <$> g) = false.
Proof. by induction g. Qed.

(** C8 — In the playing state, submitting a guess that has an unfilled
    slot returns the session state as it was: the attempt counter, the
    attempts history, the feedback, the current guess, the selected
    position and the phase are all unchanged, and nothing is scheduled. *)
Theorem submitGuess_rejects_incomplete (s : Game) :
  gameState s = playing → None ∈ currentGuess s → submitGuess s = s.
Proof.
  intros Hplay Hnull. unfold submitGuess. rewrite Hplay. cbn [isPlaying negb].
  by rewrite (proj2 (includesNull_elem _) Hnull).
Qed.

(** A fresh easy session in which only the first slot has been coloured. *)
Lemma submitGuess_rejects_incomplete_witness :
  submitGuess
    (selectColor "#FF5252"
       (startGame 0 (resetGame (mkConfig 4 6)
                       ["#FF5252"; "#2196F3"; "#4CAF50"; "#4CAF50"]%string
                       (new 0 30000, mkHost ∅ 1) 30000)))
  = selectColor "#FF5252"
      (startGame 0 (resetGame (mkConfig 4 6)
                      ["#FF5252"; "#2196F3"; "#4CAF50"; "#4CAF50"]%string
                      (new 0 30000, mkHost ∅ 1) 30000)).
Proof.
  apply submitGuess_rejects_incomplete; [reflexivity|].
  cbn. set_solver.
Defined.

(** What [submitGuess] does with a complete guess [g]. *)
Lemma submitGuess_complete (s : Game) (g : list string) :
  gameState s = playing → currentGuess s = Some <$> g →
  length g = length (secretCode s) → codeLength (config s) = length (secretCode s) →
  submitGuess s =
    let attempts' := <[currentAttempt s := Some <$> g]> (attempts s) in
    let feedback' := <[currentAttempt s :=
                        mkFeedback (spec_correct g (secretCode s))
                                   (spec_misplaced g (secretCode s))]> (feedback s) in
    let s1 := mkGame (config s) playing (timeLeft s) (timer s) (currentAttempt s)
                     attempts' feedback' (secretCode s) (Some <$> g)
                     (selectedPosition s) (scheduled s) in
    if bool_decide (g = secretCode s) then handleGameOver true s1 else
    if Z.of_nat (currentAttempt s) >=? Z.of_nat (attemptsAllowed (config s)) - 1
    then handleGameOver false s1 else
    mkGame (config s) playing (timeLeft s) (timer s) (S (currentAttempt s))
           attempts' feedback' (secretCode s)
           (replicate (codeLength (config s)) None) 0 (scheduled s).
Proof.
  intros Hplay Hguess Hlen Hcfg. unfold submitGuess.
  rewrite Hplay, Hguess, includesNull_filled, Hcfg, (checkGuess_spec g _ Hlen).
  cbn [isPlaying negb correct]. cbv zeta.
  destruct (decide (g = secretCode s)) as [Heq|Hne].
  - rewrite bool_decide_true by done.
    rewrite (proj2 (Nat.eqb_eq _ _) (proj2 (spec_correct_full g _ Hlen) Heq)). done.
  - rewrite bool_decide_false by done.
    assert (spec_correct g (secretCode s) ≠ length (secretCode s)) as Hn
      by (by rewrite spec_correct_full).
    rewrite (proj2 (Nat.eqb_neq _ _) Hn). done.
Qed.

(** The player colouring the slots one after the other. *)
Definition enterGuess (g : list string) (s : Game) : Game :=
  foldl (λ s color, selectColor color s) s g.

Lemma enterGuess_four (s : Game) (a b c d : string) :
  gameState s = playing → codeLength (config s) = 4%nat →
  currentGuess s = replicate 4 None → selectedPosition s = 0%nat →
  enterGuess [a; b; c; d] s
  = mkGame (config s) playing (timeLeft s) (timer s) (currentAttempt s)
           (attempts s) (feedback s) (secretCode s)
           (Some <$> [a; b; c; d]) 3 (scheduled s).
Proof.
  destruct s as [cfg st tl tm ca at' fb sc cg sp sch]. simpl.
  intros -> Hcfg -> ->. unfold enterGuess, selectColor. simpl. rewrite Hcfg. done.
Qed.

Ltac four_slots l :=
  destruct l as [|? [|? [|? [|? [|? ?]]]]]; try discriminate.

(** Entering four colours and submitting them, in a session of code length
    4 that has attempts to spare. *)
Lemma round_of_four (s : Game) (a b c d : string) :
  gameState s = playing → codeLength (config s) = 4%nat →
  length (secretCode s) = 4%nat →
  currentGuess s = replicate 4 None → selectedPosition s = 0%nat →
  Z.of_nat (currentAttempt s) < Z.of_nat (attemptsAllowed (config s)) - 1 →
  submitGuess (enterGuess [a; b; c; d] s) =
    let attempts' := <[currentAttempt s := Some <$> [a; b; c; d]]> (attempts s) in
    let feedback' := <[currentAttempt s :=
                        mkFeedback (spec_correct [a; b; c; d] (secretCode s))
                                   (spec_misplaced [a; b; c; d] (secretCode s))]>
                       (feedback s) in
    if bool_decide ([a; b; c; d] = secretCode s)
    then mkGame (config s) success (timeLeft s) (stop (timer s)) (currentAttempt s)
                attempts' feedback' (secretCode s) (Some <$> [a; b; c; d]) 3
                (scheduled s ++ [(2000, true)])
    else mkGame (config s) playing (timeLeft s) (timer s) (S (currentAttempt s))
                attempts' feedback' (secretCode s) (replicate 4 None) 0 (scheduled s).
Proof.
  intros Hplay Hcfg Hsec Hguess Hpos Hleft.
  rewrite (enterGuess_four s a b c d Hplay Hcfg Hguess Hpos).
  rewrite (submitGuess_complete _ [a; b; c; d]);
    cbn [secretCode config gameState currentGuess];
    [|done|done|by rewrite Hsec|by rewrite Hcfg, Hsec].
  cbv zeta. cbn [config timeLeft timer currentAttempt attempts feedback secretCode
                 selectedPosition scheduled].
  destruct (bool_decide _); [done|].
  destruct (Z.geb_spec (Z.of_nat (currentAttempt s))
                       (Z.of_nat (attemptsAllowed (config s)) - 1)); [lia|].
  by rewrite Hcfg.
Qed.

(** C5 — In a Code Cracker session with [codeLength = 4] and
    [attempts = 6], two complete wrong guesses followed by the secret code
    end the session in success; one completion is scheduled, and its
    metrics are [timeRemaining], [attempts] = 3 and [secretCode].  The
    count of attempts used is carried by the field named [attempts]; there
    is no field named [attemptsUsed]. *)
Theorem third_guess_wins (secret g1 g2 : list string)
        (tm : CountdownTimer * Host) (time now : Z) :
  length secret = 4%nat → length g1 = 4%nat → length g2 = 4%nat →
  g1 ≠ secret → g2 ≠ secret →
  let s0 := startGame now (resetGame (mkConfig 4 6) secret tm time) in
  let s3 := submitGuess (enterGuess secret
              (submitGuess (enterGuess g2
                (submitGuess (enterGuess g1 s0))))) in
  gameState s3 = success
  ∧ scheduled s3 = [(2000, true)]
  ∧ dispatchComplete true s3
    = Events.mkComplete true
        [("timeRemaining"%string, Events.VNum time);
         ("attempts"%string, Events.VNum 3);
         ("secretCode"%string, Events.VColors secret)]
  ∧ Events.field "attemptsUsed" (Events.data (dispatchComplete true s3)) = None.
Proof.
  intros Hs H1 H2 Hne1 Hne2 s0 s3. subst s3.
  four_slots secret. four_slots g1. four_slots g2.
  rewrite (round_of_four s0) by (cbn; done || lia).
  subst s0. cbv zeta. rewrite bool_decide_false by exact Hne1.
  match goal with |- context [submitGuess (enterGuess _ ?s1)] =>
    lazymatch s1 with mkGame _ _ _ _ _ _ _ _ _ _ _ =>
      rewrite (round_of_four s1) by (cbn; done || lia) end end.
  cbv zeta. rewrite bool_decide_false by exact Hne2.
  match goal with |- context [submitGuess (enterGuess _ ?s2)] =>
    rewrite (round_of_four s2) by (cbn; done || lia) end.
  cbv zeta. rewrite bool_decide_true by reflexivity.
  split_and!; reflexivity.
Qed.

(** An easy session: secret red-blue-green-green; the player submits
    red-green-blue-blue, then four reds, then the secret. *)
Definition demoSecret : list string :=
  ["#FF5252"; "#2196F3"; "#4CAF50"; "#4CAF50"]%string.

Definition demoSession : Game :=
  submitGuess (enterGuess demoSecret
    (submitGuess (enterGuess ["#FF5252"; "#FF5252"; "#FF5252"; "#FF5252"]%string
      (submitGuess (enterGuess ["#FF5252"; "#4CAF50"; "#2196F3"; "#2196F3"]%string
        (startGame 0 (resetGame (mkConfig 4 6) demoSecret
                        (new 0 30000, mkHost ∅ 1) 30000))))))).

Lemma third_guess_wins_witness :
  gameState demoSession = success
  ∧ Events.field "attempts" (Events.data (dispatchComplete true demoSession))
    = Some (Events.VNum 3).
Proof.
  destruct (third_guess_wins demoSecret
              ["#FF5252"; "#4CAF50"; "#2196F3"; "#2196F3"]%string
              ["#FF5252"; "#FF5252"; "#FF5252"; "#FF5252"]%string
              (new 0 30000, mkHost ∅ 1) 30000 0)
    as (Hstate & _ & Hdata & _); [reflexivity | reflexivity | reflexivity | done | done |].
  split; [exact Hstate|]. unfold demoSession. rewrite Hdata. reflexivity.
Defined.

(** The completion of that session carries no field named [attemptsUsed]. *)
Lemma attemptsUsed_absent :
  gameState demoSession = success
  ∧ currentAttempt demoSession = 2%nat
  ∧ Events.field "attemptsUsed" (Events.data (dispatchComplete true demoSession)) = None.
Proof. by vm_compute. Qed.

End CodeCrackerFacts.

(** ** Lemmas shared by the sessions *)

Module CommonFacts.
Import Utils.

(** A stopped timer holds no handle. *)
Lemma stop_cleared tm : timerInterval (fst (stop tm)) = None.
Proof. by destruct tm as [[st d [h|]] host]. Qed.

(** Distinct integers of [0, n) are at most [n]. *)
Lemma bounded_NoDup_length (l : list Z) (n : Z) :
  NoDup l → Forall (λ v, 0 ≤ v < n) l → Z.of_nat (length l) ≤ Z.max 0 n.
Proof.
  intros Hnd Hin.
  assert (Hsub : l ⊆+ seqZ 0 (Z.max 0 n)).
  { apply NoDup_submseteq; [done|]. intros x Hx. apply elem_of_seqZ.
    pose proof (proj1 (Forall_forall _ l) Hin x Hx) as Hx'. simpl in Hx'. lia. }
  apply submseteq_length in Hsub. rewrite length_seqZ in Hsub. lia.
Qed.

End CommonFacts.

(** ** Doubles: the order of the comparisons *)

Module DoubleFacts.
Import Utils.
Import SpecFloat FloatOps.

(** A rank that grows with the value of a double: for a finite one the
    exponent and the mantissa read as one number, as in its bit pattern. *)
Definition rank (x : double) : option Z :=
  match Prim2SF x with
  | S754_nan => None
  | S754_zero _ => Some 0
  | S754_infinity s => Some (if s then - 2 ^ 63 else 2 ^ 63)
  | S754_finite s m e =>
      Some (if s then - ((e + 1075) * 2 ^ 52 + Z.pos m)
            else (e + 1075) * 2 ^ 52 + Z.pos m)
  end.

Lemma digits2_pos_bounds m :
  2 ^ (Z.pos (digits2_pos m) - 1) ≤ Z.pos m < 2 ^ Z.pos (digits2_pos m).
Proof.
  induction m as [m IH|m IH|]; cbn [digits2_pos]; [| |done].
  - rewrite Pos2Z.inj_succ, Z.pow_succ_r by lia.
    replace (Z.succ (Z.pos (digits2_pos m)) - 1) with (Z.succ (Z.pos (digits2_pos m) - 1))
      by lia.
    rewrite Z.pow_succ_r by lia. lia.
  - rewrite Pos2Z.inj_succ, Z.pow_succ_r by lia.
    replace (Z.succ (Z.pos (digits2_pos m)) - 1) with (Z.succ (Z.pos (digits2_pos m) - 1))
      by lia.
    rewrite Z.pow_succ_r by lia. lia.
Qed.

(** What validity says of a finite double. *)
Lemma bounded_spec m e :
  bounded prec emax m e = true →
  -1074 ≤ e ≤ 971 ∧ Z.pos m < 2 ^ 53 ∧ (-1074 < e → 2 ^ 52 ≤ Z.pos m).
Proof.
  unfold bounded, canonical_mantissa, fexp, emin, prec, emax.
  intros [Hcan Hmax%Z.leb_le]%andb_true_iff. apply Z.eqb_eq in Hcan.
  pose proof (digits2_pos_bounds m) as [Hlo Hhi].
  assert (Hd : Z.pos (digits2_pos m) ≤ 53) by lia.
  split; [lia|]. split.
  - eapply Z.lt_le_trans; [exact Hhi|]. apply Z.pow_le_mono_r; lia.
  - intros He. assert (Z.pos (digits2_pos m) = 53) as Hd' by lia.
    rewrite Hd' in Hlo. exact Hlo.
Qed.

Lemma SFleb_rank f1 f2 :
  valid_binary prec emax f1 = true → valid_binary prec emax f2 = true →
  SFleb f1 f2 = true →
  ∃ k1 k2,
    match f1 with
    | S754_nan => None
    | S754_zero _ => Some 0
    | S754_infinity s => Some (if s then - 2 ^ 63 else 2 ^ 63)
    | S754_finite s m e =>
        Some (if s then - ((e + 1075) * 2 ^ 52 + Z.pos m)
              else (e + 1075) * 2 ^ 52 + Z.pos m)
    end = Some k1
    ∧ match f2 with
      | S754_nan => None
      | S754_zero _ => Some 0
      | S754_infinity s => Some (if s then - 2 ^ 63 else 2 ^ 63)
      | S754_finite s m e =>
          Some (if s then - ((e + 1075) * 2 ^ 52 + Z.pos m)
                else (e + 1075) * 2 ^ 52 + Z.pos m)
      end = Some k2
    ∧ k1 ≤ k2.
Proof.
  intros Hv1 Hv2 Hle. unfold SFleb in Hle.
  assert (Hpow : 2 ^ 63 = 2048 * 2 ^ 52) by reflexivity.
  assert (H52 : 2 ^ 53 = 2 * 2 ^ 52) by reflexivity.
  assert (Hpos : 0 < 2 ^ 52) by reflexivity.
  destruct f1 as [s1|s1| |s1 m1 e1], f2 as [s2|s2| |s2 m2 e2]; try done;
    cbn [valid_binary] in Hv1, Hv2;
    try (apply bounded_spec in Hv1 as (He1 & Hm1 & Hn1));
    try (apply bounded_spec in Hv2 as (He2 & Hm2 & Hn2));
    eexists _, _; (split; [reflexivity|]); (split; [reflexivity|]).
  all: cbn [SFcompare] in Hle.
  all: try (destruct s1; try destruct s2; try done; nia).
  all: try (destruct s2; try done; nia).
  destruct s1, s2; try done; try nia.
  - destruct (Z.compare_spec e1 e2) as [->|Hlt|Hgt]; try done.
    + change (Pos.compare_cont Eq m1 m2) with (m1 ?= m2)%positive in Hle.
      destruct (Pos.compare_spec m1 m2); simpl in Hle; try done; lia.
    + nia.
  - destruct (Z.compare_spec e1 e2) as [->|Hlt|Hgt]; try done.
    + change (Pos.compare_cont Eq m1 m2) with (m1 ?= m2)%positive in Hle.
      destruct (Pos.compare_spec m1 m2); simpl in Hle; try done; lia.
    + nia.
Qed.

Lemma leb_rank (x y : double) :
  PrimFloat.leb x y = true → ∃ k1 k2, rank x = Some k1 ∧ rank y = Some k2 ∧ k1 ≤ k2.
Proof.
  rewrite FloatAxioms.leb_spec. unfold rank.
  apply SFleb_rank; apply FloatAxioms.Prim2SF_valid.
Qed.

End DoubleFacts.

(** ** Safe Cracker: zone generation *)

Module SafeCrackerFacts.
Import Utils SafeCracker RandFacts CommonFacts DoubleFacts.

(** Two zones that share no angle. *)
Definition apart (a b : Zone) : Prop := zend a < zstart b ∨ zend b < zstart a.

Definition pairwiseApart (zs : list Zone) : Prop :=
  ∀ i j a b, i ≠ j → zs !! i = Some a → zs !! j = Some b → apart a b.

(** A zone as the generator builds it. *)
Definition wellPlaced (z : Zone) : Prop :=
  0 ≤ zstart z ∧ zend z ≤ TOTAL_DEGREES
  ∧ MIN_ZONE_SIZE ≤ zend z - zstart z ≤ MAX_ZONE_SIZE ∧ found z = false.

Lemma overlaps_false startPosition zoneSize zone :
  overlaps startPosition zoneSize zone = false →
  apart zone (mkZone startPosition (startPosition + zoneSize) false).
Proof.
  unfold overlaps, apart. simpl. intros H.
  apply orb_false_iff in H as [H H3]. apply orb_false_iff in H as [H1 H2].
  apply andb_false_iff in H1, H2, H3.
  rewrite !Z.leb_gt in *. lia.
Qed.

Lemma pairwiseApart_snoc zs z :
  pairwiseApart zs → Forall (λ a, apart a z) zs → pairwiseApart (zs ++ [z]).
Proof.
  intros Hzs Hz i j a b Hne Hi Hj.
  apply lookup_app_Some in Hi as [Hi|[Hi Hi']], Hj as [Hj|[Hj Hj']].
  - by eapply Hzs.
  - apply list_lookup_singleton_Some in Hj' as [_ <-].
    by eapply (Forall_lookup_1 _ _ _ _ Hz).
  - apply list_lookup_singleton_Some in Hi' as [_ <-].
    pose proof (Forall_lookup_1 _ _ _ _ Hz Hj) as [?|?]; [by right | by left].
  - apply list_lookup_singleton_Some in Hi' as [Hi' _], Hj' as [Hj' _]. lia.
Qed.

Lemma retryStart_spec fuel zoneSize placed ds v ds' :
  0 ≤ TOTAL_DEGREES - zoneSize →
  retryStart fuel zoneSize placed ds = Some (v, ds') →
  0 ≤ v ≤ TOTAL_DEGREES - zoneSize
  ∧ existsb (overlaps v zoneSize) placed = false.
Proof.
  intros Hsize. revert ds. induction fuel as [|fuel IH]; intros ds; [done|].
  cbn [retryStart]. unfold bind at 1.
  destruct (getRandomInt 0 (TOTAL_DEGREES - zoneSize) ds) as [[s ds1]|] eqn:Hdraw; [|done].
  apply getRandomInt_range in Hdraw; [|done].
  destruct (existsb (overlaps s zoneSize) placed) eqn:Hover.
  - apply IH.
  - intros [= <- <-]. done.
Qed.

Lemma placeZones_spec n : ∀ placed ds zs ds',
  placeZones n placed ds = Some (zs, ds') →
  Forall wellPlaced placed → pairwiseApart placed →
  length zs = (length placed + n)%nat ∧ Forall wellPlaced zs ∧ pairwiseApart zs.
Proof.
  induction n as [|n IH]; intros placed ds zs ds' Hrun Hok Hapart.
  - injection Hrun as <- <-. split_and!; [lia | done | done].
  - cbn [placeZones] in Hrun. unfold bind at 1 in Hrun.
    destruct (getRandomInt MIN_ZONE_SIZE MAX_ZONE_SIZE ds) as [[size ds1]|] eqn:Hsize;
      [|done].
    apply getRandomInt_range in Hsize; [|done].
    unfold bind at 1, findStart in Hrun.
    destruct (retryStart (length ds1) size placed ds1) as [[st ds2]|] eqn:Hstart; [|done].
    unfold MIN_ZONE_SIZE, MAX_ZONE_SIZE in Hsize.
    apply retryStart_spec in Hstart as [Hrange Hfree]; [|unfold TOTAL_DEGREES; lia].
    apply IH in Hrun as (Hlen & Hok' & Hapart').
    + rewrite length_app in Hlen. simpl in Hlen. split_and!; [lia | done | done].
    + apply Forall_app. split; [done|]. repeat constructor; simpl;
        unfold TOTAL_DEGREES, MIN_ZONE_SIZE, MAX_ZONE_SIZE in *; lia.
    + apply pairwiseApart_snoc; [done|]. apply Forall_forall. intros a Ha.
      apply overlaps_false.
      destruct (overlaps st size a) eqn:Hover; [|done].
      assert (existsb (overlaps st size) placed = true); [|congruence].
      apply existsb_exists. exists a. split; [by apply list_elem_of_In | done].
Qed.

(** C6 — Every zone set that generation returns has [config.zones]
    zones, no two of which share an angle (they are disjoint even as
    closed intervals), and every zone lies within the closed range
    [0, 360]: its start is at least 0 and its end at most 360, with a
    width between 10 and 30 degrees.  The end can be 360 itself. *)
Theorem generateSuccessZones_apart (cfg : Config) (ds ds' : list Z) (zs : list Zone) :
  generateSuccessZones cfg ds = Some (zs, ds') →
  length zs = zones cfg
  ∧ (∀ i j a b, i ≠ j → zs !! i = Some a → zs !! j = Some b →
       zend a < zstart b ∨ zend b < zstart a)
  ∧ Forall (λ z, 0 ≤ zstart z ∧ zend z ≤ 360
                 ∧ 10 ≤ zend z - zstart z ≤ 30 ∧ found z = false) zs.
Proof.
  intros Hrun. apply placeZones_spec in Hrun as (Hlen & Hok & Hapart).
  - split_and!; [done | exact Hapart | exact Hok].
  - constructor.
  - intros i j a b _ Hi. done.
Qed.

(** Three zones from ten draws, two of the start positions rejected for
    overlapping a zone placed earlier. *)
Lemma generateSuccessZones_apart_witness :
  generateSuccessZones (mkConfig 2 3)
    [0; 2 ^ 53 - 1; 0; 2 ^ 53 - 1; 2 ^ 53 - 2; 0; 1; 2; 3; 2 ^ 52]
  = Some ([mkZone 350 360 false; mkZone 0 10 false; mkZone 175 185 false], [])
  ∧ length [mkZone 350 360 false; mkZone 0 10 false; mkZone 175 185 false] = 3%nat.
Proof.
  assert (Hrun : generateSuccessZones (mkConfig 2 3)
            [0; 2 ^ 53 - 1; 0; 2 ^ 53 - 1; 2 ^ 53 - 2; 0; 1; 2; 3; 2 ^ 52]
          = Some ([mkZone 350 360 false; mkZone 0 10 false; mkZone 175 185 false], []))
    by (by vm_compute).
  split; [exact Hrun|].
  exact (proj1 (generateSuccessZones_apart _ _ _ _ Hrun)).
Defined.

(** A width draw of 10 followed by the largest start draw puts the zone at
    [350, 360]: its end is 360, not below it. *)
Lemma zone_may_end_at_360 :
  generateSuccessZones (mkConfig 2 1) [0; 2 ^ 53 - 1]
  = Some ([mkZone 350 360 false], [])
  ∧ ¬ Forall (λ z, zend z < 360) [mkZone 350 360 false].
Proof.
  split; [by vm_compute|]. intros H. apply Forall_cons in H as [H _]. simpl in H. lia.
Qed.

(** ** Safe Cracker: zones that share no angle share no dial position *)

Lemma ofZ_rank_table :
  forallb (λ i, match rank (ofZ i), rank (ofZ (i + 1)) with
                | Some a, Some b => a <? b
                | _, _ => false
                end) (seqZ 0 360) = true.
Proof. vm_compute. reflexivity. Qed.

Lemma ofZ_rank_step i :
  0 ≤ i < 360 →
  ∃ a b, rank (ofZ i) = Some a ∧ rank (ofZ (i + 1)) = Some b ∧ a < b.
Proof.
  intros Hi. pose proof ofZ_rank_table as Htable.
  rewrite forallb_forall in Htable. specialize (Htable i).
  destruct (rank (ofZ i)) as [a|], (rank (ofZ (i + 1))) as [b|];
    try (exfalso; apply Bool.diff_false_true, Htable, list_elem_of_In, elem_of_seqZ; lia).
  exists a, b. split_and!; [done..|]. apply Z.ltb_lt, Htable, list_elem_of_In, elem_of_seqZ.
  lia.
Qed.

(** The doubles holding 0, 1, ..., 360 are ordered as the integers are. *)
Lemma ofZ_rank_mono a b :
  0 ≤ a → a < b → b ≤ 360 →
  ∃ ka kb, rank (ofZ a) = Some ka ∧ rank (ofZ b) = Some kb ∧ ka < kb.
Proof.
  intros Ha Hab Hb. assert (Hb0 : 0 ≤ b) by lia. revert Hab Hb.
  pattern b. apply natlike_ind; [intros; lia | clear b Hb0 | exact Hb0].
  intros b Hpos IH Hab Hb.
  change (Z.succ b) with (b + 1) in *.
  destruct (ofZ_rank_step b) as (x & y & Hx & Hy & Hxy); [lia|].
  destruct (decide (a = b)) as [->|Hne]; [by exists x, y|].
  destruct IH as (ka & kb & Hka & Hkb & Hlt); [lia..|].
  exists ka, y. split_and!; [done..|]. rewrite Hx in Hkb. injection Hkb as <-. lia.
Qed.

Lemma inZone_apart r a b :
  wellPlaced a → wellPlaced b → apart a b → inZone r a = true → inZone r b = false.
Proof.
  intros (Ha0 & Ha1 & Ha2 & _) (Hb0 & Hb1 & Hb2 & _) Hapart Hin.
  unfold TOTAL_DEGREES, MIN_ZONE_SIZE, MAX_ZONE_SIZE in *.
  destruct (inZone r b) eqn:Hin'; [exfalso|done].
  unfold inZone in Hin, Hin'.
  apply andb_true_iff in Hin as [Hsa Hea], Hin' as [Hsb Heb].
  apply leb_rank in Hsa as (x1 & r1 & Hx1 & Hr1 & H1), Hea as (r2 & x2 & Hr2 & Hx2 & H2),
                    Hsb as (y1 & r3 & Hy1 & Hr3 & H3), Heb as (r4 & y2 & Hr4 & Hy2 & H4).
  simplify_eq.
  destruct Hapart as [Hlt|Hlt].
  - destruct (ofZ_rank_mono (zend a) (zstart b)) as (ka & kb & Hka & Hkb & Hk); [lia..|].
    simplify_eq. lia.
  - destruct (ofZ_rank_mono (zend b) (zstart a)) as (ka & kb & Hka & Hkb & Hk); [lia..|].
    simplify_eq. lia.
Qed.

(** ** Safe Cracker: the zones entered and the zones counted *)

Lemma timerTick_cases now s :
  timerTick now s = s
  ∨ (∃ r tm, timerTick now s
       = mkGame (config s) (gameState s) r tm (currentRotation s)
                (rotationCount s) (isDragging s) (prevAngle s) (successZones s)
                (foundZonesCount s) (dialHistory s) (scheduled s))
  ∨ (∃ r tm, timerTick now s
       = handleGameOver false
           (mkGame (config s) (gameState s) r tm (currentRotation s)
                (rotationCount s) (isDragging s) (prevAngle s) (successZones s)
                (foundZonesCount s) (dialHistory s) (scheduled s))).
Proof.
  unfold timerTick. destruct (timerInterval (fst (timer s))) as [h|]; [|by left].
  unfold tick. destruct (decide (h ∈ live (snd (timer s)))).
  - destruct (_ <=? 0); right; [right | left]; by eexists _, _.
  - right; left. by eexists _, _.
Qed.

Lemma showUnfoundZones_all zs : Forall (λ z, found z = true) (showUnfoundZones zs).
Proof.
  unfold showUnfoundZones. apply Forall_fmap, Forall_true. intros z. simpl.
  by destruct (found z) eqn:E.
Qed.

(** The loop of [checkSuccessZones] leaves the dial and its trail alone. *)
Lemma checkFrom_dial n : ∀ i s,
  currentRotation (checkFrom n i s) = currentRotation s
  ∧ dialHistory (checkFrom n i s) = dialHistory s.
Proof.
  induction n as [|n IH]; intros i s; [done|]. cbn [checkFrom].
  destruct (successZones s !! i) as [zone|]; [|done].
  destruct (negb (found zone) && inZone (currentRotation s) zone).
  - cbn [markFound countRotation foundZonesCount config rotationCount].
    destruct (_ =? _)%nat; [done|]. destruct (_ >=? _); [done|].
    destruct (IH (S i) (countRotation (markFound i s))) as [-> ->]. done.
  - apply IH.
Qed.

(** The dial position an event leaves to be checked: the rotation after
    a drag that is taken while playing. *)
Definition position (e : Event) (s : Game) : list double :=
  match e with
  | Drag _ =>
      if isDragging s && isPlaying (gameState s)
      then [currentRotation (step e s)] else []
  | _ => []
  end.

(** The positions the dial took, in order, over a series of events. *)
Fixpoint dialPositions (events : list Event) (s : Game) : list double :=
  match events with
  | [] => []
  | e :: events' => position e s ++ dialPositions events' (step e s)
  end.

(** The player entered a zone when one of those positions lies in it. *)
Definition entered (positions : list double) (zone : Zone) : bool :=
  existsb (λ r, inZone r zone) positions.

Definition enteredCount (positions : list double) (zs : list Zone) : nat :=
  length (filter (λ zone, entered positions zone = true) zs).

Definition flagged (positions : list double) (zone : Zone) : Zone :=
  mkZone (zstart zone) (zend zone) (entered positions zone).

Lemma entered_snoc positions r zone :
  entered (positions ++ [r]) zone = entered positions zone || inZone r zone.
Proof. unfold entered. rewrite existsb_app. simpl. by rewrite orb_false_r. Qed.

Lemma enteredCount_app positions zs1 zs2 :
  enteredCount positions (zs1 ++ zs2)
  = (enteredCount positions zs1 + enteredCount positions zs2)%nat.
Proof. unfold enteredCount. by rewrite filter_app, length_app. Qed.

Lemma enteredCount_cons positions zone zs :
  enteredCount positions (zone :: zs)
  = ((if entered positions zone then 1 else 0) + enteredCount positions zs)%nat.
Proof.
  unfold enteredCount. rewrite filter_cons. destruct (entered positions zone).
  - by rewrite decide_True.
  - by rewrite decide_False.
Qed.

Section Zones.
Variables (cfg : Config) (zs : list Zone).
Hypothesis zs_wellPlaced : Forall wellPlaced zs.
Hypothesis zs_apart : pairwiseApart zs.

(** A position inside one zone leaves the other zones as they were. *)
Lemma elsewhere_unentered positions r i zone :
  zs !! i = Some zone → inZone r zone = true →
  flagged (positions ++ [r]) <$> drop (S i) zs = flagged positions <$> drop (S i) zs
  ∧ enteredCount (positions ++ [r]) (drop (S i) zs)
    = enteredCount positions (drop (S i) zs).
Proof.
  intros Hzone Hin.
  assert (Hout : Forall (λ other, inZone r other = false) (drop (S i) zs)).
  { apply Forall_lookup. intros j other Hother. rewrite lookup_drop in Hother.
    apply (inZone_apart r zone other); [| |by apply (zs_apart i (S i + j)%nat); [lia|..]|done].
    - by apply (Forall_lookup_1 _ _ _ _ zs_wellPlaced Hzone).
    - by apply (Forall_lookup_1 _ _ _ _ zs_wellPlaced Hother). }
  induction Hout as [|other rest Hother _ IH]; [done|].
  rewrite !fmap_cons, !enteredCount_cons, entered_snoc, Hother, orb_false_r.
  destruct IH as [-> ->]. split; [|done]. f_equal.
  unfold flagged. by rewrite entered_snoc, Hother, orb_false_r.
Qed.

(** What a session holds, [positions] being the dial positions so far. *)
Definition following (positions : list double) (s : Game) : Prop :=
  config s = cfg
  ∧ match gameState s with
    | playing =>
        successZones s = flagged positions <$> zs
        ∧ foundZonesCount s = enteredCount positions zs
    | success => timerInterval (fst (timer s)) = None
    | failure =>
        Forall (λ zone, found zone = true) (successZones s)
        ∧ foundZonesCount s = enteredCount positions zs
        ∧ timerInterval (fst (timer s)) = None
    | idle => False
    end.

(** The loop, with the zones before index [i] already compared with the
    new position [r]. *)
Lemma checkFrom_following positions r n : ∀ i s,
  (n + i = length zs)%nat →
  config s = cfg → gameState s = playing → currentRotation s = r →
  successZones s
    = (flagged (positions ++ [r]) <$> take i zs) ++ (flagged positions <$> drop i zs) →
  foundZonesCount s
    = (enteredCount (positions ++ [r]) (take i zs) + enteredCount positions (drop i zs))%nat →
  following (positions ++ [r]) (checkFrom n i s).
Proof.
  induction n as [|n IH]; intros i s Hlen Hcfg Hplay Hr Hzones Hcount.
  { cbn [checkFrom]. split; [done|]. rewrite Hplay.
    rewrite take_ge, drop_ge in Hzones, Hcount by lia.
    rewrite app_nil_r in Hzones. cbn in Hcount. split; [done | lia]. }
  cbn [checkFrom].
  destruct (lookup_lt_is_Some_2 zs i ltac:(lia)) as [zone Hzone].
  assert (Hi : successZones s !! i = Some (flagged positions zone)).
  { rewrite Hzones, lookup_app_r by (rewrite length_fmap, length_take; lia).
    rewrite length_fmap, length_take, Nat.min_l, Nat.sub_diag by lia.
    by rewrite list_lookup_fmap, lookup_drop, Nat.add_0_r, Hzone. }
  rewrite Hi. cbn [found flagged]. rewrite Hr.
  assert (Htake : take (S i) zs = take i zs ++ [zone]) by (by apply take_S_r).
  assert (Hdrop : drop i zs = zone :: drop (S i) zs) by (by apply drop_S).
  change (inZone r (flagged positions zone)) with (inZone r zone).
  destruct (negb (entered positions zone) && inZone r zone) eqn:Htest.
  - apply andb_true_iff in Htest as [Hnew%negb_true_iff Hin].
    assert (Hzones1 : successZones (markFound i s)
              = (flagged (positions ++ [r]) <$> take (S i) zs)
                  ++ (flagged positions <$> drop (S i) zs)).
    { cbn [markFound successZones]. rewrite Hzones, Htake, Hdrop, fmap_app, <-app_assoc.
      rewrite alter_app_r_alt by (rewrite length_fmap, length_take; lia).
      rewrite length_fmap, length_take, Nat.min_l, Nat.sub_diag by lia.
      f_equal. rewrite !fmap_cons. cbn [alter list_alter fmap list_fmap app].
      f_equal. unfold flagged. cbn [zstart zend found].
      by rewrite entered_snoc, Hin, orb_true_r. }
    assert (Hcount1 : foundZonesCount (markFound i s)
              = (enteredCount (positions ++ [r]) (take (S i) zs)
                 + enteredCount positions (drop (S i) zs))%nat).
    { cbn [markFound foundZonesCount]. rewrite Hcount, Htake, Hdrop.
      rewrite enteredCount_app, !enteredCount_cons, entered_snoc, Hnew, Hin. cbn. lia. }
    destruct (elsewhere_unentered positions r i zone Hzone Hin) as [Hrest Hrest'].
    destruct (foundZonesCount (markFound i s) =? zones (config (markFound i s)))%nat.
    { split; [done|]. cbn. apply stop_cleared. }
    destruct (rotationCount (countRotation (markFound i s))
              >=? maxRotations (config (countRotation (markFound i s)))).
    { split; [done|]. cbn [handleGameOver gameState successZones foundZonesCount timer].
      split_and!; [apply showUnfoundZones_all | | apply stop_cleared].
      change (foundZonesCount (countRotation (markFound i s)))
        with (foundZonesCount (markFound i s)).
      rewrite Hcount1, <-Hrest', <-enteredCount_app, take_drop. done. }
    apply IH; [lia | done | done | done | exact Hzones1 | exact Hcount1].
  - assert (Hsame : entered (positions ++ [r]) zone = entered positions zone).
    { rewrite entered_snoc. destruct (entered positions zone); [done|].
      simpl in Htest. by rewrite Htest. }
    apply IH; [lia | done | done | done | |].
    + rewrite Hzones, Htake, Hdrop, fmap_app, <-app_assoc. f_equal.
      rewrite !fmap_cons. cbn [fmap list_fmap app]. f_equal.
      unfold flagged. by rewrite Hsame.
    + rewrite Hcount, Htake, Hdrop, enteredCount_app, !enteredCount_cons, Hsame.
      cbn. lia.
Qed.

Lemma step_following positions e s :
  following positions s → following (positions ++ position e s) (step e s).
Proof.
  intros [Hcfg Hst]. destruct (gameState s) eqn:Hstate; [done| | |].
  - (* playing *)
    destruct Hst as [Hzones Hcount].
    destruct e as [angle|angle| |now]; cbn [step position]; rewrite ?app_nil_r.
    + unfold startDrag. rewrite Hstate. cbn. split; [done|]. cbn. by rewrite ?Hstate.
    + unfold drag. rewrite Hstate. cbn [isPlaying negb]. rewrite orb_false_r, andb_true_r.
      destruct (isDragging s); cbn [negb];
        [|rewrite app_nil_r; split; [done|]; by rewrite ?Hstate].
      unfold rotateDial, checkSuccessZones. cbn [currentRotation successZones].
      match goal with |- context [checkFrom ?n ?i ?s0] =>
        destruct (checkFrom_dial n i s0) as [Hrot _];
        pose proof (checkFrom_following positions (currentRotation s0) n i s0) as Hloop
      end.
      rewrite Hrot. cbn [currentRotation] in *.
      destruct Hloop as [Hcfg' Hst'];
        [rewrite Hzones, length_fmap; lia | done | done | done
         | by rewrite take_0, drop_0 | by rewrite take_0, drop_0 |].
      split; [done|]. exact Hst'.
    + split; [done|]. cbn. by rewrite ?Hstate.
    + destruct (timerTick_cases now s) as [-> | [(r & tm & ->) | (r & tm & ->)]].
      * split; [done|]. by rewrite ?Hstate.
      * split; [done|]. cbn. by rewrite ?Hstate.
      * split; [done|]. cbn. split_and!; [apply showUnfoundZones_all | done | apply stop_cleared].
  - (* success *)
    assert (Hpos : position e s = []).
    { destruct e; cbn [position]; try done. rewrite Hstate. by rewrite andb_false_r. }
    rewrite Hpos, app_nil_r.
    destruct e as [angle|angle| |now]; cbn [step].
    + unfold startDrag. rewrite Hstate. cbn. split; [done|]. by rewrite ?Hstate.
    + unfold drag. rewrite Hstate. cbn. rewrite orb_true_r. split; [done|].
      by rewrite ?Hstate.
    + split; [done|]. cbn. by rewrite ?Hstate.
    + unfold timerTick. rewrite Hst. split; [done|]. by rewrite ?Hstate.
  - (* failure *)
    assert (Hpos : position e s = []).
    { destruct e; cbn [position]; try done. rewrite Hstate. by rewrite andb_false_r. }
    rewrite Hpos, app_nil_r. destruct Hst as (Hall & Hcount & Hoff).
    destruct e as [angle|angle| |now]; cbn [step].
    + unfold startDrag. rewrite Hstate. cbn. split; [done|]. by rewrite ?Hstate.
    + unfold drag. rewrite Hstate. cbn. rewrite orb_true_r. split; [done|].
      by rewrite ?Hstate.
    + split; [done|]. cbn. by rewrite ?Hstate.
    + unfold timerTick. rewrite Hoff. split; [done|]. by rewrite ?Hstate.
Qed.

Lemma run_following events : ∀ positions s,
  following positions s →
  following (positions ++ dialPositions events s) (run events s).
Proof.
  induction events as [|e events IH]; intros positions s Hs.
  { cbn. by rewrite app_nil_r. }
  cbn [dialPositions]. rewrite app_assoc.
  change (run (e :: events) s) with (run events (step e s)).
  apply IH, step_following; done.
Qed.

End Zones.

(** C10 — Take a session on generated zones that ends in failure, by
    the rotation budget or by the timer.  Every zone is then flagged
    found, and yet the completion reports [zonesFound] = the number of
    zones the player entered, that is the zones in which one of the dial
    positions checked during play lies, and [totalZones] =
    [config.zones]. *)
Theorem failure_metrics (cfg : Config) (ds ds' : list Z) (zs : list Zone)
        (duration now : Z) (host : Host) (events : list Event) :
  generateSuccessZones cfg ds = Some (zs, ds') →
  gameState (run events (mount cfg zs duration now host)) = failure →
  Forall (λ zone, found zone = true)
         (successZones (run events (mount cfg zs duration now host)))
  ∧ dispatchComplete false (run events (mount cfg zs duration now host))
    = Events.mkComplete false
        [("timeRemaining"%string,
          Events.VNum (timeLeft (run events (mount cfg zs duration now host))));
         ("zonesFound"%string,
          Events.VNum (Z.of_nat
            (enteredCount (dialPositions events (mount cfg zs duration now host)) zs)));
         ("totalZones"%string, Events.VNum (Z.of_nat (zones cfg)))].
Proof.
  intros Hgen Hfail.
  apply placeZones_spec in Hgen as (_ & Hok & Hapart);
    [| constructor | by intros i j a b _ Hi].
  assert (H0 : following cfg zs [] (mount cfg zs duration now host)).
  { split; [done|]. cbn. split.
    - clear Hapart Hfail. induction Hok as [|zone rest (_ & _ & _ & Hoff) _ IH]; [done|].
      rewrite fmap_cons, <-IH. f_equal. destruct zone. simpl in *. by subst.
    - clear. by induction zs. }
  destruct (run_following cfg zs Hok Hapart events [] _ H0) as [Hcfg Hst].
  rewrite Hfail in Hst. destruct Hst as (Hall & Hcount & _).
  split; [exact Hall|]. unfold dispatchComplete. rewrite Hcount, Hcfg. done.
Qed.

(** Two generated zones, [0, 10] and [175, 185], and a budget of one
    rotation: dragging the dial to 5 degrees enters the first zone and
    exhausts the budget; the completion reports one zone of two. *)
Lemma failure_metrics_witness :
  ∃ zs,
    generateSuccessZones (mkConfig 1 2) [0; 0; 0; 2 ^ 52] = Some (zs, [])
    ∧ dispatchComplete false
        (run [StartDrag (ofZ 0); Drag (ofZ 5)] (mount (mkConfig 1 2) zs 30000 0 (mkHost ∅ 1)))
      = Events.mkComplete false
          [("timeRemaining"%string, Events.VNum 30000);
           ("zonesFound"%string, Events.VNum 1);
           ("totalZones"%string, Events.VNum 2)].
Proof.
  eexists.
  match goal with |- ?g = Some (?zs, _) ∧ _ =>
    assert (Hgen : g = Some (zs, [])) by (vm_compute; reflexivity)
  end.
  split; [exact Hgen|].
  destruct (failure_metrics _ _ _ _ 30000 0 (mkHost ∅ 1)
              [StartDrag (ofZ 0); Drag (ofZ 5)] Hgen) as [_ Hdata];
    [by vm_compute|].
  rewrite Hdata. by vm_compute.
Defined.

End SafeCrackerFacts.

(** ** The presentation delay before a result is dispatched *)

Module DispatchFacts.
Import Utils CountdownFacts.

Inductive Minigame :=
| memory_sequence | circuit_solver | code_cracker | safe_cracker | thermite.

(** The delay each component passes to [setTimeout] in its
    [handleGameOver], in milliseconds. *)
Definition presentationDelay (m : Minigame) (won : bool) : Z :=
  match m with
  | memory_sequence | circuit_solver => 1500
  | code_cracker | safe_cracker => 2000
  | thermite => if won then 1500 else 2500
  end.

(** C4 — Ending a session stops its timer, enters the terminal state and
    schedules exactly one more call, the dispatch of the result, after a
    delay fixed by the minigame type: 1500 ms for Memory Sequence and
    Circuit Solver and 2000 ms for Code Cracker and Safe Cracker whatever
    the outcome, and for Thermite 1500 ms on success and 2500 ms on
    failure.  While that call is pending the puzzle handlers leave the
    session as it is (Safe Cracker's pointer-release handler only clears
    the dragging flag), but leaving is still accepted: [exit()] dispatches
    ['exit'] in the terminal state as in any other, and the page passes
    it, like a press of Escape, to the client script at once, which
    invokes the stored callback with [false] and no data. *)
Theorem presentation_delay :
  (∀ won s,
     MemorySequence.scheduled (MemorySequence.handleGameOver won s)
       = MemorySequence.scheduled s ++ [(presentationDelay memory_sequence won, won)]
     ∧ timerInterval (fst (MemorySequence.timer (MemorySequence.handleGameOver won s))) = None
     ∧ (∀ tile, MemorySequence.handleTileClick tile (MemorySequence.handleGameOver won s)
                = MemorySequence.handleGameOver won s)
     ∧ MemorySequence.exit (MemorySequence.handleGameOver won s)
       = (MemorySequence.handleGameOver won s, Events.DispatchExit))
  ∧ (∀ won s,
     CircuitSolver.scheduled (CircuitSolver.handleGameOver won s)
       = CircuitSolver.scheduled s ++ [(presentationDelay circuit_solver won, won)]
     ∧ timerInterval (fst (CircuitSolver.timer (CircuitSolver.handleGameOver won s))) = None
     ∧ (∀ row col, CircuitSolver.handlePieceClick row col (CircuitSolver.handleGameOver won s)
                   = Some (CircuitSolver.handleGameOver won s))
     ∧ CircuitSolver.exit (CircuitSolver.handleGameOver won s)
       = (CircuitSolver.handleGameOver won s, Events.DispatchExit))
  ∧ (∀ won s,
     CodeCracker.scheduled (CodeCracker.handleGameOver won s)
       = CodeCracker.scheduled s ++ [(presentationDelay code_cracker won, won)]
     ∧ timerInterval (fst (CodeCracker.timer (CodeCracker.handleGameOver won s))) = None
     ∧ (∀ position, CodeCracker.selectPosition position (CodeCracker.handleGameOver won s)
                    = CodeCracker.handleGameOver won s)
     ∧ (∀ color, CodeCracker.selectColor color (CodeCracker.handleGameOver won s)
                 = CodeCracker.handleGameOver won s)
     ∧ CodeCracker.submitGuess (CodeCracker.handleGameOver won s)
       = CodeCracker.handleGameOver won s
     ∧ CodeCracker.exit (CodeCracker.handleGameOver won s)
       = (CodeCracker.handleGameOver won s, Events.DispatchExit))
  ∧ (∀ won s,
     SafeCracker.scheduled (SafeCracker.handleGameOver won s)
       = SafeCracker.scheduled s ++ [(presentationDelay safe_cracker won, won)]
     ∧ timerInterval (fst (SafeCracker.timer (SafeCracker.handleGameOver won s))) = None
     ∧ (∀ angle, SafeCracker.startDrag angle (SafeCracker.handleGameOver won s)
                 = SafeCracker.handleGameOver won s)
     ∧ (∀ angle, SafeCracker.drag angle (SafeCracker.handleGameOver won s)
                 = SafeCracker.handleGameOver won s)
     ∧ SafeCracker.endDrag (SafeCracker.handleGameOver won s)
       = SafeCracker.handleGameOver won (SafeCracker.endDrag s)
     ∧ (∀ now, SafeCracker.timerTick now (SafeCracker.handleGameOver won s)
               = SafeCracker.handleGameOver won s)
     ∧ SafeCracker.exit (SafeCracker.handleGameOver won s)
       = (SafeCracker.handleGameOver won s, Events.DispatchExit))
  ∧ (∀ won s,
     Thermite.scheduled (Thermite.handleGameOver won s)
       = Thermite.scheduled s ++ [(presentationDelay thermite won, won)]
     ∧ timerInterval (fst (Thermite.timer (Thermite.handleGameOver won s))) = None
     ∧ (∀ row col, Thermite.handleCellClick row col (Thermite.handleGameOver won s)
                   = Thermite.handleGameOver won s)
     ∧ Thermite.exit (Thermite.handleGameOver won s)
       = (Thermite.handleGameOver won s, Events.DispatchExit))
  ∧ (∀ m won, 1500 ≤ presentationDelay m won ≤ 2500)
  ∧ (∀ page script,
       App.active page = true →
       App.handleKeydown "Escape" page
         = (Some (fst (App.onDispatch Events.DispatchExit page)),
            snd (App.onDispatch Events.DispatchExit page))
       ∧ snd (App.onDispatch Events.DispatchExit page) = App.mkState false "" None
       ∧ Client.serve (App.deliver (fst (App.onDispatch Events.DispatchExit page))) script
         = ([Client.SetNuiFocus false false]
              ++ Client.invokeCallback (Client.minigameCallback script) false []
              ++ [Client.Reply "ok"],
            Client.mkState false (Client.minigameResult script)
                           (Client.minigameCallback script))).
Proof.
  assert (Hstop : ∀ tm, timerInterval (fst (stop tm)) = None)
    by (by intros [[st d [h|]] host]).
  split_and!.
  - intros won s. split_and!; [done | apply Hstop | by destruct won |].
    unfold MemorySequence.exit. cbn. by rewrite stop_idempotent.
  - intros won s. split_and!; [done | apply Hstop | by destruct won |].
    unfold CircuitSolver.exit. cbn. by rewrite stop_idempotent.
  - intros won s. split_and!; [done | apply Hstop | by destruct won.. |].
    unfold CodeCracker.exit. cbn. by rewrite stop_idempotent.
  - intros won s. split_and!; [done | apply Hstop | by destruct won | | done | |].
    + intros angle. unfold SafeCracker.drag. destruct won; simpl; by rewrite orb_true_r.
    + intros now. unfold SafeCracker.timerTick. simpl. by rewrite Hstop.
    + unfold SafeCracker.exit. cbn. by rewrite stop_idempotent.
  - intros won s. split_and!; [by destruct won | apply Hstop | by destruct won |].
    unfold Thermite.exit. cbn. by rewrite stop_idempotent.
  - intros [] []; simpl; lia.
  - intros page script Hactive. split_and!; [|done..].
    unfold App.handleKeydown. by rewrite Hactive.
Qed.

(** A Code Cracker session that was won at the first guess, its result
    still to be dispatched. *)
Definition wonCode : CodeCracker.Game :=
  CodeCracker.handleGameOver true
    (CodeCracker.startGame 0
       (CodeCracker.resetGame (CodeCracker.mkConfig 4 6)
          ["#FF5252"; "#2196F3"; "#4CAF50"; "#4CAF50"]%string
          (new 0 30000, mkHost ∅ 1) 30000)).

(** A Safe Cracker session of one zone, won in the middle of a drag. *)
Definition wonSafe : SafeCracker.Game :=
  SafeCracker.run [SafeCracker.StartDrag (ofZ 0); SafeCracker.Drag (ofZ 15)]
    (SafeCracker.mount (SafeCracker.mkConfig 3 1) [SafeCracker.mkZone 10 20 false]
                       30000 0 (mkHost ∅ 1)).

(** Code Cracker dispatches a success after 2000 ms, and Circuit Solver a
    failure after 1500 ms.  While the won Code Cracker session waits for
    its dispatch, Exit is accepted, and the callback stored by the script
    is told of a failure without any delay; and while the won Safe
    Cracker session waits, releasing the pointer changes it. *)
Lemma delay_and_input_differ :
  CodeCracker.scheduled wonCode = [(2000, true)]
  ∧ CircuitSolver.scheduled
      (CircuitSolver.handleGameOver false
         (CircuitSolver.mkGame CircuitSolver.playing 0
            [[Some (CircuitSolver.createPiece CircuitSolver.source 0);
              Some (CircuitSolver.createPiece CircuitSolver.destination 180)]]
            (start 0 (new 0 30000, mkHost ∅ 1)) (0%nat, 0%nat) (0%nat, 1%nat) []))
    = [(1500, false)]
  ∧ CodeCracker.gameState wonCode = CodeCracker.success
  ∧ fst (Client.serve
           (App.deliver (fst (App.onDispatch (snd (CodeCracker.exit wonCode))
                                (App.mkState true "code_cracker" None))))
           (Client.mkState true None (Some 7%nat)))
    = [Client.SetNuiFocus false false; Client.Invoke 7 false []; Client.Reply "ok"]
  ∧ SafeCracker.gameState wonSafe = SafeCracker.success
  ∧ SafeCracker.scheduled wonSafe = [(2000, true)]
  ∧ SafeCracker.isDragging wonSafe = true
  ∧ SafeCracker.isDragging (SafeCracker.endDrag wonSafe) = false.
Proof. split_and!; by vm_compute. Qed.

End DispatchFacts.

(** ** The countdown: starting twice *)

Module TimerLeakFacts.
Import Utils CountdownFacts.

Lemma ticks_leaked h clock t host :
  timerInterval t = None → h ∈ live host →
  Forall (λ now, startTime t + duration t ≤ now) clock →
  ticks h clock (t, host) = (clock ≫= (λ _, [onUpdate 0; onComplete]), (t, host)).
Proof.
  intros Hidle Hlive. induction 1 as [|now clock Hnow _ IH]; [done|].
  cbn [ticks mbind list_bind]. unfold tick. cbn [fst snd].
  rewrite decide_True by done.
  replace (Z.max 0 (duration t - (now - startTime t))) with 0 by lia.
  cbn [Z.leb Z.compare]. unfold stop at 1. rewrite Hidle.
  fold (clock ≫= (λ _ : Z, [onUpdate 0; onComplete])).
  rewrite IH. done.
Qed.

Lemma completions_leaked (clock : list Z) :
  completions (clock ≫= (λ _, [onUpdate 0; onComplete])) = length clock.
Proof.
  induction clock as [|now clock IH]; [done|].
  cbn [mbind list_bind]. fold (clock ≫= (λ _ : Z, [onUpdate 0; onComplete])).
  rewrite completions_app, IH. done.
Qed.

(** X6 — Starting a timer that is already running leaks the first
    interval.  [start()] overwrites the stored handle without clearing
    it, so [stop()] afterwards clears the second interval only: the timer
    says it is not running, yet the first interval is still live, and
    once the duration has passed every firing of it reports 0 and calls
    the completion callback again. *)
Theorem double_start_leaks (d now0 now1 now2 : Z) (host : Host) (clock : list Z) :
  Forall (λ now, now2 + d ≤ now) clock →
  let s := stop (start now2 (start now1 (new now0 d, host))) in
  isRunning (fst s) = false
  ∧ nextHandle host ∈ live (snd s)
  ∧ fst (ticks (nextHandle host) clock s)
    = clock ≫= (λ _, [onUpdate 0; onComplete])
  ∧ completions (fst (ticks (nextHandle host) clock s)) = length clock.
Proof.
  intros Hclock. cbv zeta. cbn.
  assert (Hlive : nextHandle host ∈
            ({[(nextHandle host + 1)%positive]} ∪ ({[nextHandle host]} ∪ live host))
              ∖ {[(nextHandle host + 1)%positive]}).
  { apply elem_of_difference. split; [set_solver|].
    rewrite elem_of_singleton. lia. }
  rewrite ticks_leaked by done.
  split_and!; [done | done | done | apply completions_leaked].
Qed.

Lemma double_start_leaks_witness :
  completions (fst (ticks 1%positive [5100; 5110; 5120]
                      (stop (start 100 (start 50 (new 0 5000, mkHost ∅ 1%positive))))))
  = 3%nat.
Proof.
  apply (double_start_leaks 5000 0 50 100 (mkHost ∅ 1%positive) [5100; 5110; 5120]).
  repeat constructor; lia.
Defined.

End TimerLeakFacts.

(** ** shuffleArray *)

Module ShuffleFacts.
Import Utils RandFacts.

Lemma floorRandom_range n ds j ds' :
  0 < n → floorRandom n ds = Some (j, ds') →
  0 ≤ j < n ∧ ∃ k, ds = k :: ds'.
Proof.
  intros Hn. unfold floorRandom, bind, Math_random, ret.
  destruct ds as [|k ds0]; [done|]. intros [= <- <-]. split; [|by eexists].
  pose proof (Z.mod_pos_bound k resolution ltac:(done)) as Hk.
  split.
  - apply Z.div_pos; [|done]. apply Z.mul_nonneg_nonneg; lia.
  - apply Z.div_lt_upper_bound; [done|]. nia.
Qed.

Lemma swap_length {T} (l : list T) i j : length (swap l i j) = length l.
Proof.
  unfold swap. destruct (l !! j), (l !! i); try done.
  by rewrite !length_insert.
Qed.

Lemma swap_lookup {T} (l : list T) i j n :
  (i < length l)%nat → (j < length l)%nat →
  swap l i j !! n = l !! (if decide (n = i) then j else if decide (n = j) then i else n).
Proof.
  intros Hi Hj. unfold swap.
  destruct (lookup_lt_is_Some_2 l i Hi) as [ai Hai].
  destruct (lookup_lt_is_Some_2 l j Hj) as [aj Haj].
  rewrite Hai, Haj.
  destruct (decide (n = j)) as [->|Hnj].
  - rewrite list_lookup_insert_eq by (by rewrite length_insert).
    destruct (decide (j = i)) as [->|]; [|done]. congruence.
  - rewrite list_lookup_insert_ne by done.
    destruct (decide (n = i)) as [->|Hni].
    + by rewrite list_lookup_insert_eq.
    + by rewrite list_lookup_insert_ne.
Qed.

Lemma swap_Permutation {T} (l : list T) i j :
  (i < length l)%nat → (j < length l)%nat → swap l i j ≡ₚ l.
Proof.
  intros Hi Hj. apply Permutation_inj. split; [apply swap_length|].
  exists (λ n, if decide (n = i) then j else if decide (n = j) then i else n).
  split.
  - intros a b. repeat case_decide; intros; subst; congruence.
  - intros n. by apply swap_lookup.
Qed.

Lemma shuffleFrom_spec {T} i : ∀ (l : list T) ds,
  (i < length l)%nat ∨ i = 0%nat → (i ≤ length ds)%nat →
  ∃ out, shuffleFrom i l ds = Some (out, drop i ds) ∧ out ≡ₚ l.
Proof.
  induction i as [|i IH]; intros l ds Hi Hds.
  { exists l. by rewrite drop_0. }
  destruct Hi as [Hi|]; [|done].
  destruct ds as [|k ds0]; [simpl in Hds; lia|].
  cbn [shuffleFrom]. unfold bind at 1.
  destruct (floorRandom (Z.of_nat (S i) + 1) (k :: ds0)) as [[j ds1]|] eqn:Hj.
  2:{ by unfold floorRandom, bind, Math_random in Hj. }
  apply floorRandom_range in Hj as [Hrange (k' & Hk')]; [|lia].
  injection Hk' as _ <-.
  destruct (IH (swap l (S i) (Z.to_nat j)) ds0) as (out & Hrun & Hperm).
  - left. rewrite swap_length. lia.
  - simpl in Hds. lia.
  - exists out. split; [done|]. rewrite Hperm. apply swap_Permutation; lia.
Qed.

(** X7 — Given at least [length - 1] draws, [shuffleArray] returns a
    rearrangement of its argument (the same elements with the same
    multiplicities), having used exactly [length - 1] draws, and none
    for an empty array. *)
Theorem shuffleArray_permutation {T} (array : list T) (ds : list Z) :
  (length array - 1 ≤ length ds)%nat →
  ∃ out, shuffleArray array ds = Some (out, drop (length array - 1) ds)
         ∧ out ≡ₚ array.
Proof.
  intros Hds. unfold shuffleArray. apply shuffleFrom_spec; [|done].
  destruct array; simpl; lia.
Qed.

Lemma shuffleArray_permutation_witness :
  ∃ out, shuffleArray [10; 20; 30; 40] [2 ^ 52; 0; 2 ^ 53 - 1; 7]
         = Some (out, [7]) ∧ out ≡ₚ [10; 20; 30; 40].
Proof.
  apply (shuffleArray_permutation [10; 20; 30; 40] [2 ^ 52; 0; 2 ^ 53 - 1; 7]).
  simpl. lia.
Defined.

End ShuffleFacts.

(** ** Safe Cracker: the rotation budget, the capacity of the dial, the trail *)

Module SafeBudgetFacts.
Import Utils SafeCracker SafeCrackerFacts CommonFacts.
Import PrimFloat.

(** While a session is playing, the rotation counter equals the found
    counter (both are bumped by the same branch of [checkSuccessZones]),
    and it is below the budget as soon as one zone has been found. *)
Definition within (s : Game) : Prop :=
  rotationCount s = Z.of_nat (foundZonesCount s)
  ∧ (foundZonesCount s = 0%nat ∨ rotationCount s < maxRotations (config s)).

(** A configuration in which the last zone can be reached. *)
Definition affordable (cfg : Config) : Prop :=
  zones cfg = 1%nat ∨ Z.of_nat (zones cfg) ≤ maxRotations cfg.

Definition settled (cfg : Config) (s : Game) : Prop :=
  config s = cfg
  ∧ match gameState s with
    | playing => within s
    | success =>
        affordable cfg ∧ foundZonesCount s = zones cfg
        ∧ timerInterval (fst (timer s)) = None ∧ scheduled s = [(2000, true)]
    | failure => timerInterval (fst (timer s)) = None
    | idle => False
    end.

Lemma checkFrom_settled n : ∀ i s,
  gameState s = playing → within s → scheduled s = [] →
  settled (config s) (checkFrom n i s) ∧
  (gameState (checkFrom n i s) = playing → scheduled (checkFrom n i s) = []).
Proof.
  induction n as [|n IH]; intros i s Hplay Hin Hsch.
  { cbn [checkFrom]. split; [split; [done|by rewrite Hplay] | done]. }
  cbn [checkFrom]. destruct (successZones s !! i) as [zone|] eqn:Hzone.
  2:{ split; [split; [done|by rewrite Hplay] | done]. }
  destruct (negb (found zone) && inZone (currentRotation s) zone) eqn:Hhit;
    [|by apply IH].
  destruct Hin as [Hrc Hlow].
  destruct (foundZonesCount (markFound i s) =? zones (config (markFound i s)))%nat eqn:Hall.
  { apply Nat.eqb_eq in Hall. cbn in Hall. split; [|done].
    split; [done|]. cbn. split_and!; [| done | apply stop_cleared | by rewrite Hsch].
    unfold affordable. destruct Hlow as [Hz|Hlt]; [left; lia | right; lia]. }
  destruct (rotationCount (countRotation (markFound i s))
            >=? maxRotations (config (countRotation (markFound i s)))) eqn:Hout.
  { split; [|done]. split; [done|]. cbn. apply stop_cleared. }
  apply (IH (S i) (countRotation (markFound i s))); [done | | done].
  cbn in Hout |- *. split; cbn; [lia|]. right. lia.
Qed.

Lemma step_settled cfg e s :
  settled cfg s → (gameState s = playing → scheduled s = []) →
  settled cfg (step e s) ∧ (gameState (step e s) = playing → scheduled (step e s) = []).
Proof.
  intros [Hcfg Hst] Hsch. destruct (gameState s) eqn:Hplay; [done| | |].
  - (* playing *)
    specialize (Hsch eq_refl).
    destruct e as [angle|angle| |now]; cbn [step].
    + unfold startDrag. rewrite Hplay. cbn. split; [split; [done|]|done]. cbn.
      exact Hst.
    + unfold drag. rewrite Hplay. cbn. destruct (isDragging s); cbn.
      2:{ split; [split; [done|by rewrite Hplay]|done]. }
      unfold rotateDial, checkSuccessZones.
      match goal with |- context [checkFrom ?n ?i ?s0] =>
        destruct (checkFrom_settled n i s0 Hplay Hst Hsch) as [[Hc Hr] Hs];
        destruct (checkFrom n i s0) as [cfg' st' tl' tm' cr' rc' dr' pa' sz' fc' dh' sc']
      end.
      cbn in Hc, Hr, Hs |- *.
      split; [split; cbn; [congruence|]|done]. rewrite <-Hcfg.
      unfold settled in Hr. cbn in Hr.
      destruct st'; try done.
    + split; [split; [done|]|done]. cbn. by rewrite Hplay.
    + destruct (timerTick_cases now s) as [-> | [(r & tm & ->) | (r & tm & ->)]].
      * split; [split; [done|by rewrite Hplay]|done].
      * split; [split; [done|]|]; cbn; by rewrite ?Hplay.
      * split; [split; [done|]|done]. cbn. apply stop_cleared.
  - (* success *)
    assert (Hsame : step e s = s ∨ step e s = endDrag s).
    { destruct e as [angle|angle| |now]; cbn [step].
      - left. unfold startDrag. by rewrite Hplay.
      - left. unfold drag. rewrite Hplay. cbn. by rewrite orb_true_r.
      - by right.
      - left. unfold timerTick. by destruct Hst as (_ & _ & -> & _). }
    destruct Hsame as [->| ->].
    + split; [split; [done|by rewrite Hplay] | by rewrite Hplay].
    + split; [split; [done|]|]; cbn; by rewrite ?Hplay.
  - (* failure *)
    assert (Hsame : step e s = s ∨ step e s = endDrag s).
    { destruct e as [angle|angle| |now]; cbn [step].
      - left. unfold startDrag. by rewrite Hplay.
      - left. unfold drag. rewrite Hplay. cbn. by rewrite orb_true_r.
      - by right.
      - left. unfold timerTick. by rewrite Hst. }
    destruct Hsame as [->| ->].
    + split; [split; [done|by rewrite Hplay] | by rewrite Hplay].
    + split; [split; [done|]|]; cbn; by rewrite ?Hplay.
Qed.

Lemma run_settled cfg events : ∀ s,
  settled cfg s → (gameState s = playing → scheduled s = []) →
  settled cfg (run events s).
Proof.
  induction events as [|e events IH]; intros s Hs Hsch; [done|].
  cbn. destruct (step_settled cfg e s Hs Hsch) as [H1 H2]. by apply IH.
Qed.

Lemma mount_settled cfg zs duration now host :
  settled cfg (mount cfg zs duration now host).
Proof. split; [done|]. cbn. split; [done | by left]. Qed.

(** X8 — A Safe Cracker session can end in success only if the
    configuration has a single zone or a rotation budget of at least the
    number of zones: every zone found before the last one uses up one
    rotation, and the session fails as soon as the budget is reached.  On
    success the found counter equals [config.zones] and one completion is
    scheduled. *)
Theorem win_needs_rotation_budget (cfg : Config) (zs : list Zone) (duration now : Z)
        (host : Host) (events : list Event) :
  gameState (run events (mount cfg zs duration now host)) = success →
  (zones cfg = 1%nat ∨ Z.of_nat (zones cfg) ≤ maxRotations cfg)
  ∧ foundZonesCount (run events (mount cfg zs duration now host)) = zones cfg
  ∧ scheduled (run events (mount cfg zs duration now host)) = [(2000, true)].
Proof.
  intros Hwin.
  destruct (run_settled cfg events (mount cfg zs duration now host)
              (mount_settled _ _ _ _ _) (λ _, eq_refl)) as [_ H].
  rewrite Hwin in H. by destruct H as (? & ? & _ & ?).
Qed.

Lemma win_needs_rotation_budget_witness :
  gameState (run [StartDrag (ofZ 0); Drag (ofZ 15); Drag (ofZ 105)]
               (mount (mkConfig 2 2) [mkZone 10 20 false; mkZone 100 110 false]
                      30000 0 (mkHost ∅ 1))) = success
  ∧ (2 = 1 ∨ 2 ≤ 2).
Proof.
  assert (Hwin : gameState (run [StartDrag (ofZ 0); Drag (ofZ 15); Drag (ofZ 105)]
               (mount (mkConfig 2 2) [mkZone 10 20 false; mkZone 100 110 false]
                      30000 0 (mkHost ∅ 1))) = success) by (vm_compute; reflexivity).
  split; [exact Hwin|].
  destruct (win_needs_rotation_budget (mkConfig 2 2)
              [mkZone 10 20 false; mkZone 100 110 false] 30000 0 (mkHost ∅ 1)
              [StartDrag (ofZ 0); Drag (ofZ 15); Drag (ofZ 105)] Hwin) as [[H|H] _].
  - left. cbn in H. lia.
  - right. exact H.
Defined.

(** *** How many zones fit on the dial *)

(** The whole degrees a zone covers. *)
Definition degrees (z : Zone) : list Z := seqZ (zstart z) (zend z - zstart z + 1).

Lemma degrees_elem z x : x ∈ degrees z ↔ zstart z ≤ x ≤ zend z.
Proof. unfold degrees. rewrite elem_of_seqZ. lia. Qed.

Lemma pairwiseApart_cons a zs :
  pairwiseApart (a :: zs) → Forall (apart a) zs ∧ pairwiseApart zs.
Proof.
  intros H. split.
  - apply Forall_lookup. intros i b Hb. by apply (H 0%nat (S i) a b).
  - intros i j x y Hne Hx Hy. apply (H (S i) (S j) x y); [lia | done | done].
Qed.

Lemma degrees_cover zs :
  Forall wellPlaced zs → pairwiseApart zs →
  NoDup (zs ≫= degrees)
  ∧ Forall (λ x, 0 ≤ x < 361) (zs ≫= degrees)
  ∧ (11 * length zs ≤ length (zs ≫= degrees))%nat.
Proof.
  induction zs as [|a zs IH]; intros Hok Hap.
  { split_and!; [constructor | constructor | simpl; lia]. }
  apply Forall_cons in Hok as [(Hlo & Hhi & Hw & _) Hok].
  apply pairwiseApart_cons in Hap as [Ha Hap].
  destruct (IH Hok Hap) as (Hnd & Hin & Hlen). cbn [mbind list_bind].
  fold (zs ≫= degrees). unfold TOTAL_DEGREES, MIN_ZONE_SIZE, MAX_ZONE_SIZE in *.
  split_and!.
  - apply NoDup_app. split_and!; [apply NoDup_seqZ | | done].
    intros x Hx Hx'. apply degrees_elem in Hx.
    apply list_elem_of_bind in Hx' as (b & Hxb & Hb). apply degrees_elem in Hxb.
    pose proof (proj1 (Forall_forall _ _) Ha b Hb) as Hab. unfold apart in Hab. lia.
  - apply Forall_app. split; [|done]. apply Forall_forall. intros x Hx.
    apply degrees_elem in Hx. lia.
  - rewrite length_app. unfold degrees at 1. rewrite length_seqZ. simpl. lia.
Qed.

(** X9 — No more than 32 zones fit: a zone covers at least eleven whole
    degrees, zones share none, and the dial has 361 of them.  So for a
    configuration of 33 zones or more [generateSuccessZones] does not
    return: whatever draws it is given, it is still looking for a free
    position when they run out. *)
Theorem generateSuccessZones_capacity (cfg : Config) (ds : list Z) :
  (33 ≤ zones cfg)%nat → generateSuccessZones cfg ds = None.
Proof.
  intros Hmany.
  destruct (generateSuccessZones cfg ds) as [[zs ds']|] eqn:Hrun; [|done].
  apply placeZones_spec in Hrun as (Hlen & Hok & Hap);
    [| constructor | by intros i j a b _ Hi].
  destruct (degrees_cover zs Hok Hap) as (Hnd & Hin & Hcount).
  pose proof (bounded_NoDup_length _ _ Hnd Hin). simpl in Hlen. lia.
Qed.

Lemma generateSuccessZones_capacity_witness :
  generateSuccessZones (mkConfig 40 33) [0; 0; 2 ^ 52; 2 ^ 52; 7; 2 ^ 53 - 1] = None.
Proof. apply generateSuccessZones_capacity. simpl. lia. Defined.

(** *** The dial trail *)






(** The rotation itself is a rounded sum.  It is not confined to
    [0, 360): a drag that leaves the sum a hair below zero makes the
    dial read exactly 360, where a zone ending at 360 is still entered. *)
Lemma dial_may_read_360 :
  currentRotation
    (run [StartDrag 0x1p-50%float; Drag (ofZ 0)]
       (mount (mkConfig 3 1) [mkZone 350 360 false] 30000 0 (mkHost ∅ 1)))
  = ofZ 360
  ∧ gameState
      (run [StartDrag 0x1p-50%float; Drag (ofZ 0)]
         (mount (mkConfig 3 1) [mkZone 350 360 false] 30000 0 (mkHost ∅ 1)))
    = success.
Proof. split; vm_compute; reflexivity. Qed.

End SafeBudgetFacts.

(** ** Memory Sequence: generation and the session *)

Module MemoryFacts.
Import Utils MemorySequence RandFacts CommonFacts.

(** *** The tile numbers *)

Lemma row_numbers size a :
  (λ j, Z.of_nat a * Z.of_nat size + Z.of_nat j) <$> seq 0 size
  = Z.of_nat <$> seq (a * size) size.
Proof.
  replace (seq (a * size) size) with (Nat.add (a * size) <$> seq 0 size)
    by (rewrite fmap_add_seq; f_equal; lia).
  rewrite <-list_fmap_compose. apply list_fmap_ext. intros _ j _. simpl. lia.
Qed.

Lemma grid_numbers size n : ∀ a,
  concat ((λ i, (λ j, Z.of_nat i * Z.of_nat size + Z.of_nat j) <$> seq 0 size)
            <$> seq a n)
  = Z.of_nat <$> seq (a * size) (n * size).
Proof.
  induction n as [|n IH]; intros a; [done|].
  cbn [seq fmap list_fmap concat]. rewrite row_numbers, (IH (S a)).
  replace (S n * size)%nat with (size + n * size)%nat by lia.
  rewrite seq_app, fmap_app. do 3 f_equal. lia.
Qed.

(** X11 — [generateGrid] numbers the tiles row by row: read in row order
    the grid is 0, 1, ..., gridSize² - 1, every number once; and these
    are exactly the numbers for which a tile element exists. *)
Theorem generateGrid_numbers (cfg : Config) :
  concat (generateGrid cfg) = Z.of_nat <$> seq 0 (gridSize cfg * gridSize cfg)
  ∧ NoDup (concat (generateGrid cfg))
  ∧ ∀ n, n ∈ concat (generateGrid cfg) ↔ tileExists cfg n = true.
Proof.
  assert (H : concat (generateGrid cfg) = Z.of_nat <$> seq 0 (gridSize cfg * gridSize cfg)).
  { unfold generateGrid. by rewrite (grid_numbers _ _ 0). }
  rewrite H. split_and!; [done | |].
  - apply NoDup_fmap_2; [apply Nat2Z.inj' | apply NoDup_seq].
  - intros n. rewrite list_elem_of_fmap. unfold tileExists.
    rewrite andb_true_iff, Z.leb_le, Z.ltb_lt. split.
    + intros (k & -> & Hk). apply elem_of_seq in Hk. lia.
    + intros [H0 Hn]. exists (Z.to_nat n). split; [lia|]. apply elem_of_seq. lia.
Qed.

(** *** The sequence *)

Lemma retryNum_spec fuel totalCells sequence ds v ds' :
  1 ≤ totalCells →
  retryNum fuel totalCells sequence ds = Some (v, ds') →
  0 ≤ v < totalCells ∧ v ∉ sequence.
Proof.
  intros Htotal. revert ds. induction fuel as [|fuel IH]; intros ds; [done|].
  cbn [retryNum]. unfold bind at 1.
  destruct (getRandomInt 0 (totalCells - 1) ds) as [[num ds1]|] eqn:Hdraw; [|done].
  apply getRandomInt_range in Hdraw; [|lia].
  case_bool_decide as Hin.
  - apply IH.
  - intros [= <- <-]. split; [lia | done].
Qed.

Lemma extendSequence_spec n totalCells : ∀ sequence ds out ds',
  1 ≤ totalCells →
  extendSequence n totalCells sequence ds = Some (out, ds') →
  NoDup sequence → Forall (λ v, 0 ≤ v < totalCells) sequence →
  length out = (length sequence + n)%nat ∧ NoDup out
  ∧ Forall (λ v, 0 ≤ v < totalCells) out.
Proof.
  induction n as [|n IH]; intros sequence ds out ds' Htotal Hrun Hnd Hin.
  - injection Hrun as <- <-. split_and!; [lia | done | done].
  - cbn [extendSequence] in Hrun. unfold bind at 1, pickNum in Hrun.
    destruct (retryNum (length ds) totalCells sequence ds) as [[num ds1]|] eqn:Hnum;
      [|done].
    apply retryNum_spec in Hnum as [Hrange Hfresh]; [|done].
    apply IH in Hrun as (Hlen & Hnd' & Hin'); [|done| |].
    + rewrite length_app in Hlen. simpl in Hlen. split_and!; [lia | done | done].
    + apply NoDup_app. split_and!; [done | | apply NoDup_singleton].
      intros x Hx ->%list_elem_of_singleton. done.
    + apply Forall_app. split; [done|]. apply Forall_singleton. lia.
Qed.

(** X12 — A sequence that [generateSequence] returns for a grid of at
    least one cell has [sequenceLength] entries, no entry twice, and
    every entry is the number of an existing tile. *)
Theorem generateSequence_distinct (cfg : Config) (ds ds' : list Z) (sequence : list Z) :
  (1 ≤ gridSize cfg)%nat →
  generateSequence cfg ds = Some (sequence, ds') →
  length sequence = sequenceLength cfg
  ∧ NoDup sequence
  ∧ Forall (λ n, tileExists cfg n = true) sequence.
Proof.
  intros Hsize Hrun. apply extendSequence_spec in Hrun as (Hlen & Hnd & Hin);
    [| nia | constructor | constructor].
  split_and!; [done | done |]. eapply Forall_impl; [exact Hin|].
  intros v Hv. unfold tileExists. simpl in Hv.
  rewrite andb_true_iff, Z.leb_le, Z.ltb_lt. lia.
Qed.

Lemma generateSequence_distinct_witness :
  generateSequence (mkConfig 3 4) [0; 1; 2 ^ 52; 2 ^ 52; 2 ^ 53 - 1; 2 ^ 51]
  = Some ([0; 4; 8; 2], [])
  ∧ NoDup [0; 4; 8; 2].
Proof.
  assert (Hrun : generateSequence (mkConfig 3 4) [0; 1; 2 ^ 52; 2 ^ 52; 2 ^ 53 - 1; 2 ^ 51]
                 = Some ([0; 4; 8; 2], [])) by (by vm_compute).
  split; [exact Hrun|].
  exact (proj1 (proj2 (generateSequence_distinct (mkConfig 3 4) _ _ _ ltac:(simpl; lia) Hrun))).
Defined.

(** X13 — When [sequenceLength] exceeds the number of cells,
    [generateSequence] does not return: whatever draws it is given, it is
    still looking for an unused number when they run out. *)
Theorem generateSequence_too_long (cfg : Config) (ds : list Z) :
  (1 ≤ gridSize cfg)%nat →
  (gridSize cfg * gridSize cfg < sequenceLength cfg)%nat →
  generateSequence cfg ds = None.
Proof.
  intros Hsize Hlong.
  destruct (generateSequence cfg ds) as [[sequence ds']|] eqn:Hrun; [|done].
  apply extendSequence_spec in Hrun as (Hlen & Hnd & Hin);
    [| nia | constructor | constructor].
  pose proof (bounded_NoDup_length _ _ Hnd Hin). simpl in Hlen. nia.
Qed.

Lemma generateSequence_too_long_witness :
  generateSequence (mkConfig 1 2) [0; 5; 2 ^ 52; 9; 2 ^ 53 - 1] = None.
Proof. apply generateSequence_too_long; simpl; lia. Defined.

(** *** The session *)

(** What a session holds in each state: during input the player's
    clicks so far are a correct prefix of the sequence; a success has
    repeated all of it; a failure holds a correct prefix, followed by the
    wrong tile unless the timer ended the session. *)
Definition tracked (seq0 : list Z) (s : Game) : Prop :=
  sequence s = seq0
  ∧ match gameState s with
    | observing =>
        playerSequence s = [] ∧ currentIndex s = 0%nat ∧ scheduled s = []
    | input =>
        playerSequence s = take (currentIndex s) seq0
        ∧ ((currentIndex s < length seq0)%nat ∨ (seq0 = [] ∧ currentIndex s = 0%nat))
        ∧ scheduled s = []
    | success =>
        playerSequence s = seq0 ∧ seq0 ≠ []
        ∧ timerInterval (fst (timer s)) = None ∧ scheduled s = [(1500, true)]
    | failure =>
        (playerSequence s = take (currentIndex s) seq0
         ∨ ∃ wrong, playerSequence s = take (currentIndex s) seq0 ++ [wrong]
                    ∧ seq0 !! currentIndex s ≠ Some wrong)
        ∧ timerInterval (fst (timer s)) = None ∧ scheduled s = [(1500, false)]
    | idle => False
    end.

Lemma memory_click_tracked seq0 n s : tracked seq0 s → tracked seq0 (handleTileClick n s).
Proof.
  intros Hs. pose proof Hs as (Hseq & Hst). unfold handleTileClick.
  destruct (gameState s) eqn:Hstate; cbn [isInput negb]; try done.
  destruct (tileExists (config s) n); cbn [negb]; [|done].
  destruct Hst as (Hps & Hidx & Hsch). cbn [sequence currentIndex].
  case_bool_decide as Hhit.
  - rewrite Hseq in Hhit.
    assert (Hlt : (currentIndex s < length seq0)%nat) by (by eapply lookup_lt_Some).
    assert (Hps' : playerSequence s ++ [n] = take (S (currentIndex s)) seq0).
    { by rewrite (take_S_r _ _ _ Hhit), Hps. }
    rewrite Hseq. destruct (S (currentIndex s) =? length seq0)%nat eqn:Hall.
    + apply Nat.eqb_eq in Hall. split; [done|]. cbn.
      split_and!; [| | apply stop_cleared | by rewrite Hsch].
      * rewrite Hps', Hall. apply take_ge. lia.
      * intros E. rewrite E in Hlt. simpl in Hlt. lia.
    + apply Nat.eqb_neq in Hall. split; [done|]. cbn.
      split_and!; [done | left; lia | done].
  - split; [done|]. cbn. split_and!; [| apply stop_cleared | by rewrite Hsch].
    right. exists n. rewrite Hps. split; [done|]. by rewrite <-Hseq.
Qed.

Lemma memory_tick_tracked seq0 now s : tracked seq0 s → tracked seq0 (timerTick now s).
Proof.
  intros Hs. pose proof Hs as (Hseq & Hst). unfold timerTick.
  destruct (timerInterval (fst (timer s))) as [h|] eqn:Hh; [|done].
  unfold tick. destruct (decide (h ∈ live (snd (timer s)))); [|by destruct s].
  destruct (Z.max 0 _ <=? 0); cbn [foldl onTimer withTimer gameState].
  2:{ split; [done|]. cbn. by destruct Hs as (_ & H). }
  destruct (gameState s) eqn:Hstate; [done| | | |].
  - destruct Hst as (Hps & Hidx & Hsch). split; [done|]. cbn.
    split_and!; [done | | done]. destruct seq0; [by right | left; simpl; lia].
  - destruct Hst as (Hps & Hidx & Hsch). split; [done|]. cbn.
    split_and!; [by left | apply stop_cleared | by rewrite Hsch].
  - by destruct Hst as (_ & _ & ? & _).
  - by destruct Hst as (_ & ? & _).
Qed.

Lemma memory_run_tracked seq0 events : ∀ s, tracked seq0 s → tracked seq0 (run events s).
Proof.
  induction events as [|e events IH]; intros s Hs; [done|].
  cbn. apply IH. destruct e as [n|now]; cbn [step].
  - by apply memory_click_tracked.
  - by apply memory_tick_tracked.
Qed.

(** X14 — In a Memory Sequence session, whatever tiles are clicked and
    whenever the timer fires: a session that ended in success holds the
    whole (non-empty) sequence as the player's sequence; one that ended in
    failure holds a correct prefix of the sequence, followed by the one
    wrong tile unless the timer ended it; either way exactly one
    completion is scheduled, and none before the session has ended. *)
Theorem memory_outcome (cfg : Config) (seq0 : list Z) (duration now : Z)
        (host : Host) (events : list Event) :
  sequence (run events (mount cfg seq0 duration now host)) = seq0
  ∧ match gameState (run events (mount cfg seq0 duration now host)) with
    | success =>
        playerSequence (run events (mount cfg seq0 duration now host)) = seq0
        ∧ seq0 ≠ []
        ∧ scheduled (run events (mount cfg seq0 duration now host)) = [(1500, true)]
    | failure =>
        (∃ k, playerSequence (run events (mount cfg seq0 duration now host)) = take k seq0
              ∨ ∃ wrong,
                  playerSequence (run events (mount cfg seq0 duration now host))
                    = take k seq0 ++ [wrong]
                  ∧ seq0 !! k ≠ Some wrong)
        ∧ scheduled (run events (mount cfg seq0 duration now host)) = [(1500, false)]
    | _ => scheduled (run events (mount cfg seq0 duration now host)) = []
    end.
Proof.
  destruct (memory_run_tracked seq0 events (mount cfg seq0 duration now host)) as [Hseq Hst].
  { split; [done|]. by cbn. }
  split; [done|].
  destruct (gameState (run events (mount cfg seq0 duration now host))); try done.
  - by destruct Hst as (_ & _ & ?).
  - by destruct Hst as (_ & _ & ?).
  - by destruct Hst as (? & ? & _ & ?).
  - destruct Hst as (Hps & _ & Hsch). split; [|done].
    exists (currentIndex (run events (mount cfg seq0 duration now host))).
    destruct Hps as [?|?]; [by left | by right].
Qed.

(** *** Repeating the sequence *)

(** An event that leaves the running phase going: any click, and a
    firing of the timer before its time is up. *)
Definition early (start duration : Z) (e : Event) : Prop :=
  match e with
  | Tick t => 0 < duration - (t - start)
  | TileClick _ => True
  end.

(** The tiles clicked, and the values the timer reports, over a series
    of events of one phase. *)
Definition tiles (events : list Event) : list Z :=
  omap (λ e, match e with TileClick n => Some n | Tick _ => None end) events.

Definition reports (start duration : Z) (events : list Event) : list Z :=
  omap (λ e, match e with Tick t => Some (duration - (t - start)) | TileClick _ => None end)
       events.

Lemma memory_run_app events1 events2 s : run (events1 ++ events2) s = run events2 (run events1 s).
Proof. apply foldl_app. Qed.

Lemma memory_tick_early st d h hst t s :
  timer s = (mkTimer st d (Some h), hst) → h ∈ live hst → 0 < d - (t - st) →
  timerTick t s
  = mkGame (config s) (gameState s) (sequence s) (playerSequence s) (currentIndex s)
           (d - (t - st)) (timer s) (scheduled s).
Proof.
  intros Htm Hlive Hearly. unfold timerTick. rewrite Htm. cbn [fst timerInterval].
  rewrite (CountdownFacts.tick_running d st h hst Hlive), decide_False by lia.
  done.
Qed.

(** The observation phase: clicks are ignored, the timer only reports. *)
Lemma memory_observing_run st d h hst events : ∀ s,
  gameState s = observing → timer s = (mkTimer st d (Some h), hst) → h ∈ live hst →
  Forall (early st d) events →
  ∃ left, run events s
          = mkGame (config s) observing (sequence s) (playerSequence s) (currentIndex s)
                   left (timer s) (scheduled s).
Proof.
  induction events as [|e events IH]; intros s Hstate Htm Hlive Hearly.
  { exists (timeLeft s). destruct s. simpl in *. by subst. }
  apply Forall_cons in Hearly as [He Hearly].
  change (run (e :: events) s) with (run events (step e s)).
  destruct e as [n|t]; cbn [step].
  - unfold handleTileClick. rewrite Hstate. cbn [isInput negb]. by apply IH.
  - rewrite (memory_tick_early st d h hst) by done.
    destruct (IH (mkGame (config s) (gameState s) (sequence s) (playerSequence s)
                         (currentIndex s) (d - (t - st)) (timer s) (scheduled s)))
      as (left & Hrun); [done..|].
    exists left. rewrite Hrun. done.
Qed.

(** The input phase while tiles of the sequence are left to click. *)
Lemma memory_input_run cfg seq0 st d h hst rest events : ∀ k s,
  config s = cfg → gameState s = input → sequence s = seq0 →
  timer s = (mkTimer st d (Some h), hst) → h ∈ live hst →
  currentIndex s = k → playerSequence s = take k seq0 →
  Forall (λ n, tileExists cfg n = true) seq0 →
  Forall (early st d) events →
  tiles events ++ rest = drop k seq0 → rest ≠ [] →
  run events s
  = mkGame cfg input seq0 (take (k + length (tiles events)) seq0)
           (k + length (tiles events))
           (default (timeLeft s) (last (reports st d events))) (timer s) (scheduled s).
Proof.
  induction events as [|e events IH];
    intros k s Hcfg Hstate Hseq Htm Hlive Hidx Hps Hex Hearly Htiles Hrest.
  { cbn. rewrite Nat.add_0_r. destruct s. simpl in *. by subst. }
  apply Forall_cons in Hearly as [He Hearly].
  change (run (e :: events) s) with (run events (step e s)).
  destruct s as [cfg' st' sq ps ci tl tm sc]. simpl in *. subst.
  destruct e as [n|t]; cbn [step].
  - cbn [tiles omap] in Htiles. fold (tiles events) in Htiles.
    change (tiles (TileClick n :: events)) with (n :: tiles events).
    change (reports st d (TileClick n :: events)) with (reports st d events).
    assert (Hn : seq0 !! k = Some n).
    { rewrite <-(Nat.add_0_r k), <-lookup_drop, <-Htiles. done. }
    assert (Hnext : drop (S k) seq0 = tiles events ++ rest).
    { rewrite (drop_S _ _ _ Hn) in Htiles. by injection Htiles. }
    assert (Hmore : (S k < length seq0)%nat).
    { destruct (decide (S k < length seq0)%nat) as [?|Hge]; [done|].
      rewrite drop_ge in Hnext by lia. by destruct (tiles events), rest. }
    unfold handleTileClick. cbn [gameState isInput negb config sequence currentIndex].
    rewrite (proj1 (Forall_forall _ _) Hex n) by (by eapply list_elem_of_lookup_2).
    cbn [negb]. rewrite bool_decide_true by done.
    cbn [sequence currentIndex playerSequence timeLeft timer scheduled config gameState].
    replace (S k =? length seq0)%nat with false
      by (symmetry; apply Nat.eqb_neq; lia).
    rewrite (IH (S k)); cbn; try done.
    + by rewrite Nat.add_succ_r.
    + symmetry. by apply take_S_r.
  - change (tiles (Tick t :: events)) with (tiles events) in *.
    change (reports st d (Tick t :: events)) with (d - (t - st) :: reports st d events).
    rewrite (memory_tick_early st d h hst) by done.
    rewrite (IH k); cbn; try done.
    f_equal. rewrite last_cons. by destruct (last (reports st d events)).
Qed.

(** After a success nothing changes the session. *)
Lemma memory_success_run events : ∀ s,
  gameState s = success → timerInterval (fst (timer s)) = None → run events s = s.
Proof.
  induction events as [|e events IH]; intros s Hstate Hoff; [done|].
  change (run (e :: events) s) with (run events (step e s)).
  assert (Hstep : step e s = s).
  { destruct e as [n|t]; cbn [step].
    - unfold handleTileClick. by rewrite Hstate.
    - unfold timerTick. by rewrite Hoff. }
  rewrite Hstep. by apply IH.
Qed.

(** X15 — Clicking the tiles of the sequence in order during the input
    phase wins, whenever the timer fires in between.  Take any events of
    the observation phase before its time is up (clicks, which are
    ignored, and firings of the timer), the firing at [t0] that ends it,
    then the clicks on the tiles of the sequence in order, mixed in any
    way with firings of the restarted timer before its time is up, and
    anything after the last click.  The session is in success, one
    completion is scheduled after 1500 ms, and it reports the player's
    sequence equal to the sequence, its length, and as time remaining
    the value of the last firing between [t0] and the last click, or 0
    if there was none. *)
Theorem memory_replay_wins (cfg : Config) (seq0 : list Z) (duration now t0 : Z)
        (host : Host) (before body after : list Event) (x : Z) :
  Forall (λ n, tileExists cfg n = true) seq0 →
  Forall (early now duration) before →
  now + duration ≤ t0 →
  Forall (early t0 duration) body →
  tiles body ++ [x] = seq0 →
  gameState (run (before ++ Tick t0 :: body ++ TileClick x :: after)
                 (mount cfg seq0 duration now host)) = success
  ∧ scheduled (run (before ++ Tick t0 :: body ++ TileClick x :: after)
                   (mount cfg seq0 duration now host)) = [(1500, true)]
  ∧ dispatchComplete true
      (run (before ++ Tick t0 :: body ++ TileClick x :: after)
           (mount cfg seq0 duration now host))
    = Events.mkComplete true
        [("timeRemaining"%string,
          Events.VNum (default 0 (last (reports t0 duration body))));
         ("sequenceLength"%string, Events.VNum (Z.of_nat (length seq0)));
         ("playerSequence"%string, Events.VNums seq0)].
Proof.
  intros Hex Hbefore Ht0 Hbody Htiles.
  assert (Hfinal : ∃ tm,
    run (before ++ Tick t0 :: body ++ TileClick x :: after)
        (mount cfg seq0 duration now host)
    = mkGame cfg success seq0 seq0 (length seq0)
             (default 0 (last (reports t0 duration body))) tm [(1500, true)]).
  { rewrite memory_run_app.
    destruct (memory_observing_run now duration (nextHandle host)
                (mkHost ({[nextHandle host]} ∪ live host) (nextHandle host + 1)%positive)
                before (mount cfg seq0 duration now host))
      as (left & ->); [done | done | cbn; set_solver | done |].
    change (run (Tick t0 :: body ++ TileClick x :: after) ?s)
      with (run (body ++ TileClick x :: after) (timerTick t0 s)).
    cbn [mount config sequence playerSequence currentIndex timer scheduled].
    unfold timerTick. cbn [timer start setInterval fst snd timerInterval].
    rewrite (CountdownFacts.tick_running duration now (nextHandle host))
      by (cbn; set_solver).
    rewrite decide_True by lia.
    cbn [foldl onTimer withTimer gameState startInputPhase config sequence timeLeft
         timer scheduled stop reset start setInterval clearInterval fst snd
         timerInterval startTime Utils.duration live nextHandle].
    rewrite memory_run_app.
    erewrite (memory_input_run cfg seq0 t0 duration _ _ [x] body 0%nat); try done;
      try (by rewrite drop_0); try (by cbn; set_solver).
    cbn [Nat.add timeLeft timer scheduled].
    change (run (TileClick x :: after) ?s) with (run after (handleTileClick x s)).
    assert (Hlen : length seq0 = S (length (tiles body))).
    { rewrite <-Htiles, length_app. simpl. lia. }
    assert (Hx : seq0 !! length (tiles body) = Some x).
    { rewrite <-Htiles. by rewrite lookup_app_r, Nat.sub_diag by lia. }
    unfold handleTileClick. cbn [gameState isInput negb config sequence currentIndex].
    rewrite (proj1 (Forall_forall _ _) Hex x) by (by eapply list_elem_of_lookup_2).
    cbn [negb]. rewrite bool_decide_true by done.
    cbn [sequence currentIndex playerSequence timeLeft timer scheduled config gameState].
    replace (S (length (tiles body)) =? length seq0)%nat with true
      by (symmetry; apply Nat.eqb_eq; lia).
    rewrite memory_success_run; [|done..].
    eexists. unfold handleGameOver. cbn. f_equal.
    - rewrite <-(take_S_r _ _ _ Hx), <-Hlen. apply firstn_all.
    - by rewrite Hlen. }
  destruct Hfinal as (tm & ->). done.
Qed.

(** A 3x3 grid and the sequence 0, 4, 8, 2.  The timer fires twice while
    the sequence is shown, a tile is clicked too early, then the time is
    up; the player clicks the four tiles, the timer firing in between,
    the last time with 4200 ms left. *)
Lemma memory_replay_wins_witness :
  dispatchComplete true
    (run ([Tick 10; TileClick 0; Tick 20] ++ Tick 5000
            :: [TileClick 0; Tick 5400; TileClick 4; TileClick 8; Tick 5800]
            ++ TileClick 2 :: [Tick 5810])
         (mount (mkConfig 3 4) [0; 4; 8; 2] 5000 0 (mkHost ∅ 1)))
  = Events.mkComplete true
      [("timeRemaining"%string, Events.VNum 4200);
       ("sequenceLength"%string, Events.VNum 4);
       ("playerSequence"%string, Events.VNums [0; 4; 8; 2])].
Proof.
  apply (memory_replay_wins (mkConfig 3 4) [0; 4; 8; 2] 5000 0 5000 (mkHost ∅ 1)
           [Tick 10; TileClick 0; Tick 20]
           [TileClick 0; Tick 5400; TileClick 4; TileClick 8; Tick 5800]
           [Tick 5810] 2).
  - by repeat constructor.
  - repeat constructor; cbn; lia.
  - lia.
  - repeat constructor; cbn; lia.
  - reflexivity.
Defined.

End MemoryFacts.

(** ** Thermite: the pattern and the session *)

Module ThermiteFacts.
Import Utils Thermite ShuffleFacts CommonFacts.

Definition inside (size : nat) (cell : nat * nat) : Prop :=
  (fst cell < size)%nat ∧ (snd cell < size)%nat.

Lemma allPositions_elem size cell : cell ∈ allPositions size ↔ inside size cell.
Proof.
  unfold allPositions, inside. rewrite list_elem_of_bind. split.
  - intros (r & Hc & Hr). apply list_elem_of_fmap in Hc as (c & -> & Hc).
    apply elem_of_seq in Hr, Hc. simpl. lia.
  - intros [Hr Hc]. exists (fst cell). split.
    + apply list_elem_of_fmap. exists (snd cell). split; [by destruct cell|].
      apply elem_of_seq. lia.
    + apply elem_of_seq. lia.
Qed.

Lemma allPositions_NoDup size : NoDup (allPositions size).
Proof.
  unfold allPositions. apply NoDup_bind.
  - intros r1 r2 cell _ _ H1 H2.
    apply list_elem_of_fmap in H1 as (c1 & -> & _).
    apply list_elem_of_fmap in H2 as (c2 & E & _). congruence.
  - intros r _. apply NoDup_fmap_2; [|apply NoDup_seq]. intros a b. congruence.
  - apply NoDup_seq.
Qed.

Lemma length_bind_const {A B} (f : A → list B) (l : list A) n :
  (∀ x, length (f x) = n) → length (l ≫= f) = (length l * n)%nat.
Proof.
  intros Hf. induction l as [|x l IH]; [done|].
  cbn [mbind list_bind]. rewrite length_app. fold (l ≫= f). rewrite IH, Hf.
  simpl. lia.
Qed.

Lemma allPositions_length size : length (allPositions size) = (size * size)%nat.
Proof.
  unfold allPositions. rewrite (length_bind_const _ _ size).
  - by rewrite length_seq.
  - intros r. by rewrite length_fmap, length_seq.
Qed.

(** A grid of [size] rows of [size] cells. *)
Definition squareB (size : nat) (g : list (list bool)) : Prop :=
  length g = size ∧ Forall (λ r, length r = size) g.

Lemma squareB_blank cfg : squareB (gridSize cfg) (blankGrid cfg).
Proof.
  unfold squareB, blankGrid, createGrid. split; [by rewrite length_replicate|].
  apply Forall_replicate. by rewrite length_replicate.
Qed.

Lemma cellAt_blank cfg r c : cellAt (blankGrid cfg) r c = false.
Proof.
  unfold cellAt, blankGrid, createGrid.
  destruct (replicate _ _ !! r) as [row|] eqn:Hrow; [|done].
  apply lookup_replicate in Hrow as [-> _].
  destruct (replicate _ _ !! c) as [b|] eqn:Hc; [|done].
  by apply lookup_replicate in Hc as [-> _].
Qed.

Lemma squareB_set size g cell : squareB size g → squareB size (setCellTrue g cell).
Proof.
  intros [Hlen Hrows]. unfold setCellTrue. split; [by rewrite length_alter|].
  apply Forall_lookup. intros i row Hrow.
  destruct (decide (i = fst cell)) as [->|Hne].
  - rewrite list_lookup_alter_eq in Hrow.
    destruct (g !! fst cell) as [row0|] eqn:Hrow0; [|done].
    injection Hrow as <-. rewrite length_insert.
    by apply (Forall_lookup_1 _ _ _ _ Hrows Hrow0).
  - rewrite list_lookup_alter_ne in Hrow by done.
    by apply (Forall_lookup_1 _ _ _ _ Hrows Hrow).
Qed.

Lemma cellAt_set size g cell r c :
  squareB size g → inside size cell →
  cellAt (setCellTrue g cell) r c = bool_decide ((r, c) = cell) || cellAt g r c.
Proof.
  intros [Hlen Hrows] [Hr Hc]. destruct cell as [r0 c0]. simpl in *.
  unfold cellAt, setCellTrue. cbn [fst snd].
  destruct (decide (r = r0)) as [->|Hne].
  - rewrite list_lookup_alter_eq.
    destruct (lookup_lt_is_Some_2 g r0 ltac:(lia)) as [row Hrow]. rewrite Hrow.
    cbn [fmap option_fmap option_map].
    pose proof (Forall_lookup_1 _ _ _ _ Hrows Hrow) as Hrl. simpl in Hrl.
    destruct (decide (c = c0)) as [->|Hnc].
    + rewrite list_lookup_insert_eq by lia. by rewrite bool_decide_true.
    + rewrite list_lookup_insert_ne by done.
      rewrite bool_decide_false by congruence. done.
  - rewrite list_lookup_alter_ne by done.
    rewrite bool_decide_false by congruence. done.
Qed.

Lemma foldl_set size cells : ∀ g,
  squareB size g → Forall (inside size) cells →
  squareB size (foldl setCellTrue g cells)
  ∧ ∀ r c, cellAt (foldl setCellTrue g cells) r c
           = bool_decide ((r, c) ∈ cells) || cellAt g r c.
Proof.
  induction cells as [|cell cells IH]; intros g Hsq Hin.
  { split; [done|]. intros r c. rewrite bool_decide_false; [done|]. set_solver. }
  apply Forall_cons in Hin as [Hcell Hin]. cbn [foldl].
  destruct (IH (setCellTrue g cell) (squareB_set _ _ _ Hsq) Hin) as [Hsq' Hcells].
  split; [done|]. intros r c. rewrite Hcells, (cellAt_set size) by done.
  destruct (decide ((r, c) = cell)) as [<-|Hne].
  - rewrite !(bool_decide_true ((r, c) = (r, c))) by done.
    rewrite (bool_decide_true ((r, c) ∈ (r, c) :: cells)) by set_solver.
    by rewrite orb_true_r.
  - rewrite (bool_decide_false ((r, c) = cell)) by done. cbn [orb].
    f_equal. apply bool_decide_ext. set_solver.
Qed.

Lemma generatePattern_run cfg ds :
  (gridSize cfg * gridSize cfg - 1 ≤ length ds)%nat →
  ∃ targets pattern,
    generatePattern cfg (blankGrid cfg) ds
      = Some ((targets, pattern), drop (gridSize cfg * gridSize cfg - 1) ds)
    ∧ NoDup targets
    ∧ length targets = (targetCount cfg `min` (gridSize cfg * gridSize cfg))%nat
    ∧ Forall (inside (gridSize cfg)) targets
    ∧ squareB (gridSize cfg) pattern
    ∧ ∀ r c, cellAt pattern r c = true ↔ (r, c) ∈ targets.
Proof.
  intros Hds. unfold generatePattern, bind, shuffleArray.
  destruct (shuffleFrom_spec (length (allPositions (gridSize cfg)) - 1)
              (allPositions (gridSize cfg)) ds) as (out & Hrun & Hperm).
  { destruct (allPositions (gridSize cfg)); simpl; lia. }
  { by rewrite allPositions_length. }
  rewrite Hrun, allPositions_length. cbn [ret].
  set (targets := take _ out).
  assert (Hin : Forall (inside (gridSize cfg)) targets).
  { apply Forall_forall. intros cell Hcell. apply allPositions_elem.
    rewrite <-Hperm. by apply (subseteq_take _ out) in Hcell. }
  destruct (foldl_set (gridSize cfg) targets (blankGrid cfg) (squareB_blank cfg) Hin)
    as [Hsq Hcells].
  eexists _, _. split; [reflexivity|]. split_and!; [| | done | done |].
  - apply (sublist_NoDup _ out); [|apply sublist_take].
    rewrite Hperm. apply allPositions_NoDup.
  - unfold targets. rewrite length_take, (Permutation_length Hperm), allPositions_length. lia.
  - intros r c. rewrite Hcells, cellAt_blank, orb_false_r. apply bool_decide_eq_true.
Qed.

(** *** Counting cells *)

(** The number of rendered cells at which [f] holds. *)
Definition countCells (size : nat) (f : nat → nat → bool) : nat :=
  length (filter (λ cell, f (fst cell) (snd cell) = true) (allPositions size)).

Lemma filter_ext_in {A} (P Q : A → Prop) `{∀ x, Decision (P x)}
      `{∀ x, Decision (Q x)} (l : list A) :
  (∀ y, y ∈ l → P y ↔ Q y) → filter P l = filter Q l.
Proof.
  induction l as [|a l IH]; intros HPQ; [done|]. rewrite !filter_cons.
  rewrite IH by (intros y Hy; apply HPQ; by right).
  destruct (decide (P a)) as [HPa|HPa].
  - rewrite decide_True; [done|]. apply HPQ; [by left|done].
  - rewrite decide_False; [done|]. rewrite <-HPQ; [done|by left].
Qed.

Lemma length_filter_add {A} (P Q : A → Prop) `{∀ x, Decision (P x)}
      `{∀ x, Decision (Q x)} (l : list A) (x : A) :
  NoDup l → x ∈ l → ¬ P x → (∀ y, Q y ↔ P y ∨ y = x) →
  length (filter Q l) = S (length (filter P l)).
Proof.
  intros Hnd Hx HPx HQ. induction Hnd as [|a l Ha Hnd IH].
  { by apply elem_of_nil in Hx. }
  rewrite !filter_cons. apply elem_of_cons in Hx as [->|Hx].
  - rewrite decide_True by (apply HQ; by right). rewrite decide_False by done.
    cbn [length]. f_equal. f_equal. apply filter_ext_in.
    intros y Hy. rewrite HQ. split; [|by left].
    intros [?| ->]; done.
  - specialize (IH Hx). destruct (decide (P a)) as [HPa|HPa].
    + rewrite decide_True by (apply HQ; by left). cbn [length]. by rewrite IH.
    + rewrite decide_False; [done|]. rewrite HQ. intros [?| ->]; done.
Qed.

Lemma length_filter_mono {A} (P Q : A → Prop) `{∀ x, Decision (P x)}
      `{∀ x, Decision (Q x)} (l : list A) :
  (∀ y, y ∈ l → P y → Q y) → (length (filter P l) ≤ length (filter Q l))%nat.
Proof.
  induction l as [|a l IH]; intros HPQ; [done|]. rewrite !filter_cons.
  assert (IH' : (length (filter P l) ≤ length (filter Q l))%nat)
    by (apply IH; intros y Hy; apply HPQ; by right).
  destruct (decide (P a)) as [HPa|HPa].
  - rewrite decide_True by (apply HPQ; [by left|done]). simpl. lia.
  - destruct (decide (Q a)); simpl; lia.
Qed.

Lemma length_filter_full {A} (P Q : A → Prop) `{∀ x, Decision (P x)}
      `{∀ x, Decision (Q x)} (l : list A) :
  (∀ y, y ∈ l → P y → Q y) → length (filter P l) = length (filter Q l) →
  ∀ y, y ∈ l → Q y → P y.
Proof.
  induction l as [|a l IH]; intros HPQ Hlen y Hy HQy; [by apply elem_of_nil in Hy|].
  rewrite !filter_cons in Hlen.
  assert (Hmono : (length (filter P l) ≤ length (filter Q l))%nat)
    by (apply length_filter_mono; intros z Hz; apply HPQ; by right).
  assert (HPQ' : ∀ z, z ∈ l → P z → Q z) by (intros z Hz; apply HPQ; by right).
  destruct (decide (P a)) as [HPa|HPa].
  - rewrite decide_True in Hlen by (apply HPQ; [by left|done]).
    apply elem_of_cons in Hy as [->|Hy]; [done|].
    apply (IH HPQ'); [by injection Hlen | done | done].
  - destruct (decide (Q a)) as [HQa|HQa]; simpl in Hlen; [lia|].
    apply elem_of_cons in Hy as [->|Hy]; [done|]. by apply (IH HPQ').
Qed.

Lemma countCells_add size f f' cell :
  inside size cell → f (fst cell) (snd cell) = false →
  (∀ r c, f' r c = bool_decide ((r, c) = cell) || f r c) →
  countCells size f' = S (countCells size f).
Proof.
  intros Hin Hoff Hf'. unfold countCells.
  apply (length_filter_add _ _ _ cell).
  - apply allPositions_NoDup.
  - by apply allPositions_elem.
  - by rewrite Hoff.
  - intros [r c]. cbn [fst snd]. rewrite Hf', orb_true_iff, bool_decide_eq_true.
    tauto.
Qed.

Lemma countCells_ext size f f' :
  (∀ r c, f' r c = f r c) → countCells size f' = countCells size f.
Proof.
  intros Hf. unfold countCells. f_equal. apply list_filter_iff. intros [r c].
  cbn [fst snd]. by rewrite Hf.
Qed.

Lemma countCells_none size f : (∀ r c, f r c = false) → countCells size f = 0%nat.
Proof.
  intros Hf. unfold countCells.
  rewrite (filter_ext_in _ (λ _, False)); [|intros [r c] _; cbn [fst snd]; by rewrite Hf].
  induction (allPositions size) as [|a l IH]; [done|]. by rewrite filter_cons.
Qed.

Lemma countCells_targets size pattern targets :
  NoDup targets → Forall (inside size) targets →
  (∀ r c, cellAt pattern r c = true ↔ (r, c) ∈ targets) →
  countCells size (cellAt pattern) = length targets.
Proof.
  intros Hnd Hin Hpat. unfold countCells. apply Permutation_length.
  apply NoDup_Permutation; [apply NoDup_filter, allPositions_NoDup | done |].
  intros [r c]. rewrite list_elem_of_filter, allPositions_elem. cbn [fst snd].
  rewrite Hpat. split; [tauto|]. intros Hcell. split; [done|].
  by apply (Forall_forall (inside size) targets).
Qed.

(** *** The session *)

(** Target cells the player has selected, and other cells selected. *)
Definition hits (size : nat) (pattern selected : list (list bool)) : nat :=
  countCells size (λ r c, cellAt selected r c && cellAt pattern r c).

Definition misses (size : nat) (pattern selected : list (list bool)) : nat :=
  countCells size (λ r c, cellAt selected r c && negb (cellAt pattern r c)).

(** A click on a cell the template renders. *)
Definition rendered (size : nat) (e : Event) : Prop :=
  match e with
  | CellClick row col => inside size (row, col)
  | Tick _ => True
  end.

Section Session.
Variables (cfg : Config) (targets : list (nat * nat)) (pattern : list (list bool)).
Hypothesis targets_NoDup : NoDup targets.
Hypothesis targets_inside : Forall (inside (gridSize cfg)) targets.
Hypothesis pattern_targets : ∀ r c, cellAt pattern r c = true ↔ (r, c) ∈ targets.

Definition tracked (s : Game) : Prop :=
  config s = cfg ∧ grid s = pattern ∧ targetCells s = targets
  ∧ match gameState s with
    | memorize =>
        playerGrid s = blankGrid cfg ∧ selectedCount s = 0%nat
        ∧ incorrectSelections s = 0%nat ∧ scheduled s = []
    | solving =>
        squareB (gridSize cfg) (playerGrid s)
        ∧ selectedCount s = hits (gridSize cfg) pattern (playerGrid s)
        ∧ incorrectSelections s = misses (gridSize cfg) pattern (playerGrid s)
        ∧ (incorrectSelections s < 3)%nat
        ∧ ((selectedCount s < length targets)%nat ∨ targets = [])
        ∧ scheduled s = []
    | success =>
        selectedCount s = hits (gridSize cfg) pattern (playerGrid s)
        ∧ selectedCount s = length targets ∧ targets ≠ []
        ∧ incorrectSelections s = misses (gridSize cfg) pattern (playerGrid s)
        ∧ (incorrectSelections s < 3)%nat
        ∧ timerInterval (fst (timer s)) = None
        ∧ scheduled s = [(1500, true)]
    | failure =>
        playerGrid s = pattern ∧ showExplosion s = true
        ∧ (incorrectSelections s ≤ 3)%nat
        ∧ ((selectedCount s < length targets)%nat ∨ targets = [])
        ∧ timerInterval (fst (timer s)) = None
        ∧ scheduled s = [(2500, false)]
    | idle => False
    end.

Lemma hits_blank : hits (gridSize cfg) pattern (blankGrid cfg) = 0%nat.
Proof. apply countCells_none. intros r c. by rewrite cellAt_blank. Qed.

Lemma misses_blank : misses (gridSize cfg) pattern (blankGrid cfg) = 0%nat.
Proof. apply countCells_none. intros r c. by rewrite cellAt_blank. Qed.

Lemma hits_le selected : (hits (gridSize cfg) pattern selected ≤ length targets)%nat.
Proof.
  rewrite <-(countCells_targets (gridSize cfg) pattern targets) by done.
  apply length_filter_mono. intros [r c] _. cbn [fst snd].
  by intros [_ ?]%andb_true_iff.
Qed.

Lemma thermite_click_tracked row col s :
  inside (gridSize cfg) (row, col) → tracked s → tracked (handleCellClick row col s).
Proof.
  intros Hin (Hcfg & Hgrid & Htargets & Hst). unfold handleCellClick.
  destruct (gameState s) eqn:Hstate; cbn [isSolving negb];
    try (split_and!; [done..|by rewrite Hstate]).
  destruct Hst as (Hsq & Hsel & Hinc & Hlow & Hopen & Hsch).
  destruct (cellAt (playerGrid s) row col) eqn:Hfree.
  { split_and!; [done..|]. rewrite Hstate. by split_and!. }
  change (alter (λ r, <[col := true]> r) row (playerGrid s))
    with (setCellTrue (playerGrid s) (row, col)).
  set (selected' := setCellTrue (playerGrid s) (row, col)).
  assert (Hsq' : squareB (gridSize cfg) selected') by (by apply squareB_set).
  assert (Hcell' : ∀ r c, cellAt selected' r c
            = bool_decide ((r, c) = (row, col)) || cellAt (playerGrid s) r c)
    by (intros r c; by apply (cellAt_set (gridSize cfg))).
  rewrite Hgrid. destruct (cellAt pattern row col) eqn:Hpat.
  - (* a target cell *)
    assert (Hhits : hits (gridSize cfg) pattern selected' = S (selectedCount s)).
    { rewrite Hsel. apply (countCells_add _ _ _ (row, col)); cbn [fst snd]; [done | |].
      - by rewrite Hfree.
      - intros r c. rewrite Hcell'. destruct (decide ((r, c) = (row, col))) as [E|E].
        + injection E as -> ->. rewrite bool_decide_true by done. by rewrite Hpat.
        + by rewrite bool_decide_false by done. }
    assert (Hmiss : misses (gridSize cfg) pattern selected' = incorrectSelections s).
    { rewrite Hinc. apply countCells_ext. intros r c. rewrite Hcell'.
      destruct (decide ((r, c) = (row, col))) as [E|E].
      - injection E as -> ->. rewrite bool_decide_true by done.
        by rewrite Hpat, Hfree.
      - by rewrite bool_decide_false by done. }
    assert (Hsome : targets ≠ []).
    { apply pattern_targets in Hpat. intros E. rewrite E in Hpat.
      by apply elem_of_nil in Hpat. }
    cbn [selectedCount targetCells]. rewrite Htargets.
    destruct (S (selectedCount s) =? length targets)%nat eqn:Hall.
    + apply Nat.eqb_eq in Hall. split_and!; [done..|]. cbn.
      split_and!; [done | done | done | done | done | apply stop_cleared | by rewrite Hsch].
    + apply Nat.eqb_neq in Hall. split_and!; [done..|]. cbn.
      split_and!; [done | done | done | done | | done].
      left. destruct Hopen as [?|?]; [lia|done].
  - (* not a target cell *)
    assert (Hhits : hits (gridSize cfg) pattern selected' = selectedCount s).
    { rewrite Hsel. apply countCells_ext. intros r c. rewrite Hcell'.
      destruct (decide ((r, c) = (row, col))) as [E|E].
      - injection E as -> ->. rewrite bool_decide_true by done.
        by rewrite Hpat, Hfree.
      - by rewrite bool_decide_false by done. }
    assert (Hmiss : misses (gridSize cfg) pattern selected' = S (incorrectSelections s)).
    { rewrite Hinc. apply (countCells_add _ _ _ (row, col)); cbn [fst snd]; [done | |].
      - by rewrite Hfree.
      - intros r c. rewrite Hcell'. destruct (decide ((r, c) = (row, col))) as [E|E].
        + injection E as -> ->. rewrite bool_decide_true by done. by rewrite Hpat.
        + by rewrite bool_decide_false by done. }
    cbn [incorrectSelections].
    destruct (3 <=? S (incorrectSelections s))%nat eqn:Hout.
    + apply Nat.leb_le in Hout. split_and!; [done..|]. cbn.
      split_and!; [done | done | lia | done | apply stop_cleared | by rewrite Hsch].
    + apply Nat.leb_gt in Hout. split_and!; [done..|]. cbn.
      by split_and!.
Qed.

Lemma thermite_tick_tracked now s : tracked s → tracked (timerTick now s).
Proof.
  intros Hs. pose proof Hs as (Hcfg & Hgrid & Htargets & Hst). unfold timerTick.
  destruct (timerInterval (fst (timer s))) as [h|] eqn:Hh; [|done].
  unfold tick. destruct (decide (h ∈ live (snd (timer s)))); [|by destruct s].
  destruct (Z.max 0 _ <=? 0); cbn [foldl onTimer withTimer gameState].
  2:{ split_and!; [done..|]. cbn. by destruct Hs as (_ & _ & _ & H). }
  destruct (gameState s) eqn:Hstate; [done| | | |].
  - (* memorize: the solving phase starts *)
    destruct Hst as (Hpg & Hsel & Hinc & Hsch).
    split_and!; [done..|]. cbn. rewrite Hpg, Hsel, Hinc.
    split_and!; [apply squareB_blank | by rewrite hits_blank | by rewrite misses_blank
                 | lia | | done].
    destruct targets; [by right | left; simpl; lia].
  - (* solving: time is up *)
    destruct Hst as (Hsq & Hsel & Hinc & Hlow & Hopen & Hsch).
    split_and!; [done..|]. cbn.
    split_and!; [done | done | lia | done | apply stop_cleared | by rewrite Hsch].
  - destruct Hst as (_ & _ & _ & _ & _ & Hoff & _). simpl in Hoff. congruence.
  - destruct Hst as (_ & _ & _ & _ & Hoff & _). simpl in Hoff. congruence.
Qed.

Lemma thermite_run_tracked events : ∀ s,
  Forall (rendered (gridSize cfg)) events → tracked s → tracked (run events s).
Proof.
  induction events as [|e events IH]; intros s Hev Hs; [done|].
  apply Forall_cons in Hev as [He Hev]. cbn. apply IH; [done|].
  destruct e as [row col|now]; cbn [step].
  - by apply thermite_click_tracked.
  - by apply thermite_tick_tracked.
Qed.

End Session.

Lemma mount_tracked cfg now host ds s0 ds' :
  mount cfg now host ds = Some (s0, ds') →
  ∃ targets pattern,
    NoDup targets ∧ Forall (inside (gridSize cfg)) targets
    ∧ (∀ r c, cellAt pattern r c = true ↔ (r, c) ∈ targets)
    ∧ length targets = (targetCount cfg `min` (gridSize cfg * gridSize cfg))%nat
    ∧ tracked cfg targets pattern s0.
Proof.
  unfold mount, bind. intros Hrun.
  destruct (generatePattern cfg (blankGrid cfg) ds) as [[[targets pattern] ds1]|] eqn:Hgen;
    [|done].
  injection Hrun as <- <-.
  assert (Hds : (gridSize cfg * gridSize cfg - 1 ≤ length ds)%nat).
  { unfold generatePattern, bind, shuffleArray in Hgen.
    rewrite allPositions_length in Hgen.
    destruct (decide (gridSize cfg * gridSize cfg - 1 ≤ length ds)%nat) as [?|Hshort];
      [done|].
    exfalso. revert Hgen. generalize (allPositions (gridSize cfg)).
    assert (Hfew : (length ds < gridSize cfg * gridSize cfg - 1)%nat) by lia.
    revert Hfew. generalize (gridSize cfg * gridSize cfg - 1)%nat. clear.
    intros n. revert ds. induction n as [|n IH]; intros ds Hfew l; [lia|].
    cbn [shuffleFrom]. unfold bind at 1, floorRandom, bind, Math_random.
    destruct ds as [|k ds0]; [done|]. cbn [ret]. apply IH. simpl in Hfew. lia. }
  destruct (generatePattern_run cfg ds Hds)
    as (targets' & pattern' & Hgen' & Hnd & Hlen & Hin & Hsq & Hpat).
  rewrite Hgen in Hgen'. injection Hgen' as -> -> _.
  exists targets', pattern'. split_and!; try done.
Qed.

(** X16 — Given enough draws, [generatePattern] run on the reset grid
    returns, with [targetCells] holding min(targetCount, gridSize²)
    distinct cells, all inside the grid, and the grid set at exactly
    those cells. *)
Theorem generatePattern_targets (cfg : Config) (ds : list Z) :
  (gridSize cfg * gridSize cfg - 1 ≤ length ds)%nat →
  ∃ targets pattern,
    generatePattern cfg (blankGrid cfg) ds
      = Some ((targets, pattern), drop (gridSize cfg * gridSize cfg - 1) ds)
    ∧ NoDup targets
    ∧ length targets = (targetCount cfg `min` (gridSize cfg * gridSize cfg))%nat
    ∧ (∀ r c, (r, c) ∈ targets → (r < gridSize cfg)%nat ∧ (c < gridSize cfg)%nat)
    ∧ ∀ r c, cellAt pattern r c = true ↔ (r, c) ∈ targets.
Proof.
  intros Hds.
  destruct (generatePattern_run cfg ds Hds)
    as (targets & pattern & Hgen & Hnd & Hlen & Hin & _ & Hpat).
  exists targets, pattern. split_and!; try done.
  intros r c Hcell. by apply (Forall_forall (inside (gridSize cfg)) targets) in Hcell.
Qed.

Lemma generatePattern_targets_witness :
  ∃ targets pattern,
    generatePattern (mkConfig 2 3 3000 8000) (blankGrid (mkConfig 2 3 3000 8000))
                    [2 ^ 52; 0; 2 ^ 53 - 1]
      = Some ((targets, pattern), [])
    ∧ length targets = 3%nat.
Proof.
  destruct (generatePattern_targets (mkConfig 2 3 3000 8000) [2 ^ 52; 0; 2 ^ 53 - 1])
    as (targets & pattern & Hgen & _ & Hlen & _); [simpl; lia|].
  by exists targets, pattern.
Defined.

(** X17 — A Thermite session mounted with a generated pattern, under any
    clicks on rendered cells and timer firings.  If it ends in success,
    every target cell is selected, the selected-count equals the number
    of targets min(targetCount, gridSize²), which is at least one, fewer
    than three other cells were selected, and one completion is scheduled
    after 1500 ms.  If it ends in failure, the player grid has been
    replaced by the pattern, at most three wrong cells were counted, and
    one completion is scheduled after 2500 ms.  Before that nothing is
    scheduled. *)
Theorem thermite_outcome (cfg : Config) (now : Z) (host : Host) (ds ds' : list Z)
        (s0 : Game) (events : list Event) :
  mount cfg now host ds = Some (s0, ds') →
  Forall (λ e, match e with
               | CellClick row col => (row < gridSize cfg)%nat ∧ (col < gridSize cfg)%nat
               | Tick _ => True
               end) events →
  grid (run events s0) = grid s0
  ∧ targetCells (run events s0) = targetCells s0
  ∧ length (targetCells s0) = (targetCount cfg `min` (gridSize cfg * gridSize cfg))%nat
  ∧ match gameState (run events s0) with
    | success =>
        (∀ r c, cellAt (grid s0) r c = true → cellAt (playerGrid (run events s0)) r c = true)
        ∧ selectedCount (run events s0) = length (targetCells s0)
        ∧ (1 ≤ length (targetCells s0))%nat
        ∧ (incorrectSelections (run events s0) < 3)%nat
        ∧ scheduled (run events s0) = [(1500, true)]
    | failure =>
        playerGrid (run events s0) = grid s0
        ∧ (incorrectSelections (run events s0) ≤ 3)%nat
        ∧ scheduled (run events s0) = [(2500, false)]
    | _ => scheduled (run events s0) = []
    end.
Proof.
  intros Hmount Hev.
  destruct (mount_tracked _ _ _ _ _ _ Hmount)
    as (targets & pattern & Hnd & Hin & Hpat & Hlen & Hs0).
  assert (Hev' : Forall (rendered (gridSize cfg)) events).
  { eapply Forall_impl; [exact Hev|]. by intros [row col|t]. }
  pose proof (thermite_run_tracked cfg targets pattern Hnd Hin Hpat events s0 Hev' Hs0)
    as (_ & Hgrid & Htargets & Hst).
  destruct Hs0 as (_ & Hgrid0 & Htargets0 & _).
  rewrite Hgrid, Htargets, Hgrid0, Htargets0. split_and!; [done..|].
  destruct (gameState (run events s0)) eqn:Hstate; try done.
  - by destruct Hst as (_ & _ & _ & ?).
  - by destruct Hst as (_ & _ & _ & _ & _ & ?).
  - destruct Hst as (Hsel & Hall & Hsome & Hinc & Hlow & _ & Hsch).
    split_and!; [|done| |done|done].
    + intros r c Hcell.
      assert (Hcell' : inside (gridSize cfg) (r, c)).
      { apply (Forall_forall (inside (gridSize cfg)) targets); [done|]. by apply Hpat. }
      apply allPositions_elem in Hcell'.
      pose proof (length_filter_full
        (λ cell, cellAt (playerGrid (run events s0)) (fst cell) (snd cell)
                 && cellAt pattern (fst cell) (snd cell) = true)
        (λ cell, cellAt pattern (fst cell) (snd cell) = true)
        (allPositions (gridSize cfg))) as Hfull.
      cbn beta in Hfull.
      assert (Hboth : cellAt (playerGrid (run events s0)) r c && cellAt pattern r c = true).
      { apply (Hfull ltac:(by intros y _ [_ ?]%andb_true_iff)) with (y := (r, c));
          [|done|done].
        fold (countCells (gridSize cfg)
                (λ r c, cellAt (playerGrid (run events s0)) r c && cellAt pattern r c)).
        fold (countCells (gridSize cfg) (cellAt pattern)).
        rewrite (countCells_targets _ _ targets) by done.
        unfold hits in Hsel. by rewrite <-Hsel. }
      by apply andb_true_iff in Hboth as [? _].
    + destruct targets; [done|simpl; lia].
  - by destruct Hst as (? & _ & ? & _ & _ & ?).
Qed.

(** A 2x2 board with two targets: a click during the memorize phase is
    ignored, the display timer runs out, two wrong and two right cells are
    selected. *)
Lemma thermite_outcome_witness :
  ∃ s0,
    mount (mkConfig 2 2 3000 8000) 0 (mkHost ∅ 1) [2 ^ 52; 0; 2 ^ 53 - 1] = Some (s0, [])
    ∧ gameState (run [CellClick 0 0; Tick 1000; Tick 3000; CellClick 0 0;
                      CellClick 1 0; CellClick 0 1; CellClick 1 1] s0) = success
    ∧ scheduled (run [CellClick 0 0; Tick 1000; Tick 3000; CellClick 0 0;
                      CellClick 1 0; CellClick 0 1; CellClick 1 1] s0) = [(1500, true)].
Proof.
  eexists.
  match goal with |- ?m = Some (?s, _) ∧ _ =>
    assert (Hmount : m = Some (s, [])) by (vm_compute; reflexivity)
  end.
  split; [exact Hmount|].
  match goal with |- gameState ?r = _ ∧ _ =>
    assert (Hwin : gameState r = success) by (vm_compute; reflexivity)
  end.
  split; [exact Hwin|].
  pose proof (thermite_outcome _ _ _ _ _ _
    [CellClick 0 0; Tick 1000; Tick 3000; CellClick 0 0;
     CellClick 1 0; CellClick 0 1; CellClick 1 1] Hmount) as H.
  destruct H as (_ & _ & _ & H).
  - repeat constructor.
  - rewrite Hwin in H. by destruct H as (_ & _ & _ & _ & ?).
Defined.

(** *** Selecting the pattern *)

(** An event that leaves the running phase going: any click, and a
    firing of the timer before its time is up. *)
Definition early (start duration : Z) (e : Event) : Prop :=
  match e with
  | Tick t => 0 < duration - (t - start)
  | CellClick _ _ => True
  end.

(** The cells clicked, and the values the timer reports, over a series
    of events of one phase. *)
Definition cells (events : list Event) : list (nat * nat) :=
  omap (λ e, match e with CellClick row col => Some (row, col) | Tick _ => None end)
       events.

Definition reports (start duration : Z) (events : list Event) : list Z :=
  omap (λ e, match e with
             | Tick t => Some (duration - (t - start))
             | CellClick _ _ => None
             end) events.

Lemma thermite_run_app events1 events2 s :
  run (events1 ++ events2) s = run events2 (run events1 s).
Proof. apply foldl_app. Qed.

Lemma thermite_tick_early st d h hst t s :
  timer s = (mkTimer st d (Some h), hst) → h ∈ live hst → 0 < d - (t - st) →
  timerTick t s
  = mkGame (config s) (gameState s) (d - (t - st)) (timer s) (grid s) (playerGrid s)
           (targetCells s) (selectedCount s) (incorrectSelections s)
           (showExplosion s) (scheduled s).
Proof.
  intros Htm Hlive Hearly. unfold timerTick. rewrite Htm. cbn [fst timerInterval].
  rewrite (CountdownFacts.tick_running d st h hst Hlive), decide_False by lia.
  done.
Qed.

(** The memorize phase: clicks are ignored, the timer only reports. *)
Lemma memorize_run st d h hst events : ∀ s,
  gameState s = memorize → timer s = (mkTimer st d (Some h), hst) → h ∈ live hst →
  Forall (early st d) events →
  ∃ left, run events s
          = mkGame (config s) memorize left (timer s) (grid s) (playerGrid s)
                   (targetCells s) (selectedCount s) (incorrectSelections s)
                   (showExplosion s) (scheduled s).
Proof.
  induction events as [|e events IH]; intros s Hstate Htm Hlive Hearly.
  { exists (timeLeft s). destruct s. simpl in *. by subst. }
  apply Forall_cons in Hearly as [He Hearly].
  change (run (e :: events) s) with (run events (step e s)).
  destruct e as [row col|t]; cbn [step].
  - unfold handleCellClick. rewrite Hstate. cbn [isSolving negb]. by apply IH.
  - rewrite (thermite_tick_early st d h hst) by done.
    destruct (IH (mkGame (config s) (gameState s) (d - (t - st)) (timer s) (grid s)
                         (playerGrid s) (targetCells s) (selectedCount s)
                         (incorrectSelections s) (showExplosion s) (scheduled s)))
      as (left & Hrun); [done..|].
    exists left. rewrite Hrun. done.
Qed.

(** The solving phase while target cells are left to select. *)
Lemma solving_run size st d h hst events : ∀ s,
  gameState s = solving → squareB size (playerGrid s) →
  timer s = (mkTimer st d (Some h), hst) → h ∈ live hst →
  Forall (early st d) events →
  NoDup (cells events) → Forall (inside size) (cells events) →
  Forall (λ cell, cellAt (grid s) (fst cell) (snd cell) = true) (cells events) →
  Forall (λ cell, cellAt (playerGrid s) (fst cell) (snd cell) = false) (cells events) →
  (selectedCount s + length (cells events) < length (targetCells s))%nat →
  run events s
  = mkGame (config s) solving (default (timeLeft s) (last (reports st d events)))
           (timer s) (grid s) (foldl setCellTrue (playerGrid s) (cells events))
           (targetCells s) (selectedCount s + length (cells events))
           (incorrectSelections s) (showExplosion s) (scheduled s).
Proof.
  induction events as [|e events IH];
    intros s Hstate Hsq Htm Hlive Hearly Hnd Hin Hon Hoff Hcount.
  { cbn. rewrite Nat.add_0_r. destruct s. simpl in *. by subst. }
  apply Forall_cons in Hearly as [He Hearly].
  change (run (e :: events) s) with (run events (step e s)).
  destruct s as [cfg st' tl tm g pg tc sel inc ex sc]. simpl in *. subst.
  destruct e as [row col|t]; cbn [step].
  - change (cells (CellClick row col :: events)) with ((row, col) :: cells events) in *.
    change (reports st d (CellClick row col :: events)) with (reports st d events).
    apply NoDup_cons in Hnd as [Hfresh Hnd].
    apply Forall_cons in Hin as [Hrc Hin].
    apply Forall_cons in Hon as [Hon1 Hon].
    apply Forall_cons in Hoff as [Hoff1 Hoff].
    cbn [fst snd length] in *.
    unfold handleCellClick. cbn [gameState isSolving negb playerGrid grid].
    rewrite Hoff1, Hon1. cbn [selectedCount targetCells].
    replace (S sel =? length tc)%nat with false by (symmetry; apply Nat.eqb_neq; lia).
    rewrite IH; cbn; try done.
    + f_equal. lia.
    + apply (squareB_set size _ (row, col) Hsq).
    + apply Forall_forall. intros [r' c'] Hcell.
      change (alter _ row pg) with (setCellTrue pg (row, col)).
      rewrite (cellAt_set size) by done. cbn [fst snd].
      rewrite bool_decide_false by (intros [= -> ->]; done).
      apply (proj1 (Forall_forall _ _) Hoff (r', c') Hcell).
    + lia.
  - change (cells (Tick t :: events)) with (cells events) in *.
    change (reports st d (Tick t :: events)) with (d - (t - st) :: reports st d events).
    rewrite (thermite_tick_early st d h hst) by done.
    rewrite IH; cbn; try done.
    f_equal. rewrite last_cons. by destruct (last (reports st d events)).
Qed.

(** After a success nothing changes the session. *)
Lemma thermite_success_run events : ∀ s,
  gameState s = success → timerInterval (fst (timer s)) = None → run events s = s.
Proof.
  induction events as [|e events IH]; intros s Hstate Hoff; [done|].
  change (run (e :: events) s) with (run events (step e s)).
  assert (Hstep : step e s = s).
  { destruct e as [row col|t]; cbn [step].
    - unfold handleCellClick. by rewrite Hstate.
    - unfold timerTick. by rewrite Hoff. }
  rewrite Hstep. by apply IH.
Qed.

(** X18 — Selecting the cells of the pattern during the solving phase,
    in any order and each once, wins, whenever the timer fires in
    between.  Take any events of the memorize phase before its time is
    up (clicks, which are ignored, and firings of the timer), the firing
    at [t0] that ends it, then the clicks on the target cells mixed in
    any way with firings of the solving timer before its time is up, and
    anything after the last click.  The session is in success, one
    completion is scheduled after 1500 ms, and it reports every target
    as a correct selection, no incorrect one, and as time remaining the
    value of the last firing between [t0] and the last click, or 0 if
    there was none. *)
Theorem thermite_pattern_wins (cfg : Config) (now t0 : Z) (host : Host)
        (ds ds' : list Z) (s0 : Game) (before body after : list Event)
        (row col : nat) :
  mount cfg now host ds = Some (s0, ds') →
  Forall (early now (displayTime cfg)) before →
  now + displayTime cfg ≤ t0 →
  Forall (early t0 (duration cfg)) body →
  cells body ++ [(row, col)] ≡ₚ targetCells s0 →
  gameState (run (before ++ Tick t0 :: body ++ CellClick row col :: after) s0) = success
  ∧ scheduled (run (before ++ Tick t0 :: body ++ CellClick row col :: after) s0)
    = [(1500, true)]
  ∧ dispatchComplete true
      (run (before ++ Tick t0 :: body ++ CellClick row col :: after) s0)
    = Events.mkComplete true
        [("timeRemaining"%string,
          Events.VNum (default 0 (last (reports t0 (duration cfg) body))));
         ("correctSelections"%string, Events.VNum (Z.of_nat (length (targetCells s0))));
         ("incorrectSelections"%string, Events.VNum 0);
         ("totalTargets"%string, Events.VNum (Z.of_nat (length (targetCells s0))))].
Proof.
  intros Hmount Hbefore Ht0 Hbody Hperm.
  destruct (mount_tracked _ _ _ _ _ _ Hmount)
    as (targets & pattern & Hnd & Hin & Hpat & Hlen & Hs0).
  destruct Hs0 as (_ & Hgrid0 & Htargets0 & _).
  unfold mount, bind in Hmount.
  destruct (generatePattern cfg (blankGrid cfg) ds) as [[[targets' pattern'] ds1]|];
    [|done].
  injection Hmount as <- <-. cbn [grid targetCells] in *. subst targets' pattern'.
  assert (Hnd' : NoDup (cells body ++ [(row, col)])) by (by rewrite Hperm).
  apply NoDup_app in Hnd' as (Hndb & Hfresh & _).
  assert (Hin' : Forall (inside (gridSize cfg)) (cells body ++ [(row, col)]))
    by (by rewrite Hperm).
  apply Forall_app in Hin' as [Hinb Hinx].
  assert (Hcount : length targets = S (length (cells body))).
  { rewrite <-Hperm, length_app. simpl. lia. }
  match goal with |- gameState ?final = _ ∧ _ =>
    assert (Hfinal : ∃ tm pg,
      final = mkGame cfg success (default 0 (last (reports t0 (duration cfg) body))) tm
                     pattern pg targets (length targets) 0 false [(1500, true)])
  end.
  { rewrite thermite_run_app.
    match goal with |- context [run before ?s] =>
      destruct (memorize_run now (displayTime cfg) (nextHandle host)
                  (mkHost ({[nextHandle host]} ∪ live host) (nextHandle host + 1)%positive)
                  before s) as (left & ->); [done | done | cbn; set_solver | done |]
    end.
    change (run (Tick t0 :: ?l) ?s) with (run l (timerTick t0 s)).
    cbn [config grid playerGrid targetCells selectedCount incorrectSelections
         showExplosion scheduled timer].
    unfold timerTick. cbn [timer start setInterval fst snd timerInterval].
    rewrite (CountdownFacts.tick_running (displayTime cfg) now (nextHandle host))
      by (cbn; set_solver).
    rewrite decide_True by lia.
    cbn [foldl onTimer withTimer gameState startSolvingPhase config timeLeft grid
         playerGrid targetCells selectedCount incorrectSelections showExplosion
         timer scheduled stop start new setInterval clearInterval fst snd
         timerInterval startTime Utils.duration live nextHandle].
    rewrite thermite_run_app.
    erewrite (solving_run (gridSize cfg) t0 (duration cfg) _ _ body);
      [ | reflexivity | apply squareB_blank | reflexivity | cbn; set_solver
        | exact Hbody | exact Hndb | exact Hinb | | | cbn; lia ].
    2:{ apply Forall_forall. intros [r c] Hcell. apply Hpat. rewrite <-Hperm.
        apply elem_of_app. by left. }
    2:{ apply Forall_forall. intros [r c] _. apply cellAt_blank. }
    cbn [startSolvingPhase gameState playerGrid grid timer targetCells selectedCount
         timeLeft config incorrectSelections showExplosion scheduled Nat.add].
    change (run (CellClick row col :: after) ?s) with (run after (handleCellClick row col s)).
    unfold handleCellClick. cbn [gameState isSolving negb playerGrid grid].
    destruct (foldl_set (gridSize cfg) (cells body) (blankGrid cfg)
                (squareB_blank cfg) Hinb) as [_ Hcells].
    rewrite Hcells, cellAt_blank, orb_false_r, bool_decide_false.
    2:{ intros Hx. apply (Hfresh (row, col)); [done | by apply list_elem_of_singleton]. }
    replace (cellAt pattern row col) with true.
    2:{ symmetry. apply Hpat. rewrite <-Hperm. apply elem_of_app. right.
        by apply list_elem_of_singleton. }
    cbn [selectedCount targetCells].
    replace (S (length (cells body)) =? length targets)%nat with true
      by (symmetry; apply Nat.eqb_eq; lia).
    rewrite thermite_success_run; [|done..].
    eexists _, _. unfold handleGameOver. cbn. f_equal. lia. }
  destruct Hfinal as (tm & pg & ->). done.
Qed.

(** A 2x2 board with the two targets (1, 1) and (0, 1).  The timer fires
    while the pattern is shown, then its time is up; the player selects
    the two cells, the timer firing before and between the clicks, the
    last time with 7400 ms left. *)
Lemma thermite_pattern_wins_witness :
  ∃ s0,
    mount (mkConfig 2 2 3000 8000) 0 (mkHost ∅ 1) [2 ^ 52; 0; 2 ^ 53 - 1] = Some (s0, [])
    ∧ dispatchComplete true
        (run ([Tick 10; CellClick 0 0] ++ Tick 3000
                :: [Tick 3400; CellClick 0 1; Tick 3600] ++ CellClick 1 1 :: [Tick 3700])
             s0)
      = Events.mkComplete true
          [("timeRemaining"%string, Events.VNum 7400);
           ("correctSelections"%string, Events.VNum 2);
           ("incorrectSelections"%string, Events.VNum 0);
           ("totalTargets"%string, Events.VNum 2)].
Proof.
  eexists.
  match goal with |- ?m = Some (?s, _) ∧ _ =>
    assert (Hmount : m = Some (s, [])) by (vm_compute; reflexivity)
  end.
  split; [exact Hmount|].
  apply (thermite_pattern_wins _ _ 3000 _ _ _ _ [Tick 10; CellClick 0 0]
           [Tick 3400; CellClick 0 1; Tick 3600] [Tick 3700] 1 1 Hmount).
  - repeat constructor; cbn; lia.
  - cbn. lia.
  - repeat constructor; cbn; lia.
  - cbn. apply Permutation_swap.
Defined.

End ThermiteFacts.

(** ** Code Cracker: the secret code, the session, the pegs in common *)

Module CodeSessionFacts.
Import Utils CodeCracker RandFacts CodeCrackerFacts.

(** *** The secret code *)

(** X19 — Given at least [codeLength] draws, [generateSecretCode] returns
    a code of [codeLength] colours, each one of the eight palette colours
    (never an undefined entry), having used exactly [codeLength] draws. *)
Theorem generateSecretCode_palette (n : nat) (ds : list Z) :
  (n ≤ length ds)%nat →
  ∃ code, generateSecretCode n ds = Some (code, drop n ds)
          ∧ length code = n ∧ Forall (λ c, c ∈ colorOptions) code.
Proof.
  revert ds.
  induction n as [|n IH]; intros ds Hds.
  { exists []. by rewrite drop_0. }
  destruct ds as [|k ds0]; [simpl in Hds; lia|].
  cbn [generateSecretCode]. unfold bind at 1.
  destruct (getRandomInt 0 (Z.of_nat (length colorOptions) - 1) (k :: ds0))
    as [[i ds1]|] eqn:Hdraw.
  2:{ by unfold getRandomInt, bind, Math_random in Hdraw. }
  assert (ds1 = ds0) as ->.
  { unfold getRandomInt, bind, Math_random, ret in Hdraw. by injection Hdraw. }
  apply getRandomInt_range in Hdraw; [|done].
  destruct (IH ds0) as (code & Hrun & Hlen & Hin); [simpl in Hds; lia|].
  unfold bind at 1. rewrite Hrun. cbn [ret drop].
  destruct (lookup_lt_is_Some_2 colorOptions (Z.to_nat i)) as [c Hc].
  { simpl in *. lia. }
  rewrite Hc. exists (c :: code). split_and!; [done | simpl; lia |].
  constructor; [by eapply list_elem_of_lookup_2 | done].
Qed.

Lemma generateSecretCode_palette_witness :
  ∃ code, generateSecretCode 4 [0; 2 ^ 52; 2 ^ 53 - 1; 2 ^ 51; 77] = Some (code, [77])
          ∧ length code = 4%nat.
Proof.
  destruct (generateSecretCode_palette 4 [0; 2 ^ 52; 2 ^ 53 - 1; 2 ^ 51; 77])
    as (code & Hrun & Hlen & _); [simpl; lia|].
  by exists code.
Defined.

(** *** Rounds *)

(** One round: the colours picked on the palette, then the submit
    button; and a series of rounds. *)
Definition playRound (g : list string) (s : Game) : Game :=
  submitGuess (enterGuess g s).

Definition playRounds (gs : list (list string)) (s : Game) : Game :=
  foldl (λ s g, playRound g s) s gs.

Lemma enterGuess_fill rest : ∀ pre s,
  gameState s = playing →
  codeLength (config s) = (length pre + length rest)%nat →
  currentGuess s = (Some <$> pre) ++ replicate (length rest) None →
  selectedPosition s = length pre → rest ≠ [] →
  enterGuess rest s
  = mkGame (config s) playing (timeLeft s) (timer s) (currentAttempt s)
           (attempts s) (feedback s) (secretCode s)
           (Some <$> (pre ++ rest)) (length pre + length rest - 1) (scheduled s).
Proof.
  induction rest as [|c rest IH]; intros pre s Hplay Hlen Hguess Hpos Hne; [done|].
  unfold enterGuess. cbn [foldl]. fold (enterGuess rest (selectColor c s)).
  assert (Hsel : selectColor c s
    = mkGame (config s) playing (timeLeft s) (timer s) (currentAttempt s)
             (attempts s) (feedback s) (secretCode s)
             ((Some <$> (pre ++ [c])) ++ replicate (length rest) None)
             (if decide (rest = []) then length pre else S (length pre))
             (scheduled s)).
  { unfold selectColor. rewrite Hplay. cbn [isPlaying negb]. f_equal.
    - rewrite Hguess, Hpos. cbn [length replicate].
      rewrite insert_app_r_alt by (by rewrite length_fmap).
      rewrite length_fmap, Nat.sub_diag. cbn [insert list_insert].
      by rewrite fmap_app, <-app_assoc.
    - rewrite Hpos, Hlen. cbn [length]. destruct rest as [|d rest].
      + rewrite decide_True by done.
        replace (_ <? _) with false; [done|]. symmetry. apply Z.ltb_ge. simpl. lia.
      + rewrite decide_False by done.
        replace (_ <? _) with true; [done|]. symmetry. apply Z.ltb_lt. simpl. lia. }
  rewrite Hsel. destruct rest as [|d rest].
  - rewrite decide_True by done. cbn [enterGuess foldl length replicate].
    rewrite app_nil_r. f_equal. lia.
  - rewrite decide_False by done.
    rewrite (IH (pre ++ [c])); cbn [config gameState currentGuess selectedPosition
      timeLeft timer currentAttempt attempts feedback secretCode scheduled];
      [| done | | done | | done].
    + rewrite <-app_assoc. cbn [app]. f_equal.
      rewrite length_app. cbn [length]. lia.
    + rewrite Hlen, length_app. cbn [length]. lia.
    + rewrite length_app. cbn [length]. lia.
Qed.

(** A session between rounds: playing at attempt [k], the guess row
    empty and the cursor on its first slot. *)
Definition atAttempt (cfg : Config) (secret : list string) (k : nat) (s : Game) : Prop :=
  config s = cfg ∧ gameState s = playing ∧ secretCode s = secret
  ∧ currentAttempt s = k
  ∧ currentGuess s = replicate (codeLength cfg) None
  ∧ selectedPosition s = 0%nat.

Lemma playRound_spec cfg secret k s g :
  atAttempt cfg secret k s →
  (1 ≤ codeLength cfg)%nat → length secret = codeLength cfg → length g = codeLength cfg →
  playRound g s =
    let attempts' := <[k := Some <$> g]> (attempts s) in
    let feedback' := <[k := mkFeedback (spec_correct g secret) (spec_misplaced g secret)]>
                       (feedback s) in
    let s1 := mkGame cfg playing (timeLeft s) (timer s) k attempts' feedback' secret
                     (Some <$> g) (codeLength cfg - 1) (scheduled s) in
    if bool_decide (g = secret) then handleGameOver true s1 else
    if Z.of_nat k >=? Z.of_nat (attemptsAllowed cfg) - 1
    then handleGameOver false s1 else
    mkGame cfg playing (timeLeft s) (timer s) (S k) attempts' feedback' secret
           (replicate (codeLength cfg) None) 0 (scheduled s).
Proof.
  intros (Hcfg & Hplay & Hsecret & Hk & Hguess & Hpos) Hn Hls Hlg.
  unfold playRound.
  rewrite (enterGuess_fill g [] s); [| done | | | done |].
  - rewrite (submitGuess_complete _ g); cbn [config gameState currentGuess secretCode
      timeLeft timer currentAttempt attempts feedback selectedPosition scheduled];
      [| done | done | congruence | congruence].
    rewrite Hcfg, Hsecret, Hk, Hlg. cbn [app length]. done.
  - rewrite Hcfg. simpl. lia.
  - rewrite Hguess, Hlg. done.
  - intros ->. simpl in Hlg. lia.
Qed.

(** The row that a submitted guess leaves in [attempts]. *)
Definition guessRow (g : list string) : list Slot := Some <$> g.

(** The feedback that a submitted guess leaves in [feedback]. *)
Definition guessFeedback (secret g : list string) : Feedback :=
  mkFeedback (spec_correct g secret) (spec_misplaced g secret).

(** The closed form of a session after a series of wrong guesses that
    leaves at least one attempt. *)
Definition board (cfg : Config) (secret : list string) (gs : list (list string))
           (time : Z) (tm : CountdownTimer * Host) : Game :=
  mkGame cfg playing time tm (length gs)
         ((guessRow <$> gs)
            ++ replicate (attemptsAllowed cfg - length gs) (replicate (codeLength cfg) None))
         ((guessFeedback secret <$> gs)
            ++ replicate (attemptsAllowed cfg - length gs) (mkFeedback 0 0))
         secret (replicate (codeLength cfg) None) 0 [].

Lemma board_atAttempt cfg secret gs time tm :
  atAttempt cfg secret (length gs) (board cfg secret gs time tm).
Proof. by split_and!. Qed.

Lemma insert_next {A} (done0 : list A) (blank x : A) n :
  (length done0 < n)%nat →
  <[length done0 := x]> (done0 ++ replicate (n - length done0) blank)
  = (done0 ++ [x]) ++ replicate (n - length (done0 ++ [x])) blank.
Proof.
  intros Hlt. rewrite length_app. cbn [length].
  replace (n - length done0)%nat with (S (n - (length done0 + 1))) by lia.
  cbn [replicate]. rewrite insert_app_r_alt by done.
  rewrite Nat.sub_diag. cbn [insert list_insert]. by rewrite <-app_assoc.
Qed.

Lemma playRounds_snoc gs g s : playRounds (gs ++ [g]) s = playRound g (playRounds gs s).
Proof. unfold playRounds. by rewrite foldl_snoc. Qed.

Lemma playRounds_board cfg secret time tm gs :
  (1 ≤ codeLength cfg)%nat → length secret = codeLength cfg →
  Forall (λ g, length g = codeLength cfg ∧ g ≠ secret) gs →
  (length gs < attemptsAllowed cfg)%nat →
  playRounds gs (board cfg secret [] time tm) = board cfg secret gs time tm.
Proof.
  intros Hn Hls. induction gs as [|g gs IH] using rev_ind; intros Hgs Hroom; [done|].
  apply Forall_app in Hgs as [Hgs Hg]. apply Forall_singleton in Hg as [Hlg Hwrong].
  rewrite length_app in Hroom. cbn [length] in Hroom.
  rewrite playRounds_snoc, IH by (done || lia).
  rewrite (playRound_spec cfg secret (length gs)); [| apply board_atAttempt | done..].
  cbn zeta. rewrite bool_decide_false by done.
  replace (_ >=? _) with false by (symmetry; rewrite Z.geb_leb; apply Z.leb_gt; lia).
  unfold board. cbn [attempts feedback timeLeft timer scheduled].
  f_equal.
  - rewrite length_app. simpl. lia.
  - change (Some <$> g) with (guessRow g).
    replace (length gs) with (length (guessRow <$> gs)) at 1 by (by rewrite length_fmap).
    replace (attemptsAllowed cfg - length gs)%nat
      with (attemptsAllowed cfg - length (guessRow <$> gs))%nat by (by rewrite length_fmap).
    rewrite insert_next by (rewrite length_fmap; lia).
    by rewrite fmap_app, !length_app, !length_fmap.
  - change (mkFeedback (spec_correct g secret) (spec_misplaced g secret))
      with (guessFeedback secret g).
    replace (length gs) with (length (guessFeedback secret <$> gs)) at 1
      by (by rewrite length_fmap).
    replace (attemptsAllowed cfg - length gs)%nat
      with (attemptsAllowed cfg - length (guessFeedback secret <$> gs))%nat
      by (by rewrite length_fmap).
    rewrite insert_next by (rewrite length_fmap; lia).
    by rewrite fmap_app, !length_app, !length_fmap.
Qed.

Lemma mount_board cfg secret duration now host :
  mount cfg secret duration now host
  = board cfg secret [] duration (start now (new now duration, host)).
Proof.
  unfold mount, startGame, resetGame, board. cbn. by rewrite Nat.sub_0_r.
Qed.

Lemma guessFeedback_checkGuess secret g :
  length g = length secret →
  guessFeedback secret g = checkGuess (length secret) (Some <$> g) secret.
Proof. intros Hlen. by rewrite checkGuess_spec. Qed.

(** X20 — After any series of complete wrong guesses that leaves at least
    one attempt, the session is still playing, [currentAttempt] is the
    number of guesses submitted, [attempts] holds those guesses in order
    followed by empty rows, [feedback] holds the result of [checkGuess]
    for each of them followed by zero entries, the guess row is empty
    again with the cursor on its first slot, and nothing is scheduled. *)
Theorem code_history (cfg : Config) (secret : list string) (duration now : Z)
        (host : Host) (gs : list (list string)) :
  (1 ≤ codeLength cfg)%nat → length secret = codeLength cfg →
  Forall (λ g, length g = codeLength cfg ∧ g ≠ secret) gs →
  (length gs < attemptsAllowed cfg)%nat →
  gameState (playRounds gs (mount cfg secret duration now host)) = playing
  ∧ currentAttempt (playRounds gs (mount cfg secret duration now host)) = length gs
  ∧ attempts (playRounds gs (mount cfg secret duration now host))
    = ((λ g : list string, Some <$> g) <$> gs)
        ++ replicate (attemptsAllowed cfg - length gs) (replicate (codeLength cfg) None)
  ∧ feedback (playRounds gs (mount cfg secret duration now host))
    = ((λ g : list string, checkGuess (codeLength cfg) (Some <$> g) secret) <$> gs)
        ++ replicate (attemptsAllowed cfg - length gs) (mkFeedback 0 0)
  ∧ currentGuess (playRounds gs (mount cfg secret duration now host))
    = replicate (codeLength cfg) None
  ∧ selectedPosition (playRounds gs (mount cfg secret duration now host)) = 0%nat
  ∧ scheduled (playRounds gs (mount cfg secret duration now host)) = [].
Proof.
  intros Hn Hls Hgs Hroom. rewrite mount_board, playRounds_board by done.
  split_and!; try done. cbn. f_equal. apply list_fmap_ext. intros i g Hg.
  pose proof (proj1 (Forall_lookup _ gs) Hgs i g Hg) as [Hlg _].
  rewrite <-Hls. apply guessFeedback_checkGuess. congruence.
Qed.

Lemma code_history_witness :
  currentAttempt
    (playRounds [["#FF5252"; "#FF5252"; "#FF5252"; "#FF5252"];
                 ["#FF5252"; "#4CAF50"; "#2196F3"; "#2196F3"]]%string
       (mount (mkConfig 4 6) ["#FF5252"; "#2196F3"; "#4CAF50"; "#4CAF50"]%string
              30000 0 (mkHost ∅ 1))) = 2%nat.
Proof.
  apply (code_history (mkConfig 4 6) ["#FF5252"; "#2196F3"; "#4CAF50"; "#4CAF50"]%string
           30000 0 (mkHost ∅ 1)
           [["#FF5252"; "#FF5252"; "#FF5252"; "#FF5252"];
            ["#FF5252"; "#4CAF50"; "#2196F3"; "#2196F3"]]%string).
  - simpl. lia.
  - done.
  - repeat constructor; done.
  - simpl. lia.
Defined.

(** X21 — A session decided by a guess reports the number of guesses
    submitted.  After wrong guesses that leave at least one attempt,
    entering the secret code wins, and the completion carries
    [attempts] = that number plus one; if the wrong guesses used all
    attempts but one, another wrong guess loses, and the completion
    carries [attempts] = [config.attempts] together with the secret
    code. *)
Theorem code_verdict_attempts (cfg : Config) (secret : list string) (duration now : Z)
        (host : Host) (gs : list (list string)) :
  (1 ≤ codeLength cfg)%nat → length secret = codeLength cfg →
  Forall (λ g, length g = codeLength cfg ∧ g ≠ secret) gs →
  (length gs < attemptsAllowed cfg)%nat →
  (gameState (playRound secret (playRounds gs (mount cfg secret duration now host)))
     = success
   ∧ scheduled (playRound secret (playRounds gs (mount cfg secret duration now host)))
     = [(2000, true)]
   ∧ dispatchComplete true
       (playRound secret (playRounds gs (mount cfg secret duration now host)))
     = Events.mkComplete true
         [("timeRemaining"%string, Events.VNum duration);
          ("attempts"%string, Events.VNum (Z.of_nat (length gs) + 1));
          ("secretCode"%string, Events.VColors secret)])
  ∧ ∀ g, length g = codeLength cfg → g ≠ secret →
      (if decide (S (length gs) = attemptsAllowed cfg) then
         gameState (playRound g (playRounds gs (mount cfg secret duration now host)))
           = failure
         ∧ scheduled (playRound g (playRounds gs (mount cfg secret duration now host)))
           = [(2000, false)]
         ∧ dispatchComplete false
             (playRound g (playRounds gs (mount cfg secret duration now host)))
           = Events.mkComplete false
               [("timeRemaining"%string, Events.VNum duration);
                ("attempts"%string, Events.VNum (Z.of_nat (attemptsAllowed cfg)));
                ("secretCode"%string, Events.VColors secret)]
       else
         gameState (playRound g (playRounds gs (mount cfg secret duration now host)))
           = playing).
Proof.
  intros Hn Hls Hgs Hroom. rewrite mount_board, playRounds_board by done.
  split.
  - rewrite (playRound_spec cfg secret (length gs)); [| apply board_atAttempt | done..].
    cbn zeta. rewrite bool_decide_true by done. by cbn.
  - intros g Hlg Hwrong.
    rewrite (playRound_spec cfg secret (length gs)); [| apply board_atAttempt | done..].
    cbn zeta. rewrite bool_decide_false by done.
    destruct (decide (S (length gs) = attemptsAllowed cfg)) as [Hlast|Hmore].
    + replace (_ >=? _) with true by (symmetry; rewrite Z.geb_leb; apply Z.leb_le; lia).
      cbn. split_and!; [done | done |]. unfold dispatchComplete. cbn.
      replace (Z.of_nat (attemptsAllowed cfg)) with (Z.of_nat (length gs) + 1) by lia.
      done.
    + replace (_ >=? _) with false by (symmetry; rewrite Z.geb_leb; apply Z.leb_gt; lia).
      done.
Qed.

Lemma code_verdict_attempts_witness :
  gameState
    (playRound ["#FF5252"; "#2196F3"; "#4CAF50"; "#4CAF50"]%string
       (playRounds [["#FF5252"; "#FF5252"; "#FF5252"; "#FF5252"]]%string
          (mount (mkConfig 4 2) ["#FF5252"; "#2196F3"; "#4CAF50"; "#4CAF50"]%string
                 30000 0 (mkHost ∅ 1)))) = success.
Proof.
  apply (code_verdict_attempts (mkConfig 4 2)
           ["#FF5252"; "#2196F3"; "#4CAF50"; "#4CAF50"]%string 30000 0 (mkHost ∅ 1)
           [["#FF5252"; "#FF5252"; "#FF5252"; "#FF5252"]]%string).
  - simpl. lia.
  - done.
  - repeat constructor; done.
  - simpl. lia.
Defined.

(** X22 — When the countdown runs out during play, after any series of
    wrong guesses that left an attempt, the session fails and the
    completion carries a time remaining of 0 and [attempts] = the number
    of guesses submitted plus one: the guess that was never submitted is
    counted. *)
Theorem code_timeout_attempts (cfg : Config) (secret : list string)
        (duration now t : Z) (host : Host) (gs : list (list string)) :
  (1 ≤ codeLength cfg)%nat → length secret = codeLength cfg →
  Forall (λ g, length g = codeLength cfg ∧ g ≠ secret) gs →
  (length gs < attemptsAllowed cfg)%nat →
  now + duration ≤ t →
  gameState (timerTick t (playRounds gs (mount cfg secret duration now host))) = failure
  ∧ scheduled (timerTick t (playRounds gs (mount cfg secret duration now host)))
    = [(2000, false)]
  ∧ dispatchComplete false
      (timerTick t (playRounds gs (mount cfg secret duration now host)))
    = Events.mkComplete false
        [("timeRemaining"%string, Events.VNum 0);
         ("attempts"%string, Events.VNum (Z.of_nat (length gs) + 1));
         ("secretCode"%string, Events.VColors secret)].
Proof.
  intros Hn Hls Hgs Hroom Ht. rewrite mount_board, playRounds_board by done.
  unfold timerTick, board, start, setInterval, tick.
  cbn [timer fst snd timerInterval live startTime Utils.duration new].
  rewrite decide_True by set_solver.
  replace (Z.max 0 (duration - (t - now))) with 0 by lia.
  by cbn.
Qed.

Lemma code_timeout_attempts_witness :
  Events.field "attempts"
    (Events.data (dispatchComplete false
       (timerTick 30000
          (playRounds []
             (mount (mkConfig 4 6) ["#FF5252"; "#2196F3"; "#4CAF50"; "#4CAF50"]%string
                    30000 0 (mkHost ∅ 1))))))
  = Some (Events.VNum 1).
Proof.
  destruct (code_timeout_attempts (mkConfig 4 6)
              ["#FF5252"; "#2196F3"; "#4CAF50"; "#4CAF50"]%string 30000 0 30000
              (mkHost ∅ 1) []) as (_ & _ & ->).
  - simpl. lia.
  - done.
  - constructor.
  - simpl. lia.
  - lia.
  - reflexivity.
Defined.

(** *** The feedback as a count of common pegs *)

(** The multiset of the colours of a row. *)
Definition pegs (row : list string) : gmultiset string := list_to_set_disj row.

Lemma pegs_nil : pegs [] = ∅.
Proof. done. Qed.

Lemma pegs_cons c row : pegs (c :: row) = {[+ c +]} ⊎ pegs row.
Proof. done. Qed.

Lemma pegs_remove_one c pool :
  c ∈ pool → pegs pool = {[+ c +]} ⊎ pegs (remove_one c pool).
Proof.
  induction pool as [|x pool IH]; intros Hc; [by apply elem_of_nil in Hc|].
  cbn [remove_one]. case_bool_decide as Hx.
  - subst x. apply pegs_cons.
  - apply elem_of_cons in Hc as [->|Hc]; [done|].
    rewrite !pegs_cons, (IH Hc). multiset_solver.
Qed.

Lemma spec_pairing_common guessLeft : ∀ pool,
  spec_pairing guessLeft pool = size (pegs guessLeft ∩ pegs pool).
Proof.
  induction guessLeft as [|c guessLeft IH]; intros pool.
  { rewrite pegs_nil. replace (∅ ∩ pegs pool) with (∅ : gmultiset string)
      by multiset_solver.
    done. }
  cbn [spec_pairing]. rewrite pegs_cons. case_bool_decide as Hc.
  - rewrite IH, (pegs_remove_one c pool Hc).
    replace (({[+ c +]} ⊎ pegs guessLeft) ∩ ({[+ c +]} ⊎ pegs (remove_one c pool)))
      with ({[+ c +]} ⊎ (pegs guessLeft ∩ pegs (remove_one c pool)))
      by multiset_solver.
    by rewrite gmultiset_size_disj_union, gmultiset_size_singleton.
  - rewrite IH. f_equal.
    assert (Hnot : c ∉ pegs pool) by (unfold pegs; by rewrite elem_of_list_to_set_disj).
    apply gmultiset_eq. intros x.
    rewrite !multiplicity_intersection, multiplicity_disj_union.
    apply not_elem_of_multiplicity in Hnot.
    destruct (decide (x = c)) as [->|Hne].
    + rewrite Hnot. lia.
    + rewrite multiplicity_singleton_ne by done. lia.
Qed.

Lemma pegs_split guess : ∀ secret,
  length guess = length secret →
  ∃ matched : gmultiset string,
    size matched = spec_correct guess secret
    ∧ pegs guess = matched ⊎ pegs (fst <$> spec_remaining guess secret)
    ∧ pegs secret = matched ⊎ pegs (snd <$> spec_remaining guess secret).
Proof.
  induction guess as [|g guess IH]; intros [|s secret] Hlen; try done.
  { exists ∅. unfold spec_remaining. cbn [zip zip_with filter list_filter fmap list_fmap].
    rewrite pegs_nil. split_and!; [done | multiset_solver | multiset_solver]. }
  injection Hlen as Hlen. destruct (IH secret Hlen) as (matched & Hsize & Hg & Hs).
  rewrite spec_correct_cons. unfold spec_remaining. cbn [zip zip_with].
  rewrite filter_cons. cbn [fst snd]. fold (spec_remaining guess secret).
  rewrite !pegs_cons.
  destruct (decide (g = s)) as [->|Hne].
  - rewrite bool_decide_true, decide_False by (done || naive_solver).
    exists ({[+ s +]} ⊎ matched).
    rewrite gmultiset_size_disj_union, gmultiset_size_singleton, Hsize, Hg, Hs.
    split_and!; [done | multiset_solver | multiset_solver].
  - rewrite bool_decide_false, decide_True by done.
    exists matched. rewrite !fmap_cons. cbn [fst snd]. rewrite !pegs_cons.
    rewrite Hg, Hs. split_and!; [done | multiset_solver | multiset_solver].
Qed.

(** X23 — For a complete guess, [correct + misplaced] is the number of
    pegs the guess has in common with the secret code when positions are
    ignored: the size of the intersection of the two rows as multisets of
    colours.  The sum therefore does not change when the guess is
    rearranged. *)
Theorem checkGuess_common_pegs (guess secret : list string) :
  length guess = length secret →
  (correct (checkGuess (length secret) (Some <$> guess) secret)
   + misplaced (checkGuess (length secret) (Some <$> guess) secret))%nat
  = size (pegs guess ∩ pegs secret)
  ∧ ∀ guess', guess' ≡ₚ guess →
      (correct (checkGuess (length secret) (Some <$> guess') secret)
       + misplaced (checkGuess (length secret) (Some <$> guess') secret))%nat
      = (correct (checkGuess (length secret) (Some <$> guess) secret)
         + misplaced (checkGuess (length secret) (Some <$> guess) secret))%nat.
Proof.
  assert (Hsum : ∀ g, length g = length secret →
    (correct (checkGuess (length secret) (Some <$> g) secret)
     + misplaced (checkGuess (length secret) (Some <$> g) secret))%nat
    = size (pegs g ∩ pegs secret)).
  { intros g Hlen. rewrite checkGuess_spec by done. cbn [correct misplaced].
    unfold spec_misplaced. rewrite spec_pairing_common.
    destruct (pegs_split g secret Hlen) as (matched & <- & -> & ->).
    rewrite <-gmultiset_size_disj_union. f_equal. multiset_solver. }
  intros Hlen. split; [by apply Hsum|].
  intros guess' Hperm. rewrite !Hsum by (done || by rewrite Hperm).
  unfold pegs. by rewrite Hperm.
Qed.

Lemma checkGuess_common_pegs_witness :
  (correct (checkGuess 4 (Some <$> ["#FF5252"; "#4CAF50"; "#2196F3"; "#2196F3"]%string)
                       ["#FF5252"; "#2196F3"; "#4CAF50"; "#4CAF50"]%string)
   + misplaced (checkGuess 4 (Some <$> ["#FF5252"; "#4CAF50"; "#2196F3"; "#2196F3"]%string)
                           ["#FF5252"; "#2196F3"; "#4CAF50"; "#4CAF50"]%string))%nat
  = size (pegs ["#FF5252"; "#4CAF50"; "#2196F3"; "#2196F3"]%string
          ∩ pegs ["#FF5252"; "#2196F3"; "#4CAF50"; "#4CAF50"]%string).
Proof.
  exact (proj1 (checkGuess_common_pegs
                  ["#FF5252"; "#4CAF50"; "#2196F3"; "#2196F3"]%string
                  ["#FF5252"; "#2196F3"; "#4CAF50"; "#4CAF50"]%string eq_refl)).
Defined.

End CodeSessionFacts.

(** ** Circuit Solver: horizontal boards can be won *)

Module SolvableFacts.
Import Utils CircuitSolver RandFacts CircuitFacts GenerationFacts.

(** *** The path carved between endpoints of one row *)

Lemma visitedAt_mark_ne v r c r' c' :
  (r', c') ≠ (r, c) → visitedAt (markVisited v r c) r' c' = visitedAt v r' c'.
Proof.
  intros Hne. unfold visitedAt, markVisited.
  destruct (decide (r = r')) as [->|Hr].
  - rewrite list_lookup_alter_eq. destruct (v !! r') as [row|]; [|done].
    cbn [fmap option_fmap option_map].
    rewrite list_lookup_insert_ne by congruence. done.
  - by rewrite list_lookup_alter_ne.
Qed.

Lemma movesToward_row v row c tc :
  (c < tc)%nat → visitedAt v row (c + 1) = false →
  movesToward v (row, c) (row, tc) = [((row, (c + 1)%nat), dright)].
Proof.
  intros Hlt Hfree. unfold movesToward.
  rewrite Nat.ltb_irrefl, Hfree. cbn [andb negb app].
  replace (c <? tc)%nat with true by (symmetry; apply Nat.ltb_lt; lia).
  replace (tc <? c)%nat with false by (symmetry; apply Nat.ltb_ge; lia).
  done.
Qed.

Lemma carve_row row tc fuel : ∀ c g v ds g' ds',
  carve fuel g v (row, c) (row, tc) ds = Some (g', ds') →
  (c ≤ tc)%nat →
  (∀ c', (c < c')%nat → visitedAt v row c' = false) →
  (∀ c', (c ≤ c' < tc)%nat → is_Some (slotAt g (row, c')) →
         isFixedCell g (row, c') = false →
         slotAt g' (row, c') = Some (Some (createPiece straight 90)))
  ∧ (∀ p, fst p ≠ row ∨ (snd p < c)%nat ∨ (tc ≤ snd p)%nat → slotAt g' p = slotAt g p).
Proof.
  induction fuel as [|fuel IH]; intros c g v ds g' ds' Hrun Hle Hfresh;
    cbn [carve] in Hrun; case_bool_decide as Hat.
  - injection Hrun as <- _. injection Hat as ->. split; [intros; lia | done].
  - done.
  - injection Hrun as <- _. injection Hat as ->. split; [intros; lia | done].
  - assert (Hlt : (c < tc)%nat).
    { destruct (decide (c = tc)) as [->|]; [done | lia]. }
    rewrite (movesToward_row v row c tc Hlt) in Hrun by (apply Hfresh; lia).
    rewrite bool_decide_false in Hrun by done.
    unfold bind in Hrun. cbn [length] in Hrun.
    destruct (getRandomInt 0 (Z.of_nat 1 - 1) ds) as [[i ds1]|] eqn:Hdraw; [|done].
    apply getRandomInt_range in Hdraw; [|done].
    replace i with 0 in Hrun by lia. cbn [Z.to_nat lookup list_lookup default] in Hrun.
    cbn [fst snd] in Hrun.
    apply IH in Hrun as [Hpath Hframe]; [|lia|].
    2:{ intros c' Hc'. rewrite visitedAt_mark_ne by (intros [= ?]; lia).
        apply Hfresh. lia. }
    split.
    + intros c' Hc' Hslot Hfree.
      destruct (decide (c' = c)) as [->|Hne].
      * rewrite Hframe by (right; left; simpl; lia).
        rewrite Hfree. by apply slotAt_setCell_eq.
      * assert (Hsame : slotAt (if isFixedCell g (row, c) then g
                                else setCell g row c (pathPiece dright)) (row, c')
                        = slotAt g (row, c')).
        { destruct (isFixedCell g (row, c)); [done|].
          apply slotAt_setCell_ne. intros [= ?]. lia. }
        apply Hpath; [lia | by rewrite Hsame |].
        by rewrite (isFixedCell_slotAt g _ _ Hsame).
    + intros p Hp. rewrite Hframe by (destruct Hp as [?|[?|?]]; [by left | right; left; lia | by right; right]).
      destruct (isFixedCell g (row, c)); [done|].
      apply slotAt_setCell_ne. destruct p as [pr pc]. simpl in Hp. intros [= -> ->]. lia.
Qed.

(** A straight piece as [randomizeRotations] leaves it. *)
Definition turnedStraight (r : Z) : CircuitPiece :=
  mkPiece straight r (rotateConnections (pieceDefs straight) r) false false.

(** On a board whose endpoints share a row, every cell between them
    holds a straight piece. *)
Lemma initializeGame_row size ds g src dst ds' :
  (2 ≤ size)%nat →
  initializeGame size ds = Some (g, src, dst, ds') →
  fst dst = fst src →
  ∀ c, (0 < c < size - 1)%nat →
    ∃ r, r ∈ rotations ∧ pieceAt g (fst src, c) = Some (turnedStraight r).
Proof.
  intros Hsize. unfold initializeGame.
  destruct (Nat.eqb_spec size 0) as [->|_]; [lia|].
  unfold bind at 1.
  destruct (placeSourceAndDestination _ _ ds) as [[[[g1 src1] dst1] ds1]|] eqn:Hplace;
    [|done].
  unfold bind at 1, fillGrid, bind at 1, createValidPath.
  destruct (carve _ g1 _ src1 dst1 ds1) as [[g2 ds2]|] eqn:Hcarve; [|done].
  destruct (mapM (mapM fillCell) g2 ds2) as [[g3 ds3]|] eqn:Hfill; [|done].
  unfold bind, randomizeRotations.
  destruct (mapM (mapM randomizeCell) g3 ds3) as [[g4 ds4]|] eqn:Hturn; [|done].
  intros [= <- <- <- <-] Hrow c Hc.
  apply place_spec in Hplace as (Hsrc & Hdst & S & D & Hplaced & ->); [|lia].
  destruct Hplaced as [(Hcol & -> & HS & HD)|(Hr0 & -> & _)];
    [|cbn [fst] in Hrow; lia].
  destruct src1 as [row c0]. cbn [fst snd] in *. subst c0.
  set (g1 := setCell (setCell (createGrid size size None) row 0 S) row (size - 1) D)
    in *.
  assert (Hcells : ∀ p, inGrid size p → p ≠ (row, 0%nat) → p ≠ (row, (size - 1)%nat) →
                        slotAt g1 p = Some None).
  { intros p. apply (placed_cells size (row, 0%nat) (row, (size - 1)%nat) S D p);
      [done | done | done |]. left. by split_and!. }
  apply carve_row in Hcarve as [Hpath _]; [|lia|].
  2:{ intros c' Hc'. rewrite visitedAt_mark_ne by (intros [= ?]; lia).
      unfold visitedAt, createGrid.
      destruct (replicate _ _ !! row) as [vr|] eqn:Hvr; [|done].
      apply lookup_replicate in Hvr as [-> _].
      destruct (replicate _ _ !! c') as [b|] eqn:Hb; [|done].
      by apply lookup_replicate in Hb as [-> _]. }
  assert (Hin : inGrid size (row, c)) by (destruct Hsrc; split; simpl in *; lia).
  assert (Hnull : slotAt g1 (row, c) = Some None).
  { apply Hcells; [done | |]; intros [= ?]; lia. }
  assert (Hslot2 : slotAt g2 (row, c) = Some (Some (createPiece straight 90))).
  { apply Hpath; [lia | by rewrite Hnull |].
    unfold isFixedCell.
    change (getCell g1 (fst (row, c)) (snd (row, c))) with (pieceAt g1 (row, c)).
    by rewrite pieceAt_slotAt, Hnull. }
  apply mapM2_slot in Hfill as [_ Hfill]. apply mapM2_slot in Hturn as [_ Hturn].
  destruct (Hfill _ _ Hslot2) as (cell3 & da3 & db3 & Hslot3 & Hc3%fillCell_spec).
  subst cell3.
  destruct (Hturn _ _ Hslot3) as (cell4 & da4 & db4 & Hslot4 & Hc4%randomizeCell_spec).
  cbn in Hc4. destruct Hc4 as (r & Hr & ->).
  exists r. split; [done|]. by rewrite pieceAt_slotAt, Hslot4.
Qed.

(** *** One accepted click, in full *)

Lemma click_outcome src dst s row col piece :
  sourcePosition s = src → destinationPosition s = dst → ready src dst (grid s) →
  gameState s = playing →
  pieceAt (grid s) (row, col) = Some piece → fixed piece = false →
  ∃ s', handlePieceClick row col s = Some s'
    ∧ sourcePosition s' = src ∧ destinationPosition s' = dst
    ∧ ready src dst (grid s') ∧ flowing src (grid s')
    ∧ wiringAt (grid s') (row, col) = Some (setPowered false (rotatePiece piece))
    ∧ (∀ q, q ≠ (row, col) → wiringAt (grid s') q = wiringAt (grid s) q)
    ∧ ((poweredAt (grid s') dst = true ∧ gameState s' = success
        ∧ scheduled s' = scheduled s ++ [(1500, true)])
       ∨ (poweredAt (grid s') dst = false ∧ gameState s' = playing
          ∧ scheduled s' = scheduled s)).
Proof.
  intros Hsrc Hdst (Hrect & (sp & Hsp & Hty & Hon & Hfx) & Huniq & [D HD] & Hwf)
    Hplay Hpiece Hfree.
  unfold handlePieceClick. rewrite Hplay. cbn [isPlaying negb].
  change (getCell (grid s) row col) with (pieceAt (grid s) (row, col)).
  rewrite Hpiece, Hfree.
  set (g1 := setCell (grid s) row col (rotatePiece piece)).
  assert (Hns : src ≠ (row, col)) by (intros E; rewrite E in Hsp; congruence).
  assert (Hsp1 : pieceAt g1 src = Some sp) by (unfold g1; by rewrite pieceAt_setCell_ne).
  assert (Hcell1 : pieceAt g1 (row, col) = Some (rotatePiece piece))
    by (by eapply pieceAt_setCell_eq).
  assert (Hcells1 : ∀ p q, pieceAt g1 p = Some q →
            (p = (row, col) ∧ q = rotatePiece piece) ∨ pieceAt (grid s) p = Some q).
  { intros p q Hq. destruct (decide (p = (row, col))) as [->|Hp].
    - left. rewrite Hcell1 in Hq. by injection Hq as <-.
    - right. unfold g1 in Hq. by rewrite pieceAt_setCell_ne in Hq. }
  assert (Huniq1 : ∀ p q, pieceAt g1 p = Some q → type q = source → p = src).
  { intros p q Hq Htq. destruct (Hcells1 p q Hq) as [[-> ->]|Hq0].
    - by apply (Huniq (row, col) piece).
    - by apply (Huniq p q). }
  assert (HD1 : is_Some (pieceAt g1 dst)).
  { destruct (decide (dst = (row, col))) as [->|Hnd].
    - by rewrite Hcell1.
    - unfold g1. by rewrite pieceAt_setCell_ne. }
  destruct HD1 as [D1 HD1].
  assert (Hshape1 : length <$> g1 = length <$> grid s) by apply shape_setCell.
  assert (Hrect1 : rectangular g1) by (by apply (rectangular_shape (grid s))).
  destruct (updatePowerFlow_step g1 src) as (g2 & Hrun & Hshape2 & Hwire & Hpow).
  { split; [by exists sp | done]. }
  rewrite Hsrc, Hrun. cbn [mbind option_bind]. unfold checkWinCondition.
  cbn [grid destinationPosition]. rewrite Hdst.
  change (getCell g2 (fst dst) (snd dst)) with (pieceAt g2 (fst dst, snd dst)).
  rewrite <-surjective_pairing.
  destruct (wiringAt_Some _ _ _ _ (Hwire dst) HD1) as (bd & HD2).
  destruct (wiringAt_Some _ _ _ _ (Hwire src) Hsp1) as (bs & Hsp2).
  assert (Hrect2 : rectangular g2) by (by apply (rectangular_shape g1)).
  assert (Hbs : bs = true).
  { assert (Hp : poweredAt g2 src = true) by (apply Hpow; constructor).
    unfold poweredAt in Hp. by rewrite Hsp2 in Hp. }
  subst bs. rewrite HD2.
  assert (Hready2 : ready src dst g2).
  { split_and!; [done | | | by rewrite HD2 |].
    - exists (setPowered true sp). by split_and!.
    - intros p q Hq Htq.
      destruct (wiringAt_type g1 g2 p q (Hwire p) Hq) as (q1 & Hq1 & Ht1).
      apply (Huniq1 p q1 Hq1). congruence.
    - intros p q Hq. pose proof (Hwire p) as Hw. unfold wiringAt in Hw.
      rewrite Hq in Hw. destruct (pieceAt g1 p) as [q1|] eqn:Hq1; [|done].
      assert (Hwf1 : wellFormed q1).
      { destruct (Hcells1 p q1 Hq1) as [[_ ->]|Hq0].
        - apply rotatePiece_wellFormed. by apply (Hwf (row, col)).
        - by apply (Hwf p). }
      simpl in Hw. injection Hw as Et Er Ec _. unfold wellFormed.
      by rewrite Et, Er, Ec. }
  assert (Hflow2 : flowing src g2).
  { intros p. rewrite Hpow, <-(rtc_step_same g1 g2 src p Hshape2 Hwire).
    apply (rtc_step_linked g2 src p Hrect2). }
  assert (Hw1 : wiringAt g2 (row, col) = Some (setPowered false (rotatePiece piece))).
  { rewrite Hwire. unfold wiringAt. by rewrite Hcell1. }
  assert (Hw2 : ∀ q, q ≠ (row, col) → wiringAt g2 q = wiringAt (grid s) q).
  { intros q Hq. rewrite Hwire. unfold wiringAt, g1. by rewrite pieceAt_setCell_ne. }
  assert (Hpd : poweredAt g2 dst = bd) by (unfold poweredAt; by rewrite HD2).
  eexists. split; [reflexivity|].
  destruct bd; cbn; split_and!; try done; [left | right]; by split_and!.
Qed.

(** *** A winning sequence of clicks *)

(** The piece at [p] exposes its left and its right connection. *)
Definition alignedb (g : Grid) (p : Position) : bool :=
  match pieceAt g p with
  | Some piece => left (connections piece) && right (connections piece)
  | None => false
  end.

(** The cells between the endpoints of row [row] that do not. *)
Definition repairs (g : Grid) (row size : nat) : list Position :=
  (λ c, (row, c)) <$> filter (λ c, alignedb g (row, c) = false) (seq 1 (size - 2)).

(** A cell of another row, clicked to have the power flow recomputed. *)
Definition trigger (row : nat) : Position :=
  ((if (row =? 0)%nat then 1 else 0)%nat, 0%nat).

Lemma alignedb_wiring g g' p :
  wiringAt g' p = wiringAt g p → alignedb g' p = alignedb g p.
Proof.
  unfold wiringAt, alignedb. destruct (pieceAt g' p) as [x|], (pieceAt g p) as [y|];
    try done.
  intros [= _ _ -> _]. done.
Qed.

Lemma clicks_over cs : ∀ s, gameState s ≠ playing → clicks cs s = Some s.
Proof.
  induction cs as [|p cs IH]; intros s Hover; [done|].
  cbn [clicks]. unfold handlePieceClick.
  destruct (gameState s) eqn:E; try done; cbn; apply IH; by rewrite E.
Qed.

Lemma trigger_off_row row c : trigger row ≠ (row, c).
Proof. unfold trigger. destruct row; simpl; intros [= ?]; lia. Qed.

Lemma wiringAt_piece g p w :
  wiringAt g p = Some w →
  ∃ x, pieceAt g p = Some x ∧ type x = type w ∧ rotation x = rotation w
       ∧ connections x = connections w ∧ fixed x = fixed w.
Proof.
  unfold wiringAt. destruct (pieceAt g p) as [x|]; [|done].
  intros [= <-]. by exists x.
Qed.

Lemma turned_aligned r :
  r ∈ rotations →
  left (connections (turnedStraight r)) && right (connections (turnedStraight r)) = false →
  left (connections (turnedStraight ((r + 90) `rem` 360)))
  && right (connections (turnedStraight ((r + 90) `rem` 360))) = true
  ∧ (r + 90) `rem` 360 ∈ rotations.
Proof.
  intros Hr. apply rotations_cases in Hr as [-> | [-> | [-> | ->]]]; cbn; intros H;
    try done; (split; [done|]); unfold rotations; set_solver.
Qed.

Lemma turned_rotation r : r ∈ rotations → (r + 90) `rem` 360 ∈ rotations.
Proof.
  intros Hr. apply rotations_cases in Hr as [-> | [-> | [-> | ->]]]; cbn;
    unfold rotations; set_solver.
Qed.

Lemma clicks_app cs1 cs2 : ∀ s, clicks (cs1 ++ cs2) s = clicks cs1 s ≫= clicks cs2.
Proof.
  induction cs1 as [|p cs1 IH]; intros s; [done|]. cbn [app clicks].
  destruct (handlePieceClick (fst p) (snd p) s) as [s1|]; [|done].
  cbn [mbind option_bind]. apply IH.
Qed.

Section Row.
Variables (size row : nat).
Hypothesis size_ge : (2 ≤ size)%nat.

Let src : Position := (row, 0%nat).
Let dst : Position := (row, (size - 1)%nat).

(** The wiring of a board with its endpoints on row [row]. *)
Definition wired (g : Grid) : Prop :=
  wiringAt g src = Some (setPowered false (createPiece source 0))
  ∧ wiringAt g dst = Some (createPiece destination 0)
  ∧ (∀ c, (0 < c < size - 1)%nat →
       ∃ r, r ∈ rotations ∧ wiringAt g (row, c) = Some (turnedStraight r))
  ∧ ∃ T, wiringAt g (trigger row) = Some T ∧ fixed T = false.

Lemma repair_columns cs : ∀ s,
  sourcePosition s = src → destinationPosition s = dst →
  ready src dst (grid s) → wired (grid s) → gameState s = playing →
  NoDup cs →
  (∀ c, c ∈ cs → (0 < c < size - 1)%nat ∧ alignedb (grid s) (row, c) = false) →
  ∃ s', clicks ((λ c, (row, c)) <$> cs) s = Some s'
    ∧ ((gameState s' = success ∧ scheduled s' = scheduled s ++ [(1500, true)])
       ∨ (gameState s' = playing ∧ scheduled s' = scheduled s
          ∧ sourcePosition s' = src ∧ destinationPosition s' = dst
          ∧ ready src dst (grid s') ∧ wired (grid s')
          ∧ (∀ c, c ∈ cs → alignedb (grid s') (row, c) = true)
          ∧ (∀ c, c ∉ cs → wiringAt (grid s') (row, c) = wiringAt (grid s) (row, c)))).
Proof.
  induction cs as [|c cs IH]; intros s Hsrc Hdst Hready Hwired Hplay Hnd Hcs.
  { exists s. split; [done|]. right. split_and!; try done. intros c Hc.
    by apply elem_of_nil in Hc. }
  apply NoDup_cons in Hnd as [Hfresh Hnd].
  destruct (Hcs c ltac:(by left)) as [Hc Hoff].
  destruct Hwired as (Hws & Hwd & Hwp & (T & HwT & HfT)).
  destruct (Hwp c Hc) as (r & Hr & Hwc).
  destruct (wiringAt_piece _ _ _ Hwc) as (x & Hx & Htx & Hrx & Hcx & Hfx).
  destruct (click_outcome src dst s row c x Hsrc Hdst Hready Hplay Hx Hfx)
    as (s1 & Hclick & Hsrc1 & Hdst1 & Hready1 & Hflow1 & Hw1 & Hframe1 & Hout1).
  rewrite fmap_cons. cbn [clicks fst snd]. rewrite Hclick. cbn [mbind option_bind].
  destruct Hout1 as [(_ & Hwin & Hsch)|(_ & Hplay1 & Hsch1)].
  { exists s1. split; [|by left]. apply clicks_over. by rewrite Hwin. }
  assert (Hturn : setPowered false (rotatePiece x) = turnedStraight ((r + 90) `rem` 360)).
  { unfold rotatePiece, turnedStraight, setPowered. cbn. rewrite Htx, Hrx, Hfx. done. }
  assert (Hoff' : left (connections (turnedStraight r))
                  && right (connections (turnedStraight r)) = false).
  { unfold alignedb in Hoff. rewrite Hx, Hcx in Hoff. done. }
  destruct (turned_aligned r Hr Hoff') as [Hon Hr'].
  assert (Hwired1 : wired (grid s1)).
  { split_and!.
    - rewrite Hframe1; [done|]. intros [= ?]. lia.
    - rewrite Hframe1; [done|]. intros [= ?]. lia.
    - intros c' Hc'. destruct (decide (c' = c)) as [->|Hne].
      + exists ((r + 90) `rem` 360). split; [done|]. by rewrite Hw1, <-Hturn.
      + rewrite Hframe1 by (intros [= ?]; done). by apply Hwp.
    - exists T. rewrite Hframe1; [done|]. apply trigger_off_row. }
  destruct (IH s1 Hsrc1 Hdst1 Hready1 Hwired1 Hplay1 Hnd) as (s' & Hrest & Hout).
  { intros c' Hc'. destruct (Hcs c' ltac:(by right)) as [? Hoffc]. split; [done|].
    rewrite (alignedb_wiring (grid s)); [done|]. apply Hframe1. intros [= ->]. done. }
  exists s'. split; [done|].
  destruct Hout as [(Hwin & Hsch)|(Hplay' & Hsch' & Hsrc' & Hdst' & Hready' & Hwired'
                                   & Hdone & Hframe')].
  { left. split; [done|]. by rewrite Hsch, Hsch1. }
  right. split_and!; try done; [congruence | |].
  - intros c' [->|Hc']%elem_of_cons; [|by apply Hdone].
    rewrite (alignedb_wiring (grid s1)) by (by apply Hframe').
    unfold alignedb.
    destruct (wiringAt_piece _ _ _ Hw1) as (y & Hy & _ & _ & Hcy & _).
    rewrite Hy, Hcy.
    by rewrite Hturn.
  - intros c' Hc'. apply not_elem_of_cons in Hc' as [Hne Hc'].
    rewrite Hframe' by done. apply Hframe1. intros [= ?]. done.
Qed.

Lemma row_reachable g :
  wired g → (∀ c, (0 < c < size - 1)%nat → alignedb g (row, c) = true) →
  ∀ k, (k ≤ size - 1)%nat → reachable g src (row, k).
Proof.
  intros (Hws & Hwd & Hwp & _) Hal. induction k as [|k IH]; intros Hk.
  { apply rtc_refl. }
  eapply rtc_r; [apply IH; lia|].
  assert (Hfrom : ∃ pp, pieceAt g (row, k) = Some pp ∧ right (connections pp) = true).
  { destruct k as [|k].
    - destruct (wiringAt_piece _ _ _ Hws) as (x & Hx & _ & _ & Hcx & _).
      exists x. split; [done|]. by rewrite Hcx.
    - pose proof (Hal (S k) ltac:(lia)) as Hon. unfold alignedb in Hon.
      destruct (pieceAt g (row, S k)) as [x|]; [|done].
      exists x. split; [done|]. by apply andb_true_iff in Hon as [_ ?]. }
  assert (Hto : ∃ qq, pieceAt g (row, S k) = Some qq ∧ left (connections qq) = true).
  { destruct (decide (S k = size - 1)%nat) as [E|Hne].
    - rewrite E. destruct (wiringAt_piece _ _ _ Hwd) as (x & Hx & _ & _ & Hcx & _).
      exists x. split; [done|]. by rewrite Hcx.
    - pose proof (Hal (S k) ltac:(lia)) as Hon. unfold alignedb in Hon.
      destruct (pieceAt g (row, S k)) as [x|]; [|done].
      exists x. split; [done|]. by apply andb_true_iff in Hon as [? _]. }
  destruct Hfrom as (pp & Hpp & Hr), Hto as (qq & Hqq & Hl).
  exists Right, pp, qq. by split_and!.
Qed.

Lemma trigger_wins s :
  sourcePosition s = src → destinationPosition s = dst →
  ready src dst (grid s) → wired (grid s) → gameState s = playing →
  (∀ c, (0 < c < size - 1)%nat → alignedb (grid s) (row, c) = true) →
  ∃ s', handlePieceClick (fst (trigger row)) (snd (trigger row)) s = Some s'
        ∧ gameState s' = success ∧ scheduled s' = scheduled s ++ [(1500, true)].
Proof.
  intros Hsrc Hdst Hready Hwired Hplay Hal.
  pose proof Hwired as (Hws & Hwd & Hwp & (T & HwT & HfT)).
  destruct (wiringAt_piece _ _ _ HwT) as (x & Hx & _ & _ & _ & Hfx).
  rewrite (surjective_pairing (trigger row)) in Hx.
  destruct (click_outcome src dst s _ _ x Hsrc Hdst Hready Hplay Hx ltac:(congruence))
    as (s1 & Hclick & Hsrc1 & Hdst1 & Hready1 & Hflow1 & Hw1 & Hframe1 & Hout1).
  rewrite <-surjective_pairing in Hframe1.
  exists s1. split; [done|].
  assert (Hwired1 : wired (grid s1)).
  { split_and!.
    - rewrite Hframe1; [done|]. intros E. by apply (trigger_off_row row 0%nat).
    - rewrite Hframe1; [done|]. intros E. by apply (trigger_off_row row (size - 1)).
    - intros c Hc. rewrite Hframe1; [by apply Hwp|]. intros E.
      by apply (trigger_off_row row c).
    - rewrite <-surjective_pairing in Hw1. eexists. split; [exact Hw1|]. cbn. congruence. }
  assert (Hal1 : ∀ c, (0 < c < size - 1)%nat → alignedb (grid s1) (row, c) = true).
  { intros c Hc. rewrite (alignedb_wiring (grid s)); [by apply Hal|].
    apply Hframe1. intros E. by apply (trigger_off_row row c). }
  assert (Hlit : poweredAt (grid s1) dst = true).
  { apply Hflow1. apply (row_reachable _ Hwired1 Hal1 (size - 1)). lia. }
  destruct Hout1 as [(_ & ? & ?)|(Hdark & _)]; [done | congruence].
Qed.

End Row.

(** X24 — Every board generated with gridSize >= 2 whose destination
    lies in the source's row (the horizontal orientation) can be won: some
    sequence of at most gridSize - 1 clicks ends the session in success
    with one completion scheduled after 1500 ms.  The cells between the
    endpoints all hold straight pieces; the sequence turns those that do
    not lie along the row, then clicks a cell of another row. *)
Theorem horizontal_board_solvable size ds g src dst ds'
        (time : Z) (tm : CountdownTimer * Host) :
  (2 ≤ size)%nat →
  initializeGame size ds = Some (g, src, dst, ds') →
  fst dst = fst src →
  ∃ cs s',
    (length cs ≤ size - 1)%nat
    ∧ clicks cs (mkGame playing time g tm src dst []) = Some s'
    ∧ gameState s' = success ∧ scheduled s' = [(1500, true)].
Proof.
  intros Hsize Hrun Hrow.
  pose proof (initializeGame_row _ _ _ _ _ _ Hsize Hrun Hrow) as Hpath.
  destruct (initializeGame_board _ _ _ _ _ _ Hsize Hrun)
    as (Hsq & Hsrc & Hdst & Hne & (S & D & Hplaced & HS & HD) & Hrest).
  pose proof (board_pieces size g src dst S D Hsq HS HD Hrest) as Hcell.
  destruct Hplaced as [(Hcol & Hd & -> & ->)|(Hr0 & Hd & _)].
  2:{ rewrite Hd in Hrow. cbn [fst] in Hrow. lia. }
  destruct src as [row c0]. cbn [fst snd] in *. subst c0 dst.
  set (s0 := mkGame playing time g tm (row, 0%nat) (row, (size - 1)%nat) []).
  assert (Hready : ready (row, 0%nat) (row, (size - 1)%nat) (grid s0)).
  { split_and!; cbn [grid s0].
    - by eapply square_rectangular.
    - eexists. by split_and!.
    - intros p piece Hp Hty.
      destruct (Hcell p piece Hp) as [[-> _]|[[_ ->]|Hord]]; [done|done|].
      by apply ordinary_not_source in Hord.
    - by rewrite HD.
    - intros p piece Hp.
      destruct (Hcell p piece Hp) as [[_ ->]|[[_ ->]|(_ & _ & _ & Hw)]]; [| |done];
        apply createPiece_wellFormed; unfold rotations; set_solver. }
  assert (Htrig : inGrid size (trigger row)).
  { unfold trigger, inGrid. destruct row; simpl; lia. }
  assert (Hwired : wired size row (grid s0)).
  { cbn [grid s0]. split_and!.
    - unfold wiringAt. by rewrite HS.
    - unfold wiringAt. by rewrite HD.
    - intros c Hc. destruct (Hpath c Hc) as (r & Hr & Hp).
      exists r. split; [done|]. unfold wiringAt. by rewrite Hp.
    - destruct (Hrest (trigger row) Htrig) as (T & HT & _ & HfT & _).
      + apply (trigger_off_row row 0%nat).
      + apply (trigger_off_row row (size - 1)).
      + exists (setPowered false T). unfold wiringAt. rewrite HT. done. }
  destruct (repair_columns size row Hsize
              (filter (λ c, alignedb g (row, c) = false) (seq 1 (size - 2))) s0)
    as (s1 & Hfix & Hout); try done.
  { apply NoDup_filter, NoDup_seq. }
  { intros c [Hoff Hc%elem_of_seq]%list_elem_of_filter. split; [lia | done]. }
  fold (repairs g row size) in Hfix.
  assert (Hlen : (length (repairs g row size) ≤ size - 2)%nat).
  { unfold repairs. rewrite length_fmap.
    etrans; [apply length_filter|]. by rewrite length_seq. }
  destruct Hout as [(Hwin & Hsch)|(Hplay1 & Hsch1 & Hsrc1 & Hdst1 & Hready1 & Hwired1
                                   & Hdone & Hframe)].
  { exists (repairs g row size), s1. split_and!; [lia | done | done | done]. }
  destruct (trigger_wins size row Hsize s1 Hsrc1 Hdst1 Hready1 Hwired1 Hplay1)
    as (s2 & Hclick & Hwin & Hsch).
  { intros c Hc.
    destruct (alignedb g (row, c)) eqn:Hon.
    - rewrite (alignedb_wiring g); [done|]. apply Hframe.
      rewrite list_elem_of_filter. intros [Hoff _]. congruence.
    - apply Hdone. apply list_elem_of_filter. split; [done|]. apply elem_of_seq. lia. }
  exists (repairs g row size ++ [trigger row]), s2. split_and!.
  - rewrite length_app. simpl. lia.
  - rewrite clicks_app, Hfix. cbn [mbind option_bind clicks]. by rewrite Hclick.
  - done.
  - by rewrite Hsch, Hsch1.
Qed.

(** A generated 3x3 board with the source at (1, 0) and the destination
    at (1, 2). *)
Lemma horizontal_board_solvable_witness :
  ∃ g cs s',
    initializeGame 3 [0; 2 ^ 52; 0; 0; 2 ^ 51; 2 ^ 52; 5; 2 ^ 53 - 1; 2 ^ 50;
                      7; 2 ^ 52; 2 ^ 51; 3; 2 ^ 53 - 1; 11; 2 ^ 52; 2 ^ 50]
      = Some (g, (1%nat, 0%nat), (1%nat, 2%nat), [])
    ∧ clicks cs (mkGame playing 30000 g (start 0 (new 0 30000, mkHost ∅ 1))
                        (1%nat, 0%nat) (1%nat, 2%nat) []) = Some s'
    ∧ gameState s' = success.
Proof.
  eexists.
  match goal with |- ∃ cs s', ?run = Some (?g, _, _, _) ∧ _ =>
    assert (Hrun : run = Some (g, (1%nat, 0%nat), (1%nat, 2%nat), []))
      by (vm_compute; reflexivity)
  end.
  destruct (horizontal_board_solvable 3 _ _ _ _ _ 30000
              (start 0 (new 0 30000, mkHost ∅ 1)) ltac:(lia) Hrun eq_refl)
    as (cs & s' & _ & Hclicks & Hwin & _).
  exists cs, s'. by split_and!.
Defined.

End SolvableFacts.

(** ** The client script: presets and exclusivity *)

Module ClientFacts.
Import Utils Client.

(** X25 — The Safe Cracker tables built for the difficulties "easy" and
    "normal" (the latter also when no difficulty is given) cannot be won:
    they allow 1 rotation for 5 zones and 2 rotations for 4 zones, so
    whatever the zones are and whatever the player does, the session is
    either still playing or has failed. *)
Theorem safe_cracker_presets_unwinnable (difficulty : option string)
        (duration : option Z) (cfg : SafeCracker.Config) (time : Z)
        (zs : list SafeCracker.Zone) (now : Z) (host : Host)
        (events : list SafeCracker.Event) :
  safeCrackerProps (safe_cracker difficulty duration) = Some (cfg, time) →
  orElse difficulty "normal" = "easy"%string
  ∨ orElse difficulty "normal" = "normal"%string →
  SafeCracker.gameState (SafeCracker.run events (SafeCracker.mount cfg zs time now host))
    = SafeCracker.playing
  ∨ SafeCracker.gameState (SafeCracker.run events (SafeCracker.mount cfg zs time now host))
    = SafeCracker.failure.
Proof.
  intros Hcfg Hd.
  assert (Hshort : SafeCracker.zones cfg ≠ 1%nat
                   ∧ SafeCracker.maxRotations cfg < Z.of_nat (SafeCracker.zones cfg)).
  { unfold safe_cracker in Hcfg.
    destruct Hd as [Hd|Hd]; rewrite Hd in Hcfg; cbn in Hcfg; injection Hcfg as <- _;
      cbn; lia. }
  destruct (SafeBudgetFacts.run_settled cfg events (SafeCracker.mount cfg zs time now host)
              (SafeBudgetFacts.mount_settled _ _ _ _ _) (λ _, eq_refl)) as [_ H].
  destruct (SafeCracker.gameState _); [done | by left | | by right].
  destruct H as ([?|?] & _); lia.
Qed.

Lemma safe_cracker_presets_unwinnable_witness :
  SafeCracker.gameState
    (SafeCracker.run [SafeCracker.StartDrag (ofZ 0); SafeCracker.Drag (ofZ 15)]
       (SafeCracker.mount (SafeCracker.mkConfig 1 5)
          [SafeCracker.mkZone 10 20 false; SafeCracker.mkZone 100 110 false;
           SafeCracker.mkZone 150 160 false; SafeCracker.mkZone 200 210 false;
           SafeCracker.mkZone 300 310 false] 30000 0 (mkHost ∅ 1)))
  = SafeCracker.failure.
Proof.
  destruct (safe_cracker_presets_unwinnable (Some "easy"%string) None
              (SafeCracker.mkConfig 1 5) 30000
              [SafeCracker.mkZone 10 20 false; SafeCracker.mkZone 100 110 false;
               SafeCracker.mkZone 150 160 false; SafeCracker.mkZone 200 210 false;
               SafeCracker.mkZone 300 310 false] 0 (mkHost ∅ 1)
              [SafeCracker.StartDrag (ofZ 0); SafeCracker.Drag (ofZ 15)] eq_refl (or_introl eq_refl))
    as [H|H].
  - vm_compute in H. discriminate H.
  - exact H.
Defined.

(** *** One minigame at a time *)

Definition isStart (e : Effect) : Prop :=
  match e with SendNUIMessage _ _ => True | _ => False end.

Definition release : Effect := SetNuiFocus false false.

(** Between two start messages the focus is released. *)
Definition exclusive (trace : list Effect) : Prop :=
  ∀ i j e1 e2,
    (i < j)%nat → trace !! i = Some e1 → trace !! j = Some e2 →
    isStart e1 → isStart e2 →
    ∃ k, (i < k < j)%nat ∧ trace !! k = Some release.

(** Every start message has a release of the focus before it. *)
Definition guarded (trace : list Effect) : Prop :=
  ∀ j e, trace !! j = Some e → isStart e →
    ∃ k, (k < j)%nat ∧ trace !! k = Some release.

Lemma exclusive_quiet effects rest :
  Forall (λ e, ¬ isStart e) effects → exclusive rest → exclusive (effects ++ rest).
Proof.
  intros Hq Hex i j e1 e2 Hij Hi Hj H1 H2.
  apply lookup_app_Some in Hi as [Hi|[Hli Hi]].
  { by destruct (proj1 (Forall_lookup _ _) Hq i e1 Hi). }
  apply lookup_app_Some in Hj as [Hj|[Hlj Hj]].
  { by destruct (proj1 (Forall_lookup _ _) Hq j e2 Hj). }
  destruct (Hex (i - length effects)%nat (j - length effects)%nat e1 e2)
    as (k & Hk & Hrel); [lia | done..|].
  exists (length effects + k)%nat. split; [lia|].
  rewrite lookup_app_r by lia. by replace (length effects + k - length effects)%nat with k by lia.
Qed.

Lemma guarded_release effects rest :
  Forall (λ e, ¬ isStart e) effects → release ∈ effects → guarded (effects ++ rest).
Proof.
  intros Hq Hrel j e Hj He.
  apply lookup_app_Some in Hj as [Hj|[Hlj Hj]].
  { by destruct (proj1 (Forall_lookup _ _) Hq j e Hj). }
  apply list_elem_of_lookup in Hrel as (k & Hk).
  exists k. pose proof (lookup_lt_Some _ _ _ Hk). split; [lia|].
  by rewrite lookup_app_l.
Qed.

Lemma serveAll_exclusive rs : ∀ st,
  exclusive (fst (serveAll rs st))
  ∧ (isAnyMinigameActive st = true → guarded (fst (serveAll rs st))).
Proof.
  induction rs as [|r rs IH]; intros st.
  { split; [intros i j e1 e2 _ Hi; done | intros _ j e Hj; done]. }
  cbn [serveAll].
  destruct (serve r st) as [effects st'] eqn:Hserve.
  destruct (IH st') as [Hex Hgd].
  destruct (serveAll rs st') as [rest st''] eqn:Hrest. cbn [fst] in *.
  assert (Hcases :
    (effects = [] ∧ st' = st)
    ∨ (isAnyMinigameActive st = false ∧ isAnyMinigameActive st' = true
       ∧ ∃ m c, effects = [SendNUIMessage m c; SetNuiFocus true true])
    ∨ (Forall (λ e, ¬ isStart e) effects ∧ release ∈ effects)).
  { destruct r as [m d du cb|data|]; cbn [serve] in Hserve.
    - unfold exportStartMinigame in Hserve.
      destruct (minigames m) as [build|]; [|injection Hserve as <- <-; by left].
      unfold StartMinigame in Hserve.
      destruct (isAnyMinigameActive st) eqn:Hact; injection Hserve as <- <-;
        [by left|]. right; left. split_and!; [done | done | by eexists _, _].
    - unfold minigameComplete in Hserve. injection Hserve as <- <-. right; right.
      split; [|set_solver].
      destruct (minigameCallback st); repeat constructor; by intros [].
    - unfold minigameExit in Hserve. injection Hserve as <- <-. right; right.
      split; [|set_solver].
      destruct (minigameCallback st); repeat constructor; by intros []. }
  destruct Hcases as [[-> ->]|[(Hoff & Hon & m & c & ->)|[Hq Hrel]]].
  - done.
  - split; [|congruence].
    intros i j e1 e2 Hij Hi Hj H1 H2.
    destruct i as [|[|i]]; cbn in Hi.
    + destruct j as [|[|j]]; cbn in Hj; [lia | by injection Hj as <- |].
      destruct (Hgd Hon j e2 Hj H2) as (k & Hk & Hr).
      exists (S (S k)). split; [lia | done].
    + by injection Hi as <-.
    + destruct j as [|[|j]]; cbn in Hj; [lia | lia |].
      destruct (Hex i j e1 e2 ltac:(lia) Hi Hj H1 H2) as (k & Hk & Hr).
      exists (S (S k)). split; [lia | done].
  - split; [by apply exclusive_quiet | intros _; by apply guarded_release].
Qed.

(** X26 — The script never has two minigames open.  In the effects of any
    series of start requests and page callbacks, between two
    [startMinigame] messages sent to the page there is always a
    [SetNuiFocus(false, false)], which only the two callbacks
    [minigameComplete] and [minigameExit] issue; a start request made
    while a minigame is active sends nothing and changes nothing. *)
Theorem client_one_at_a_time (rs : list Request) :
  (∀ i j m1 c1 m2 c2,
     (i < j)%nat →
     fst (serveAll rs initial) !! i = Some (SendNUIMessage m1 c1) →
     fst (serveAll rs initial) !! j = Some (SendNUIMessage m2 c2) →
     ∃ k, (i < k < j)%nat
          ∧ fst (serveAll rs initial) !! k = Some (SetNuiFocus false false))
  ∧ ∀ st m d du cb,
      isAnyMinigameActive st = true →
      exportStartMinigame m d du cb st
      = ((false, Some (match minigames m with
                       | Some _ => "Another minigame is already in progress"
                       | None => "Invalid minigame type"
                       end)%string), [], st).
Proof.
  split.
  - intros i j m1 c1 m2 c2 Hij Hi Hj.
    by apply (proj1 (serveAll_exclusive rs initial) i j _ _ Hij Hi Hj).
  - intros st m d du cb Hact. unfold exportStartMinigame.
    destruct (minigames m); [|done]. unfold StartMinigame. by rewrite Hact.
Qed.

End ClientFacts.
